(** * Reactive: a shallow embedding of [src/Reactive.ts]

    The store ([Reactive]), its [Work]s, the reverse-dependency index
    ([ReversedDependencies]) and the observation proxies are modelled as
    functions over an explicit world: the stores, the heap of [Work]
    objects and the heap of proxied objects.  Getters, setters and the tick
    loop call each other without bound in the source, so the stateful layer
    is a fuelled state-and-exception monad; a thrown JavaScript error keeps
    the state reached so far, exactly as an exception leaves the mutated
    store behind.

    JavaScript objects are modelled by the record of their own properties.
    The plain objects of the source ([prop], [_props], [_computeds],
    [_linkedPropInvalidations], the index structure, the target of a proxy)
    also inherit the members of [Object.prototype], and an array owns
    [length]: where the source tests such an object for a key
    ([defineProp], [defineComputed], [defineSharedProp],
    [_linkPropInvalidation]) the model tests for the inherited names too
    ([inheritedName]); everywhere else the record stands for the object on
    the keys that are not such names ([plainKey], [plainPath],
    [modelledKey]), which is what the names of Props, the keys of the
    handlers and the paths of the statements below are taken to be. *)

From Stdlib Require Import List String ZArith Bool Arith Lia DecimalString Permutation.
Import ListNotations.
Open Scope string_scope.
Open Scope list_scope.
Set Warnings "-register-all".

(** ** Keys and paths *)

(** [type PropName = string | number | symbol]; numbers are the integers
    (array indices and numeric names), a symbol is known by its identity.
    The integers meant are those a JavaScript number holds exactly, below
    2^53 in magnitude, which print in decimal notation ([plainKey] below). *)
Inductive PropName : Type :=
| KStr (s : string)
| KNum (n : Z)
| KSym (id : nat).

(** [type PropPath = PropName[]] *)
Definition PropPath : Type := list PropName.

(** The comparison [a !== b] of the source on keys, as [===]. *)
Definition key_strict_eqb (a b : PropName) : bool :=
  match a, b with
  | KStr s, KStr t => String.eqb s t
  | KNum n, KNum m => Z.eqb n m
  | KSym i, KSym j => Nat.eqb i j
  | _, _ => false
  end.

(** What a key becomes when it indexes a JavaScript object ([obj[key]]): a
    number is converted to its decimal string, a symbol stays itself.  (The
    decimal string is what JavaScript prints for the integers below 1e21 in
    magnitude; [plainKey] keeps to the safe integers.) *)
Inductive PropertyKey : Type :=
| PStr (s : string)
| PSym (id : nat).

Definition toPropertyKey (k : PropName) : PropertyKey :=
  match k with
  | KStr s => PStr s
  | KNum n => PStr (NilZero.string_of_int (Z.to_int n))
  | KSym i => PSym i
  end.

Definition pkey_eqb (a b : PropertyKey) : bool :=
  match a, b with
  | PStr s, PStr t => String.eqb s t
  | PSym i, PSym j => Nat.eqb i j
  | _, _ => false
  end.

(** The members that every plain object ([{}]) inherits from
    [Object.prototype]: [obj[key]] finds one of them when [obj] has no own
    property of that name.  They are functions, but for [__proto__], which
    reads as [Object.prototype] itself; none of them is [undefined]. *)
Definition objectPrototypeNames : list string :=
  ["constructor"; "hasOwnProperty"; "isPrototypeOf"; "propertyIsEnumerable";
   "toLocaleString"; "toString"; "valueOf"; "__proto__";
   "__defineGetter__"; "__defineSetter__"; "__lookupGetter__"; "__lookupSetter__"].

Definition inheritedName (key : PropertyKey) : bool :=
  match key with
  | PStr s => existsb (String.eqb s) objectPrototypeNames
  | PSym _ => false
  end.

(** [path[0]] used as an index: on the empty path it is [undefined], that
    is the property named "undefined". *)
Definition firstKey (path : PropPath) : PropertyKey :=
  match path with
  | [] => PStr "undefined"
  | k :: _ => toPropertyKey k
  end.

(** The inner loop of [_propPathExistsIn] (the lengths are already equal). *)
Fixpoint arraysAreEqual (needle item : PropPath) : bool :=
  match needle, item with
  | [], _ => true
  | n :: needle', i :: item' =>
      if key_strict_eqb n i then arraysAreEqual needle' item' else false
  | _ :: _, [] => false
  end.

(** [_propPathExistsIn (needle, haystack)] *)
Fixpoint _propPathExistsIn (needle : PropPath) (haystack : list PropPath) : bool :=
  match haystack with
  | [] => false
  | item :: rest =>
      if Nat.eqb (List.length needle) (List.length item) && arraysAreEqual needle item
      then true
      else _propPathExistsIn needle rest
  end.

(** A [Work] object is known by its place in the heap of works. *)
Definition WorkRef : Type := nat.

(** ** ReversedDependencies *)

(** [ReversedDependenciesStructure]: a record from property keys to
    [{works, dependencies}], kept as the insertion-ordered sequence of its
    entries: [RDEntry key works dependencies rest]. *)
Inductive ReversedDependenciesStructure : Type :=
| RDEmpty
| RDEntry (key : PropertyKey) (works : list WorkRef)
          (dependencies : ReversedDependenciesStructure)
          (rest : ReversedDependenciesStructure).

(** [structure[key]], for the keys the structure owns.  Under a key that
    names a member of [Object.prototype] and that the structure does not
    own, the source finds that member, and [_recursiveAdd] and
    [_recursiveGet] then throw or answer [undefined]; the index is this
    function on the paths of [plainPath], and the statements on the index are
    made for those. *)
Fixpoint rd_lookup (key : PropertyKey) (structure : ReversedDependenciesStructure)
  : option (list WorkRef * ReversedDependenciesStructure) :=
  match structure with
  | RDEmpty => None
  | RDEntry k works deps rest =>
      if pkey_eqb key k then Some (works, deps) else rd_lookup key rest
  end.

(** [ReversedDependencies._recursiveGet] *)
Fixpoint _recursiveGet (structure : ReversedDependenciesStructure) (path : PropPath)
  : list WorkRef :=
  match path with
  | [] => []
  | k :: rest =>
      match rd_lookup (toPropertyKey k) structure with
      | None => []
      | Some (works, deps) =>
          match rest with
          | [] => works
          | _ :: _ => _recursiveGet deps rest
          end
      end
  end.

(** [ReversedDependencies._recursiveAdd]: the inner loop finds (or creates
    at the end) the entry of [path[0]]. *)
Fixpoint _recursiveAdd (structure : ReversedDependenciesStructure) (path : PropPath)
  (work : WorkRef) : ReversedDependenciesStructure :=
  match path with
  | [] => structure
  | k :: rest =>
      (fix at_key (s : ReversedDependenciesStructure) : ReversedDependenciesStructure :=
         match s with
         | RDEmpty =>
             match rest with
             | [] => RDEntry (toPropertyKey k) [work] RDEmpty RDEmpty
             | _ :: _ => RDEntry (toPropertyKey k) [] (_recursiveAdd RDEmpty rest work) RDEmpty
             end
         | RDEntry k' works deps tl =>
             if pkey_eqb (toPropertyKey k) k'
             then match rest with
                  | [] => RDEntry k' (works ++ [work]) deps tl
                  | _ :: _ => RDEntry k' works (_recursiveAdd deps rest work) tl
                  end
             else RDEntry k' works deps (at_key tl)
         end) structure
  end.

Module ReversedDependencies.
Definition get (structure : ReversedDependenciesStructure) (path : PropPath) :=
  _recursiveGet structure path.
Definition add (structure : ReversedDependenciesStructure) (path : PropPath)
  (work : WorkRef) := _recursiveAdd structure path work.
End ReversedDependencies.

(** ** Cycle detection *)

(** [workList.indexOf(work)] *)
Fixpoint indexOf (work : WorkRef) (workList : list WorkRef) : option nat :=
  match workList with
  | [] => None
  | w :: rest =>
      if Nat.eqb w work then Some 0
      else match indexOf work rest with
           | Some i => Some (S i)
           | None => None
           end
  end.

(** [workCount[index]++] *)
Fixpoint incrAt (index : nat) (workCount : list nat) : list nat :=
  match workCount, index with
  | [], _ => []
  | c :: rest, 0 => S c :: rest
  | c :: rest, S i => c :: incrAt i rest
  end.

(** The first loop of [_checkLoopInStack]: [workList] and [workCount]. *)
Definition countStep (acc : list WorkRef * list nat) (work : WorkRef)
  : list WorkRef * list nat :=
  let '(workList, workCount) := acc in
  match indexOf work workList with
  | None => (workList ++ [work], workCount ++ [1])
  | Some index => (workList, incrAt index workCount)
  end.

Definition maxStep (maxCount count : nat) : nat :=
  if Nat.ltb maxCount count then count else maxCount.

(** [_checkLoopInStack ()] on the store's [_successiveStack]. *)
Definition _checkLoopInStack (_successiveStack : list WorkRef) : bool :=
  let '(_, workCount) := fold_left countStep _successiveStack ([], []) in
  let maxCount := fold_left maxStep workCount 0 in
  Nat.ltb 20 maxCount.

(** ** Values, sources and handlers *)

(** What a Prop, a Computed or a field of a proxied object holds.  JavaScript
    numbers are modelled by the integers.  [VProxy ref] is a Proxy made by
    [_createObjectProxy], known by its place in the heap of proxies;
    [VInstance id] is an object with a prototype of its own, which
    [_createObjectProxy] returns as it is. *)
Inductive Value : Type :=
| VUndefined
| VNull
| VBool (b : bool)
| VNum (n : Z)
| VStr (s : string)
| VProxy (ref : nat)
| VInstance (id : nat).

(** What a caller assigns: a primitive, a class instance, or a plain object
    or array literal, which is a finite tree (so the [parents] map of
    [_createObjectProxy], which answers only for a source that is one of its
    own ancestors, never answers). *)
Inductive Source : Type :=
| SrcUndefined
| SrcNull
| SrcBool (b : bool)
| SrcNum (n : Z)
| SrcStr (s : string)
| SrcInstance (id : nat)
| SrcObject (isArray : bool) (fields : list (string * Source)).

(** [a === b] on values *)
Definition strict_eqb (a b : Value) : bool :=
  match a, b with
  | VUndefined, VUndefined => true
  | VNull, VNull => true
  | VBool x, VBool y => Bool.eqb x y
  | VNum x, VNum y => Z.eqb x y
  | VStr x, VStr y => String.eqb x y
  | VProxy x, VProxy y => Nat.eqb x y
  | VInstance x, VInstance y => Nat.eqb x y
  | _, _ => false
  end.

(** [value === current] for an assigned source: a fresh literal is never
    identical to what is stored. *)
Definition source_is (value : Source) (current : Value) : bool :=
  match value, current with
  | SrcUndefined, VUndefined => true
  | SrcNull, VNull => true
  | SrcBool x, VBool y => Bool.eqb x y
  | SrcNum x, VNum y => Z.eqb x y
  | SrcStr x, VStr y => String.eqb x y
  | SrcInstance x, VInstance y => Nat.eqb x y
  | _, _ => false
  end.

(** [_isObject (value)] *)
Definition _isObject (value : Value) : bool :=
  match value with
  | VProxy _ | VInstance _ => true
  | _ => false
  end.

Definition truthy (v : Value) : bool :=
  match v with
  | VUndefined | VNull => false
  | VBool b => b
  | VNum n => negb (Z.eqb n 0)
  | VStr s => negb (String.eqb s "")
  | VProxy _ | VInstance _ => true
  end.

(** A value read by a handler and assigned again; a Proxy assigned again
    would be wrapped a second time, which is outside this model. *)
Definition source_of_value (v : Value) : option Source :=
  match v with
  | VUndefined => Some SrcUndefined
  | VNull => Some SrcNull
  | VBool b => Some (SrcBool b)
  | VNum n => Some (SrcNum n)
  | VStr s => Some (SrcStr s)
  | VInstance i => Some (SrcInstance i)
  | VProxy _ => None
  end.

(** The bodies of the handlers a caller registers.  They are the input of
    the engine, not part of it: expressions read Props and Computeds through
    the [prop] and [computed] arguments, statements write Props, log, or call
    [touch]. *)
Inductive Expr : Type :=
| EConst (v : Source)
| EProp (name : PropName) (keys : list string)
| EComputed (name : PropName)
| EAnd (a b : Expr)
| ENot (a : Expr)
| EAdd (a b : Expr)
| ELt (a b : Expr)
| EEq (a b : Expr).

Inductive Stmt : Type :=
| SExpr (e : Expr)
| SAssign (name : PropName) (keys : list string) (e : Expr)
| SAssignLit (name : PropName) (keys : list string) (value : Source)
| SDelete (name : PropName) (keys : list string) (key : string)
| SIf (c : Expr) (thenB elseB : list Stmt)
| SLog (msg : string)
| STouch (path : PropPath).

Definition StoreRef : Type := nat.

(** The three handlers the source builds a [Work] from: the caller's own
    ([defineWork]), the closure of [defineComputed] and the copying closure of
    [defineSharedProp], each with what it captures. *)
Inductive Handler : Type :=
| HWork (body : list Stmt)
| HComputed (self : StoreRef) (computedName : PropName) (handler : Expr)
| HShared (self : StoreRef) (targetPropName : PropName)
          (sourceReactive : StoreRef) (sourcePropName : PropName).

(** [class Work] *)
Record Work : Type := mkWork {
  _handler : Handler;
  _dependencies : list PropPath
}.

Module WorkM.
Definition resetDependencies (w : Work) : Work := mkWork (_handler w) [].
(** [indexOf] compares arrays by identity, and every path handed over is a
    rest-parameter array of its own, so it is always pushed. *)
Definition declareDependency (dependency : PropPath) (w : Work) : Work :=
  mkWork (_handler w) (_dependencies w ++ [dependency]).
Definition getDependencies (w : Work) : list PropPath := _dependencies w.
End WorkM.

(** [interface EventListener] *)
Record EventListener : Type := mkListener {
  element : nat;
  eventName : string;
  handler : nat
}.

Definition listener_eqb (a b : EventListener) : bool :=
  Nat.eqb (element a) (element b) && String.eqb (eventName a) (eventName b)
  && Nat.eqb (handler a) (handler b).

(** An accessor property installed by [Object.defineProperty] on [this.prop]:
    of a Prop ([defineProp]) or of a shared Prop ([defineSharedProp]). *)
Inductive Accessor : Type :=
| AccProp (propName : PropName)
| AccShared (propName : PropName).

Record Linked : Type := mkLinked {
  targetReactive : StoreRef;
  targetPropName : PropName
}.

(** [class Reactive]: [prop] and [computed] hold the accessor properties;
    the accessor of a Computed closes over its name and its [work]. *)
Record Reactive : Type := mkReactive {
  prop : list (PropertyKey * Accessor);
  computed : list (PropertyKey * (PropName * WorkRef));
  _props : list (PropertyKey * Value);
  _computeds : list (PropertyKey * Value);
  _works : list WorkRef;
  _tickRunning : bool;
  _successiveStack : list WorkRef;
  _editedPropsDuringTick : list PropPath;
  _editedPropsDuringWork : list PropPath;
  _accessedPropsDuringWork : list PropPath;
  _eventListeners : list EventListener;
  _linkedPropInvalidations : list (PropertyKey * list Linked)
}.

Definition newReactive : Reactive :=
  mkReactive [] [] [] [] [] false [] [] [] [] [] [].

(** A Proxy of [_createObjectProxy]: the object behind it ([local], the
    record of the own properties that were assigned to it; the [length] that
    an array owns and the members that objects and arrays inherit are not in
    it, so it stands for the target on the keys of [modelledKey] only) and what
    its three callbacks are bound to, the store and the path they report
    under ([getter], [setter] and [deletter] are [_propAccessed],
    [_propEdited] and [_propEdited] of that store, each [bind] appends a
    key). *)
Record ProxyObj : Type := mkProxy {
  p_store : StoreRef;
  p_path : PropPath;
  p_isArray : bool;
  local : list (string * Value)
}.

(** What happened, in order: the places of the verbose log ([_propEdited],
    [_dispatchWork]), every call of a handler by [Work.dispatch], and what
    the handlers log. *)
Inductive Event : Type :=
| EvEdited (store : StoreRef) (path : PropPath)
| EvDispatchWork (store : StoreRef) (work : WorkRef)
| EvHandler (work : WorkRef)
| EvLog (msg : string).

Record World : Type := mkWorld {
  stores : list Reactive;
  works : list Work;
  proxies : list ProxyObj;
  attached : list EventListener;
  trace : list Event
}.

Definition emptyWorld : World := mkWorld [] [] [] [] [].

(** The errors of the source, and those of the language it runs on. *)
Inductive Error : Type :=
| PropAlreadyDefined
| SymbolIndex
| ComputedAlreadyDefined
| SetComputedDirectly
| ExternalPropMutated
| InfiniteLoopDetected
| TypeError (msg : string)
| OutOfFuel
| OutOfModel.

(** ** Records as JavaScript objects *)

Section Assoc.
Context {K V : Type} (eqb : K -> K -> bool).

Fixpoint assoc_get (k : K) (l : list (K * V)) : option V :=
  match l with
  | [] => None
  | (k', v) :: rest => if eqb k k' then Some v else assoc_get k rest
  end.

(** [obj[k] = v]: in place when the key is there, at the end otherwise. *)
Fixpoint assoc_set (k : K) (v : V) (l : list (K * V)) : list (K * V) :=
  match l with
  | [] => [(k, v)]
  | (k', v') :: rest =>
      if eqb k k' then (k', v) :: rest else (k', v') :: assoc_set k v rest
  end.

(** [delete obj[k]] *)
Fixpoint assoc_delete (k : K) (l : list (K * V)) : list (K * V) :=
  match l with
  | [] => []
  | (k', v') :: rest =>
      if eqb k k' then rest else (k', v') :: assoc_delete k rest
  end.
End Assoc.

Definition hasOwn {K V : Type} (eqb : K -> K -> bool) (k : K) (l : list (K * V)) : bool :=
  match assoc_get eqb k l with
  | Some _ => true
  | None => false
  end.

(** [obj[k]] read as a value, for a key that is no name of an inherited
    member: [undefined] when the key is absent. *)
Definition valueAt {K : Type} (eqb : K -> K -> bool) (k : K) (l : list (K * Value)) : Value :=
  match assoc_get eqb k l with
  | Some v => v
  | None => VUndefined
  end.

Fixpoint list_set {A : Type} (i : nat) (x : A) (l : list A) : list A :=
  match l, i with
  | [], _ => []
  | _ :: rest, 0 => x :: rest
  | y :: rest, S j => y :: list_set j x rest
  end.

(** ** The world and its monad *)

Inductive Outcome (A : Type) : Type :=
| Ok (a : A)
| Throw (e : Error).
Arguments Ok {A} a.
Arguments Throw {A} e.

(** A computation changes the world and returns or throws; what was changed
    before a throw stays changed. *)
Definition M (A : Type) : Type := World -> World * Outcome A.

Definition ret {A : Type} (a : A) : M A := fun w => (w, Ok a).
Definition throw {A : Type} (e : Error) : M A := fun w => (w, Throw e).
Definition bind {A B : Type} (c : M A) (k : A -> M B) : M B :=
  fun w => match c w with
           | (w', Ok a) => k a w'
           | (w', Throw e) => (w', Throw e)
           end.

Notation "x <- c ;; k" := (bind c (fun x => k))
  (at level 61, c at next level, right associativity).
Notation "c ;; k" := (bind c (fun _ => k))
  (at level 61, right associativity).

Fixpoint forEachM {A : Type} (f : A -> M unit) (l : list A) : M unit :=
  match l with
  | [] => ret tt
  | x :: rest => f x ;; forEachM f rest
  end.

Definition when (b : bool) (c : M unit) : M unit := if b then c else ret tt.

Section StoreFields.
Variable r : Reactive.
Definition set_prop v := mkReactive v (computed r) (_props r) (_computeds r) (_works r)
  (_tickRunning r) (_successiveStack r) (_editedPropsDuringTick r)
  (_editedPropsDuringWork r) (_accessedPropsDuringWork r) (_eventListeners r)
  (_linkedPropInvalidations r).
Definition set_computed v := mkReactive (prop r) v (_props r) (_computeds r) (_works r)
  (_tickRunning r) (_successiveStack r) (_editedPropsDuringTick r)
  (_editedPropsDuringWork r) (_accessedPropsDuringWork r) (_eventListeners r)
  (_linkedPropInvalidations r).
Definition set_props v := mkReactive (prop r) (computed r) v (_computeds r) (_works r)
  (_tickRunning r) (_successiveStack r) (_editedPropsDuringTick r)
  (_editedPropsDuringWork r) (_accessedPropsDuringWork r) (_eventListeners r)
  (_linkedPropInvalidations r).
Definition set_computeds v := mkReactive (prop r) (computed r) (_props r) v (_works r)
  (_tickRunning r) (_successiveStack r) (_editedPropsDuringTick r)
  (_editedPropsDuringWork r) (_accessedPropsDuringWork r) (_eventListeners r)
  (_linkedPropInvalidations r).
Definition set_works v := mkReactive (prop r) (computed r) (_props r) (_computeds r) v
  (_tickRunning r) (_successiveStack r) (_editedPropsDuringTick r)
  (_editedPropsDuringWork r) (_accessedPropsDuringWork r) (_eventListeners r)
  (_linkedPropInvalidations r).
Definition set_tickRunning v := mkReactive (prop r) (computed r) (_props r) (_computeds r)
  (_works r) v (_successiveStack r) (_editedPropsDuringTick r)
  (_editedPropsDuringWork r) (_accessedPropsDuringWork r) (_eventListeners r)
  (_linkedPropInvalidations r).
Definition set_successiveStack v := mkReactive (prop r) (computed r) (_props r)
  (_computeds r) (_works r) (_tickRunning r) v (_editedPropsDuringTick r)
  (_editedPropsDuringWork r) (_accessedPropsDuringWork r) (_eventListeners r)
  (_linkedPropInvalidations r).
Definition set_editedPropsDuringTick v := mkReactive (prop r) (computed r) (_props r)
  (_computeds r) (_works r) (_tickRunning r) (_successiveStack r) v
  (_editedPropsDuringWork r) (_accessedPropsDuringWork r) (_eventListeners r)
  (_linkedPropInvalidations r).
Definition set_editedPropsDuringWork v := mkReactive (prop r) (computed r) (_props r)
  (_computeds r) (_works r) (_tickRunning r) (_successiveStack r)
  (_editedPropsDuringTick r) v (_accessedPropsDuringWork r) (_eventListeners r)
  (_linkedPropInvalidations r).
Definition set_accessedPropsDuringWork v := mkReactive (prop r) (computed r) (_props r)
  (_computeds r) (_works r) (_tickRunning r) (_successiveStack r)
  (_editedPropsDuringTick r) (_editedPropsDuringWork r) v (_eventListeners r)
  (_linkedPropInvalidations r).
Definition set_eventListeners v := mkReactive (prop r) (computed r) (_props r)
  (_computeds r) (_works r) (_tickRunning r) (_successiveStack r)
  (_editedPropsDuringTick r) (_editedPropsDuringWork r) (_accessedPropsDuringWork r) v
  (_linkedPropInvalidations r).
Definition set_linkedPropInvalidations v := mkReactive (prop r) (computed r) (_props r)
  (_computeds r) (_works r) (_tickRunning r) (_successiveStack r)
  (_editedPropsDuringTick r) (_editedPropsDuringWork r) (_accessedPropsDuringWork r)
  (_eventListeners r) v.
End StoreFields.

Definition theStore (s : StoreRef) (w : World) : Reactive := nth s (stores w) newReactive.
Definition theWork (r : WorkRef) (w : World) : Work := nth r (works w) (mkWork (HWork []) []).
Definition theProxy (ref : nat) (w : World) : ProxyObj :=
  nth ref (proxies w) (mkProxy 0 [] false []).

Definition updStore (s : StoreRef) (f : Reactive -> Reactive) (w : World) : World :=
  mkWorld (list_set s (f (theStore s w)) (stores w)) (works w) (proxies w) (attached w)
    (trace w).
Definition updWork (r : WorkRef) (f : Work -> Work) (w : World) : World :=
  mkWorld (stores w) (list_set r (f (theWork r w)) (works w)) (proxies w) (attached w)
    (trace w).
Definition set_proxies (h : list ProxyObj) (w : World) : World :=
  mkWorld (stores w) (works w) h (attached w) (trace w).
Definition set_attached (l : list EventListener) (w : World) : World :=
  mkWorld (stores w) (works w) (proxies w) l (trace w).
Definition addEvent (e : Event) (w : World) : World :=
  mkWorld (stores w) (works w) (proxies w) (attached w) (trace w ++ [e]).

Definition ofStore {A : Type} (s : StoreRef) (f : Reactive -> A) : M A :=
  fun w => (w, Ok (f (theStore s w))).
Definition modStore (s : StoreRef) (f : Reactive -> Reactive) : M unit :=
  fun w => (updStore s f w, Ok tt).
Definition modWork (r : WorkRef) (f : Work -> Work) : M unit :=
  fun w => (updWork r f w, Ok tt).
Definition ofWork {A : Type} (r : WorkRef) (f : Work -> A) : M A :=
  fun w => (w, Ok (f (theWork r w))).
Definition emit (e : Event) : M unit := fun w => (addEvent e w, Ok tt).

(** ** _createObjectProxy *)

Definition src_isObject (value : Source) : bool :=
  match value with
  | SrcInstance _ | SrcObject _ _ => true
  | _ => false
  end.

Definition primValue (value : Source) : Value :=
  match value with
  | SrcNull => VNull
  | SrcBool b => VBool b
  | SrcNum n => VNum n
  | SrcStr s => VStr s
  | SrcInstance i => VInstance i
  | SrcUndefined | SrcObject _ _ => VUndefined
  end.

(** [obj[key] = v] on the object behind the proxy [ref], for a key of
    [modelledKey] (assigning the [length] of an array truncates it). *)
Definition setLocal (ref : nat) (key : string) (v : Value) (heap : list ProxyObj)
  : list ProxyObj :=
  let p := nth ref heap (mkProxy 0 [] false []) in
  list_set ref (mkProxy (p_store p) (p_path p) (p_isArray p)
                  (assoc_set String.eqb key v (local p))) heap.

(** [_createObjectProxy (source, getter, setter, deletter)] with the
    callbacks bound to [store] and [path]: an instance of a class is
    returned as it is; a literal gets a proxy over a fresh [local], filled
    key by key by [setProperty], which wraps the nested objects with the key
    bound. *)
Fixpoint _createObjectProxy (source : Source) (store : StoreRef) (path : PropPath)
  (heap : list ProxyObj) : list ProxyObj * Value :=
  match source with
  | SrcObject isArray fields =>
      let ref := List.length heap in
      let heap0 := heap ++ [mkProxy store path isArray []] in
      ((fix setProperties (fs : list (string * Source)) (h : list ProxyObj) :=
          match fs with
          | [] => h
          | (key, value) :: rest =>
              if src_isObject value
              then let '(h', v) := _createObjectProxy value store (path ++ [KStr key]) h in
                   setProperties rest (setLocal ref key v h')
              else setProperties rest (setLocal ref key (primValue value) h)
          end) fields heap0,
       VProxy ref)
  | _ => (heap, primValue source)
  end.

(** [setProperty (obj, key, value)] of the proxy [ref] *)
Definition setProperty (ref : nat) (key : string) (value : Source) : M unit :=
  fun w =>
    let p := theProxy ref w in
    if src_isObject value
    then let '(h', v) := _createObjectProxy value (p_store p) (p_path p ++ [KStr key])
                           (proxies w) in
         (set_proxies (setLocal ref key v h') w, Ok tt)
    else (set_proxies (setLocal ref key (primValue value) (proxies w)) w, Ok tt).

(** ** Accesses

    Each function of the source that calls back into the engine is written
    once with the functions it calls as arguments ([...With]); the fuelled
    functions below tie them together.  The store runs with [verbose] off,
    its default. *)

Definition nonempty {A : Type} (l : list A) : bool :=
  match l with
  | [] => false
  | _ :: _ => true
  end.

(** [this._linkedPropInvalidations[propPath[0]]], nothing when absent.
    (For a first key that names a member of [Object.prototype] the source
    finds that member and [?.forEach] throws; the Props that can be defined
    have no such name, and the statements about other paths are made for
    the paths of [plainPath].) *)
Definition linksOf (s : StoreRef) (propPath : PropPath) : M (list Linked) :=
  ofStore s (fun r =>
    match assoc_get pkey_eqb (firstKey propPath) (_linkedPropInvalidations r) with
    | Some links => links
    | None => []
    end).

(** [_propAccessed (...propPath)] *)
Definition _propAccessedWith (self : StoreRef -> PropPath -> M unit)
  (s : StoreRef) (propPath : PropPath) : M unit :=
  accessed <- ofStore s _accessedPropsDuringWork ;;
  when (negb (_propPathExistsIn propPath accessed))
    (modStore s (fun r =>
       set_accessedPropsDuringWork r (_accessedPropsDuringWork r ++ [propPath]))) ;;
  links <- linksOf s propPath ;;
  forEachM (fun linked =>
    self (targetReactive linked) (targetPropName linked :: tl propPath)) links.

Fixpoint _propAccessed (fuel : nat) (s : StoreRef) (propPath : PropPath) : M unit :=
  match fuel with
  | 0 => throw OutOfFuel
  | S f => _propAccessedWith (_propAccessed f) s propPath
  end.

Section Reads.
Variable propAccessed : StoreRef -> PropPath -> M unit.

(** Reading [this.prop[key]]: the [get] of the accessor that [defineProp]
    or [defineSharedProp] installed. *)
Definition propGetWith (s : StoreRef) (key : PropertyKey) : M Value :=
  acc <- ofStore s (fun r => assoc_get pkey_eqb key (prop r)) ;;
  match acc with
  | None => ret VUndefined
  | Some (AccProp propName) | Some (AccShared propName) =>
      propAccessed s [propName] ;;
      ofStore s (fun r => valueAt pkey_eqb (toPropertyKey propName) (_props r))
  end.

(** The [get] trap of a proxy, on the keys of [modelledKey]. *)
Definition proxyGetWith (ref : nat) (key : string) : M Value :=
  fun w =>
    let p := theProxy ref w in
    (when (hasOwn String.eqb key (local p))
       (propAccessed (p_store p) (p_path p ++ [KStr key])) ;;
     (fun w' => (w', Ok (valueAt String.eqb key (local (theProxy ref w')))))) w.

(** [v[key]] for whatever [v] is; what a class instance holds is not
    modelled. *)
Definition memberGetWith (v : Value) (key : string) : M Value :=
  match v with
  | VProxy ref => proxyGetWith ref key
  | VUndefined | VNull => throw (TypeError "Cannot read properties of undefined")
  | VInstance _ => throw OutOfModel
  | VBool _ | VNum _ | VStr _ => ret VUndefined
  end.

(** [v.k1.k2...] *)
Fixpoint readKeysWith (v : Value) (keys : list string) : M Value :=
  match keys with
  | [] => ret v
  | key :: rest => v' <- memberGetWith v key ;; readKeysWith v' rest
  end.
End Reads.

(** What [_getDeep] walks: the [prop] namespace of a store, then values. *)
Inductive Holder : Type :=
| InProp (s : StoreRef)
| InValue (v : Value).

Definition holderGetWith (propAccessed : StoreRef -> PropPath -> M unit)
  (obj : Holder) (key : PropertyKey) : M Value :=
  match obj with
  | InProp s => propGetWith propAccessed s key
  | InValue v =>
      match key with
      | PStr k => memberGetWith propAccessed v k
      | PSym _ => match v with
                  | VInstance _ => throw OutOfModel
                  | _ => ret VUndefined
                  end
      end
  end.

(** [_getDeep (obj, keys)] *)
Definition _getDeepWith (propAccessed : StoreRef -> PropPath -> M unit)
  (self : Holder -> PropPath -> M Value) (obj : Holder) (keys : PropPath) : M Value :=
  match keys with
  | [k] => holderGetWith propAccessed obj (toPropertyKey k)
  | _ =>
      next <- holderGetWith propAccessed obj (firstKey keys) ;;
      if _isObject next then self (InValue next) (tl keys) else ret VUndefined
  end.

Fixpoint _getDeep (fuel : nat) (obj : Holder) (keys : PropPath) : M Value :=
  match fuel with
  | 0 => throw OutOfFuel
  | S f => _getDeepWith (_propAccessed f) (_getDeep f) obj keys
  end.

(** ** Edits, ticks and dispatch *)

(** [_propEdited (...propPath)] *)
Definition _propEditedWith (dispatchWorks : StoreRef -> M unit)
  (self : StoreRef -> PropPath -> M unit) (s : StoreRef) (propPath : PropPath) : M unit :=
  emit (EvEdited s propPath) ;;
  editedTick <- ofStore s _editedPropsDuringTick ;;
  when (negb (_propPathExistsIn propPath editedTick))
    (modStore s (fun r =>
       set_editedPropsDuringTick r (_editedPropsDuringTick r ++ [propPath]))) ;;
  editedWork <- ofStore s _editedPropsDuringWork ;;
  when (negb (_propPathExistsIn propPath editedWork))
    (modStore s (fun r =>
       set_editedPropsDuringWork r (_editedPropsDuringWork r ++ [propPath]))) ;;
  running <- ofStore s _tickRunning ;;
  when (negb running) (dispatchWorks s) ;;
  links <- linksOf s propPath ;;
  forEachM (fun linked =>
    self (targetReactive linked) (targetPropName linked :: tl propPath)) links.

(** [_getReversedWorksDependencies ()], for Works whose declared paths are
    paths of [plainPath] ([plainIndex]); on another path [add] throws. *)
Definition _getReversedWorksDependencies (w : World) (s : StoreRef)
  : ReversedDependenciesStructure :=
  fold_left (fun dependencies work =>
    fold_left (fun d dependency => ReversedDependencies.add d dependency work)
      (WorkM.getDependencies (theWork work w)) dependencies)
    (_works (theStore s w)) RDEmpty.

(** [_dispatchWorks ()] *)
Definition _dispatchWorksWith (dispatchWork : StoreRef -> WorkRef -> M unit)
  (self : StoreRef -> M unit) (s : StoreRef) : M unit :=
  modStore s (fun r => set_tickRunning r true) ;;
  invalidatedProps <- ofStore s _editedPropsDuringTick ;;
  modStore s (fun r => set_editedPropsDuringTick r []) ;;
  reversedDependencies <- (fun w => (w, Ok (_getReversedWorksDependencies w s))) ;;
  stack <- ofStore s _successiveStack ;;
  if _checkLoopInStack stack then throw InfiniteLoopDetected
  else
    forEachM (fun propPath =>
      forEachM (fun work => dispatchWork s work)
        (ReversedDependencies.get reversedDependencies propPath)) invalidatedProps ;;
    modStore s (fun r => set_tickRunning r false) ;;
    edited <- ofStore s _editedPropsDuringTick ;;
    if nonempty edited then self s
    else modStore s (fun r => set_successiveStack r []).

(** [_dispatchWork (work)] *)
Definition _dispatchWorkWith (dispatch : WorkRef -> StoreRef -> M unit)
  (s : StoreRef) (work : WorkRef) : M unit :=
  emit (EvDispatchWork s work) ;;
  modStore s (fun r => set_accessedPropsDuringWork r []) ;;
  modStore s (fun r => set_editedPropsDuringWork r []) ;;
  dispatch work s ;;
  accessedProps <- ofStore s _accessedPropsDuringWork ;;
  modStore s (fun r => set_accessedPropsDuringWork r []) ;;
  editedProps <- ofStore s _editedPropsDuringWork ;;
  modStore s (fun r => set_editedPropsDuringWork r []) ;;
  let dependencies :=
    filter (fun propPath => negb (_propPathExistsIn propPath editedProps)) accessedProps in
  modWork work WorkM.resetDependencies ;;
  forEachM (fun dependency => modWork work (WorkM.declareDependency dependency))
    dependencies ;;
  modStore s (fun r => set_successiveStack r (_successiveStack r ++ [work])).

(** [Work.dispatch (prop, computed)]: calls the handler, which is one of
    the three closures of the source. *)
Definition dispatchWith (exec : StoreRef -> list Stmt -> M unit)
  (eval : StoreRef -> Expr -> M Value)
  (propGet : StoreRef -> PropertyKey -> M Value)
  (work : WorkRef) (s : StoreRef) : M unit :=
  emit (EvHandler work) ;;
  h <- ofWork work _handler ;;
  match h with
  | HWork body => exec s body
  | HComputed self computedName handler =>
      v <- eval s handler ;;
      modStore self (fun r =>
        set_computeds r (assoc_set pkey_eqb (toPropertyKey computedName) v (_computeds r)))
  | HShared self targetPropName sourceReactive sourcePropName =>
      v <- propGet sourceReactive (toPropertyKey sourcePropName) ;;
      modStore self (fun r =>
        set_props r (assoc_set pkey_eqb (toPropertyKey targetPropName) v (_props r)))
  end.

(** Reading [this.computed[key]]: the [get] of the accessor installed by
    [defineComputed]. *)
Definition computedGetWith (dispatch : WorkRef -> StoreRef -> M unit)
  (getDeep : Holder -> PropPath -> M Value) (s : StoreRef) (key : PropertyKey) : M Value :=
  acc <- ofStore s (fun r => assoc_get pkey_eqb key (computed r)) ;;
  match acc with
  | None => ret VUndefined
  | Some (computedName, work) =>
      dependencies <- ofWork work WorkM.getDependencies ;;
      editedProps <- ofStore s _editedPropsDuringTick ;;
      let needsUpdate :=
        filter (fun dependency => _propPathExistsIn dependency editedProps) dependencies in
      when (nonempty needsUpdate) (dispatch work s) ;;
      forEachM (fun dependency => _ <- getDeep (InProp s) dependency ;; ret tt)
        dependencies ;;
      ofStore s (fun r => valueAt pkey_eqb (toPropertyKey computedName) (_computeds r))
  end.

(** Assigning [this.computed[key]]: the [set] of that accessor. *)
Definition computedSet (s : StoreRef) (key : PropertyKey) (value : Source) : M unit :=
  acc <- ofStore s (fun r => assoc_get pkey_eqb key (computed r)) ;;
  match acc with
  | None => throw OutOfModel
  | Some _ => throw SetComputedDirectly
  end.

(** The closure [set] of [defineProp]. *)
Definition setProp (s : StoreRef) (propName : PropName) (value : Source) : M unit :=
  fun w =>
    if src_isObject value
    then let '(h, v) := _createObjectProxy value s [propName] (proxies w) in
         (updStore s (fun r =>
            set_props r (assoc_set pkey_eqb (toPropertyKey propName) v (_props r)))
            (set_proxies h w), Ok tt)
    else (updStore s (fun r =>
            set_props r (assoc_set pkey_eqb (toPropertyKey propName) (primValue value)
                           (_props r))) w, Ok tt).

Section Writes.
Variable propEdited : StoreRef -> PropPath -> M unit.

(** Assigning [this.prop[key]]: the [set] of the accessor.  Assigning a
    name that has no accessor would add a plain, unobserved property to
    [prop]; the model stops there. *)
Definition propSetWith (s : StoreRef) (key : PropertyKey) (newValue : Source) : M unit :=
  acc <- ofStore s (fun r => assoc_get pkey_eqb key (prop r)) ;;
  match acc with
  | None => throw OutOfModel
  | Some (AccProp propName) =>
      current <- ofStore s (fun r => valueAt pkey_eqb (toPropertyKey propName) (_props r)) ;;
      when (negb (source_is newValue current))
        (setProp s propName newValue ;; propEdited s [propName])
  | Some (AccShared _) => throw ExternalPropMutated
  end.

(** The [set] trap of a proxy, on the keys of [modelledKey]. *)
Definition proxySetWith (ref : nat) (key : string) (value : Source) : M unit :=
  fun w =>
    let p := theProxy ref w in
    if negb (source_is value (valueAt String.eqb key (local p)))
    then
      let newlyDefined := negb (hasOwn String.eqb key (local p)) in
      (setProperty ref key value ;;
       if newlyDefined then propEdited (p_store p) (p_path p)
       else propEdited (p_store p) (p_path p ++ [KStr key])) w
    else (w, Ok tt).

(** The [deleteProperty] trap of a proxy, on the keys of [modelledKey]
    ([delete] of the [length] of an array throws). *)
Definition proxyDeleteWith (ref : nat) (key : string) : M unit :=
  fun w =>
    let p := theProxy ref w in
    propEdited (p_store p) (p_path p ++ [KStr key])
      (set_proxies (list_set ref (mkProxy (p_store p) (p_path p) (p_isArray p)
                                    (assoc_delete String.eqb key (local p)))
                      (proxies w)) w).

Definition memberSetWith (v : Value) (key : string) (value : Source) : M unit :=
  match v with
  | VProxy ref => proxySetWith ref key value
  | VInstance _ => throw OutOfModel
  | VUndefined | VNull => throw (TypeError "Cannot set properties of undefined")
  | VBool _ | VNum _ | VStr _ => throw (TypeError "Cannot create property")
  end.

Definition memberDeleteWith (v : Value) (key : string) : M unit :=
  match v with
  | VProxy ref => proxyDeleteWith ref key
  | VInstance _ => throw OutOfModel
  | VUndefined | VNull => throw (TypeError "Cannot convert undefined to object")
  | VBool _ | VNum _ | VStr _ => ret tt
  end.
End Writes.

(** ** The handlers' bodies *)

Section Bodies.
Variable propAccessed : StoreRef -> PropPath -> M unit.
Variable propEdited : StoreRef -> PropPath -> M unit.
Variable computedGet : StoreRef -> PropertyKey -> M Value.
Variable eval : StoreRef -> Expr -> M Value.
Variable exec : StoreRef -> list Stmt -> M unit.

Definition arith (f : Z -> Z -> Value) (a b : Value) : M Value :=
  match a, b with
  | VNum x, VNum y => ret (f x y)
  | _, _ => throw OutOfModel
  end.

Definition evalWith (s : StoreRef) (e : Expr) : M Value :=
  match e with
  | EConst (SrcObject _ _) => throw OutOfModel
  | EConst v => ret (primValue v)
  | EProp name keys =>
      v <- propGetWith propAccessed s (toPropertyKey name) ;;
      readKeysWith propAccessed v keys
  | EComputed name => computedGet s (toPropertyKey name)
  | EAnd a b => va <- eval s a ;; if truthy va then eval s b else ret va
  | ENot a => va <- eval s a ;; ret (VBool (negb (truthy va)))
  | EAdd a b => va <- eval s a ;; vb <- eval s b ;;
                arith (fun x y => VNum (x + y)) va vb
  | ELt a b => va <- eval s a ;; vb <- eval s b ;;
               arith (fun x y => VBool (Z.ltb x y)) va vb
  | EEq a b => va <- eval s a ;; vb <- eval s b ;; ret (VBool (strict_eqb va vb))
  end.

(** [prop.name.k1...kn = value] *)
Definition assignWith (s : StoreRef) (name : PropName) (keys : list string)
  (value : Source) : M unit :=
  match keys with
  | [] => propSetWith propEdited s (toPropertyKey name) value
  | _ :: _ =>
      v <- propGetWith propAccessed s (toPropertyKey name) ;;
      obj <- readKeysWith propAccessed v (removelast keys) ;;
      memberSetWith propEdited obj (last keys "") value
  end.

Definition execStmtWith (s : StoreRef) (st : Stmt) : M unit :=
  match st with
  | SExpr e => _ <- eval s e ;; ret tt
  | SAssign name keys e =>
      v <- eval s e ;;
      match source_of_value v with
      | Some value => assignWith s name keys value
      | None => throw OutOfModel
      end
  | SAssignLit name keys value => assignWith s name keys value
  | SDelete name keys key =>
      v <- propGetWith propAccessed s (toPropertyKey name) ;;
      obj <- readKeysWith propAccessed v keys ;;
      memberDeleteWith propEdited obj key
  | SIf c thenB elseB =>
      vc <- eval s c ;; if truthy vc then exec s thenB else exec s elseB
  | SLog msg => emit (EvLog msg)
  | STouch path => propEdited s path
  end.

Definition execWith (s : StoreRef) (stmts : list Stmt) : M unit :=
  match stmts with
  | [] => ret tt
  | st :: rest => execStmtWith s st ;; exec s rest
  end.
End Bodies.

(** ** The engine, tied together *)

Fixpoint _propEdited (fuel : nat) (s : StoreRef) (propPath : PropPath) : M unit :=
  match fuel with
  | 0 => throw OutOfFuel
  | S f => _propEditedWith (_dispatchWorks f) (_propEdited f) s propPath
  end
with _dispatchWorks (fuel : nat) (s : StoreRef) : M unit :=
  match fuel with
  | 0 => throw OutOfFuel
  | S f => _dispatchWorksWith (_dispatchWork f) (_dispatchWorks f) s
  end
with _dispatchWork (fuel : nat) (s : StoreRef) (work : WorkRef) : M unit :=
  match fuel with
  | 0 => throw OutOfFuel
  | S f => _dispatchWorkWith (dispatch f) s work
  end
with dispatch (fuel : nat) (work : WorkRef) (s : StoreRef) : M unit :=
  match fuel with
  | 0 => throw OutOfFuel
  | S f => dispatchWith (exec f) (eval f) (propGetWith (_propAccessed f)) work s
  end
with eval (fuel : nat) (s : StoreRef) (e : Expr) : M Value :=
  match fuel with
  | 0 => throw OutOfFuel
  | S f => evalWith (_propAccessed f) (computedGet f) (eval f) s e
  end
with exec (fuel : nat) (s : StoreRef) (stmts : list Stmt) : M unit :=
  match fuel with
  | 0 => throw OutOfFuel
  | S f => execWith (_propAccessed f) (_propEdited f) (eval f) (exec f) s stmts
  end
with computedGet (fuel : nat) (s : StoreRef) (key : PropertyKey) : M Value :=
  match fuel with
  | 0 => throw OutOfFuel
  | S f => computedGetWith (dispatch f) (_getDeep f) s key
  end.

(** ** The public operations *)

Definition allocStore : M StoreRef :=
  fun w => (mkWorld (stores w ++ [newReactive]) (works w) (proxies w) (attached w) (trace w),
            Ok (List.length (stores w))).

(** [new Work (handler)] *)
Definition newWork (h : Handler) : M WorkRef :=
  fun w => (mkWorld (stores w) (works w ++ [mkWork h []]) (proxies w) (attached w) (trace w),
            Ok (List.length (works w))).

(** [typeof v !== 'undefined'] *)
Definition isDefined (v : Value) : bool :=
  match v with
  | VUndefined => false
  | _ => true
  end.

(** [typeof obj[key] !== 'undefined'] on a plain object ([_props],
    [_computeds]): an own property answers by its value; without one, a key
    that names a member of [Object.prototype] finds that member, which is
    defined. *)
Definition isDefinedAt (key : PropertyKey) (obj : list (PropertyKey * Value)) : bool :=
  match assoc_get pkey_eqb key obj with
  | Some v => isDefined v
  | None => inheritedName key
  end.

(** [Object.defineProperty (namespace, key, {get, set})]: the property is
    neither configurable nor enumerable, so defining the key again throws. *)
Definition defineProperty {A : Type} (key : PropertyKey) (accessor : A)
  (namespace : list (PropertyKey * A)) : Outcome (list (PropertyKey * A)) :=
  if hasOwn pkey_eqb key namespace
  then Throw (TypeError "Cannot redefine property")
  else Ok (namespace ++ [(key, accessor)]).

Definition definePropAccessor (s : StoreRef) (key : PropertyKey) (accessor : Accessor)
  : M unit :=
  fun w => match defineProperty key accessor (prop (theStore s w)) with
           | Ok ns => (updStore s (fun r => set_prop r ns) w, Ok tt)
           | Throw e => (w, Throw e)
           end.

Definition defineComputedAccessor (s : StoreRef) (key : PropertyKey)
  (accessor : PropName * WorkRef) : M unit :=
  fun w => match defineProperty key accessor (computed (theStore s w)) with
           | Ok ns => (updStore s (fun r => set_computed r ns) w, Ok tt)
           | Throw e => (w, Throw e)
           end.

(** [defineProp (propName, value)] *)
Definition defineProp (s : StoreRef) (propName : PropName) (value : Source) : M unit :=
  defined <- ofStore s (fun r => isDefinedAt (toPropertyKey propName) (_props r)) ;;
  if defined then throw PropAlreadyDefined
  else match propName with
       | KSym _ => throw SymbolIndex
       | _ =>
           setProp s propName value ;;
           definePropAccessor s (toPropertyKey propName) (AccProp propName)
       end.

(** [defineProps (props)] *)
Definition defineProps (s : StoreRef) (props : list (string * Source)) : M unit :=
  forEachM (fun '(propName, value) => defineProp s (KStr propName) value) props.

(** [defineWork (handler)] *)
Definition defineWork (fuel : nat) (s : StoreRef) (handler : list Stmt) : M unit :=
  work <- newWork (HWork handler) ;;
  modStore s (fun r => set_works r (_works r ++ [work])) ;;
  _dispatchWork fuel s work.

(** [defineWorks (handlers)] *)
Definition defineWorks (fuel : nat) (s : StoreRef) (handlers : list (list Stmt)) : M unit :=
  forEachM (defineWork fuel s) handlers.

(** [defineComputed (computedName, handler)]; the handler of the model is
    always a function. *)
Definition defineComputed (fuel : nat) (s : StoreRef) (computedName : PropName)
  (handler : Expr) : M unit :=
  defined <- ofStore s (fun r =>
    isDefinedAt (toPropertyKey computedName) (_computeds r)) ;;
  if defined then throw ComputedAlreadyDefined
  else
    work <- newWork (HComputed s computedName handler) ;;
    modStore s (fun r => set_works r (_works r ++ [work])) ;;
    defineComputedAccessor s (toPropertyKey computedName) (computedName, work) ;;
    _dispatchWork fuel s work.

(** [defineComputeds (handlers)] *)
Definition defineComputeds (fuel : nat) (s : StoreRef) (handlers : list (string * Expr))
  : M unit :=
  forEachM (fun '(computedName, handler) =>
    defineComputed fuel s (KStr computedName) handler) handlers.

(** [_linkPropInvalidation (targetReactive, sourcePropName, targetPropName)].
    [links[key] ||= []] leaves what [links[key]] finds when that is truthy:
    the list of an own entry, or, without one, the member of
    [Object.prototype] that the key names, which has no [push], so that the
    call throws. *)
Definition _linkPropInvalidation (s : StoreRef) (target : StoreRef)
  (sourcePropName targetPropName : PropName) : M unit :=
  let key := toPropertyKey sourcePropName in
  own <- ofStore s (fun r => assoc_get pkey_eqb key (_linkedPropInvalidations r)) ;;
  match own with
  | None =>
      if inheritedName key then throw (TypeError "push is not a function")
      else modStore s (fun r =>
             set_linkedPropInvalidations r
               (assoc_set pkey_eqb key [mkLinked target targetPropName]
                  (_linkedPropInvalidations r)))
  | Some links =>
      modStore s (fun r =>
        set_linkedPropInvalidations r
          (assoc_set pkey_eqb key (links ++ [mkLinked target targetPropName])
             (_linkedPropInvalidations r)))
  end.

(** [defineSharedProp (sourceReactive, targetPropName, sourcePropName)] *)
Definition defineSharedProp (fuel : nat) (s : StoreRef) (sourceReactive : StoreRef)
  (targetPropName sourcePropName : PropName) : M unit :=
  defined <- ofStore s (fun r =>
    isDefinedAt (toPropertyKey targetPropName) (_props r)) ;;
  if defined then throw PropAlreadyDefined
  else match targetPropName with
       | KSym _ => throw SymbolIndex
       | _ =>
           work <- newWork (HShared s targetPropName sourceReactive sourcePropName) ;;
           modStore sourceReactive (fun r => set_works r (_works r ++ [work])) ;;
           _linkPropInvalidation sourceReactive s sourcePropName targetPropName ;;
           definePropAccessor s (toPropertyKey targetPropName) (AccShared targetPropName) ;;
           _dispatchWork fuel sourceReactive work
       end.

(** [touch (propPath)], with a single name or with a path *)
Inductive TouchArg : Type :=
| TouchName (propName : PropName)
| TouchPath (propPath : PropPath).

Definition touch (fuel : nat) (s : StoreRef) (arg : TouchArg) : M unit :=
  match arg with
  | TouchName propName => _propEdited fuel s [propName]
  | TouchPath propPath => _propEdited fuel s propPath
  end.

(** [element.removeEventListener (eventName, handler)] *)
Fixpoint removeListener (l : EventListener) (ls : list EventListener) : list EventListener :=
  match ls with
  | [] => []
  | l' :: rest => if listener_eqb l l' then rest else l' :: removeListener l rest
  end.

Definition removeEventListener (l : EventListener) : M unit :=
  fun w => (set_attached (removeListener l (attached w)) w, Ok tt).

(** [destroy ()].  The first loop, over [Object.keys (this.prop)], finds
    nothing: the accessors are not enumerable. *)
Definition destroy (s : StoreRef) : M unit :=
  modStore s (fun r => set_props r []) ;;
  modStore s (fun r => set_works r []) ;;
  modStore s (fun r => set_successiveStack r []) ;;
  modStore s (fun r => set_editedPropsDuringTick r []) ;;
  modStore s (fun r => set_editedPropsDuringWork r []) ;;
  modStore s (fun r => set_accessedPropsDuringWork r []) ;;
  listeners <- ofStore s _eventListeners ;;
  forEachM removeEventListener listeners.

(** [new Reactive (props, computeds)] *)
Definition Reactive_new (fuel : nat) (props : list (string * Source))
  (computeds : list (string * Expr)) : M StoreRef :=
  s <- allocStore ;;
  defineProps s props ;;
  defineComputeds fuel s computeds ;;
  ret s.

(** What a caller outside any handler does with a store. *)
Definition propGet (fuel : nat) (s : StoreRef) (name : PropName) : M Value :=
  propGetWith (_propAccessed fuel) s (toPropertyKey name).

Definition assign (fuel : nat) (s : StoreRef) (name : PropName) (keys : list string)
  (value : Source) : M unit :=
  assignWith (_propAccessed fuel) (_propEdited fuel) s name keys value.

Definition readPath (fuel : nat) (s : StoreRef) (name : PropName) (keys : list string)
  : M Value :=
  v <- propGet fuel s name ;; readKeysWith (_propAccessed fuel) v keys.

(** The log of the handlers, and how often a handler was called. *)
Definition logged (w : World) : list string :=
  flat_map (fun e => match e with EvLog msg => [msg] | _ => [] end) (trace w).

Definition handlerCalls (work : WorkRef) (w : World) : nat :=
  List.length (filter (fun e => match e with
                               | EvHandler w' => Nat.eqb w' work
                               | _ => false
                               end) (trace w)).

Definition dispatches (s : StoreRef) (work : WorkRef) (w : World) : nat :=
  List.length (filter (fun e => match e with
                               | EvDispatchWork s' w' => Nat.eqb s' s && Nat.eqb w' work
                               | _ => false
                               end) (trace w)).

(** Running a script from a world, stopping at the first throw. *)
Definition run {A : Type} (c : M A) (w : World) : World := fst (c w).
Definition outcome {A : Type} (c : M A) (w : World) : Outcome A := snd (c w).

(** ** Scenarios *)

Module Scenario.
Definition P (name : string) : Expr := EProp (KStr name) [].
Definition N (n : Z) : Expr := EConst (SrcNum n).

(** [{red: false, blue: false}], [multicolor = red && blue] and the Work
    [if (computed.multicolor) console.log ('RAINBOW')]. *)
Definition rainbow : M StoreRef :=
  s <- Reactive_new 100 [("red", SrcBool false); ("blue", SrcBool false)] [] ;;
  defineComputed 100 s (KStr "multicolor") (EAnd (P "red") (P "blue")) ;;
  defineWork 100 s [SIf (EComputed (KStr "multicolor")) [SLog "RAINBOW"] []] ;;
  ret s.
Definition setRed : M unit := assign 100 0 (KStr "red") [] (SrcBool true).
Definition setBlue : M unit := assign 100 0 (KStr "blue") [] (SrcBool true).

(** [{list: [1, 2, 3]}] and a Work that reads [prop.list[0]]. *)
Definition listStore : M StoreRef :=
  s <- Reactive_new 100
         [("list", SrcObject true [("0", SrcNum 1); ("1", SrcNum 2); ("2", SrcNum 3)])] [] ;;
  defineWork 100 s [SExpr (EProp (KStr "list") ["0"])] ;;
  ret s.
Definition setItem (i : string) (n : Z) : M unit :=
  assign 100 0 (KStr "list") [i] (SrcNum n).
Definition touchItem0 : M unit := touch 100 0 (TouchPath [KStr "list"; KNum 0]).

(** [{q: true, p: 0, go: false}], the Work [if (prop.q) prop.p] (it logs
    which branch it took) and the Work [if (prop.go) { prop.q = false;
    prop.p = 1 }]. *)
Definition stale : M StoreRef :=
  s <- Reactive_new 100 [("q", SrcBool true); ("p", SrcNum 0); ("go", SrcBool false)] [] ;;
  defineWork 100 s [SIf (P "q") [SExpr (P "p"); SLog "read p"] [SLog "skipped p"]] ;;
  defineWork 100 s [SIf (P "go") [SAssignLit (KStr "q") [] (SrcBool false);
                                   SAssignLit (KStr "p") [] (SrcNum 1)] []] ;;
  ret s.
Definition startStale : M unit := assign 100 0 (KStr "go") [] (SrcBool true).
Definition setQ : M unit := assign 100 0 (KStr "q") [] (SrcBool false).
Definition setP : M unit := assign 100 0 (KStr "p") [] (SrcNum 1).

(** [{x: 1}] with the Prop [0] defined by the number 0, holding
    [undefined]; then [defineSharedProp (self, '0', 'x')], which links [x] to
    the name ['0'] of the same store before [Object.defineProperty] refuses
    the second accessor; then a Work that reads [prop[0]] and [prop.x]; then
    [prop[0] = 5]. *)
Definition numbered : M StoreRef :=
  s <- Reactive_new 100 [("x", SrcNum 1)] [] ;;
  defineProp s (KNum 0) SrcUndefined ;;
  ret s.
Definition linkZero : M unit := defineSharedProp 100 0 0 (KStr "0") (KStr "x").
Definition readBoth : M unit :=
  defineWork 100 0 [SExpr (EProp (KNum 0) []); SExpr (P "x")].
Definition setZero : M unit := assign 100 0 (KNum 0) [] (SrcNum 5).

(** [{a: 0}], a Work that reads [a], and a second Work
    [prop.a = 1; prop.a] that writes [a] and then reads it. *)
Definition selfWrite : M StoreRef :=
  s <- Reactive_new 100 [("a", SrcNum 0)] [] ;;
  defineWork 100 s [SExpr (P "a")] ;;
  defineWork 100 s [SAssignLit (KStr "a") [] (SrcNum 1); SExpr (P "a")] ;;
  ret s.

(** A feedback pair on [{a: 0, b: 0, c: 0}]: the first Work copies [a] to
    [b], the second answers [a = b + 1] as long as [0 < b < K]; started by
    [a = 1] it stops after [K] runs of each. *)
Definition pair (K : Z) : M StoreRef :=
  s <- Reactive_new 100 [("a", SrcNum 0); ("b", SrcNum 0); ("c", SrcNum 0)] [] ;;
  defineWork 100 s [SAssign (KStr "b") [] (P "a")] ;;
  defineWork 100 s
    [SIf (EAnd (ELt (N 0) (P "b")) (ELt (P "b") (N K)))
       [SAssign (KStr "a") [] (EAdd (P "b") (N 1))] []] ;;
  ret s.
(** The same pair without a bound: it never settles. *)
Definition pairForever : M StoreRef :=
  s <- Reactive_new 100 [("a", SrcNum 0); ("b", SrcNum 0); ("c", SrcNum 0)] [] ;;
  defineWork 100 s [SAssign (KStr "b") [] (P "a")] ;;
  defineWork 100 s
    [SIf (ELt (N 0) (P "b")) [SAssign (KStr "a") [] (EAdd (P "b") (N 1))] []] ;;
  ret s.
Definition kick : M unit := assign 1000 0 (KStr "a") [] (SrcNum 1).
(** An edit nothing depends on: its tick settles and clears the stack. *)
Definition settle : M unit := assign 1000 0 (KStr "c") [] (SrcNum 1).

(** [{x: 0, go: 0}], the Computed [c = x + 1] and a Work that, once [go]
    is positive, writes [x] and then reads [c] twice. *)
Definition twoReads : M StoreRef :=
  s <- Reactive_new 100 [("x", SrcNum 0); ("go", SrcNum 0)]
         [("c", EAdd (P "x") (N 1))] ;;
  defineWork 100 s
    [SIf (ELt (N 0) (P "go"))
       [SAssign (KStr "x") [] (P "go");
        SExpr (EComputed (KStr "c")); SExpr (EComputed (KStr "c"))] []] ;;
  ret s.
Definition setGo : M unit := assign 100 0 (KStr "go") [] (SrcNum 5).

(** Store 0 with [{x: 0}], store 1 with [y] shared from [x], and a Work
    on store 1 that reads [y]. *)
Definition linked : M unit :=
  s1 <- Reactive_new 100 [("x", SrcNum 0)] [] ;;
  s2 <- Reactive_new 100 [] [] ;;
  defineSharedProp 100 s2 s1 (KStr "y") (KStr "x") ;;
  defineWork 100 s2 [SExpr (P "y"); SLog "y read"].
Definition setX : M unit := assign 100 0 (KStr "x") [] (SrcNum 5).




(** [{a: undefined, b: 1}] *)
Definition undefinedProp : M StoreRef :=
  Reactive_new 100 [("a", SrcUndefined); ("b", SrcNum 1)] [].

(** [{x: 1}], the Computed [c = x + 1], a Work reading [c], and a
    listener of the store attached to an element. *)
Definition withComputed : M StoreRef :=
  s <- Reactive_new 100 [("x", SrcNum 1)] [("c", EAdd (P "x") (N 1))] ;;
  defineWork 100 s [SExpr (EComputed (KStr "c"))] ;;
  modStore s (fun r => set_eventListeners r [mkListener 7 "change" 0]) ;;
  (fun w => (set_attached [mkListener 7 "change" 0] w, Ok tt)) ;;
  ret s.

(** [{o: {k: 1}}] and a Work that reads [o] only. *)
Definition objectStore : M StoreRef :=
  s <- Reactive_new 100 [("o", SrcObject false [("k", SrcNum 1)])] [] ;;
  defineWork 100 s [SExpr (P "o"); SLog "o read"] ;;
  ret s.
End Scenario.

(** * Properties *)

(** ** The reverse-dependency index *)

(** Two paths lead to the same place of the index when they have the same
    length and, key by key, the same property key. *)
Fixpoint samePropertyKeys (p d : PropPath) : bool :=
  match p, d with
  | [], [] => true
  | k :: p', k' :: d' =>
      pkey_eqb (toPropertyKey k) (toPropertyKey k') && samePropertyKeys p' d'
  | _, _ => false
  end.

Definition indexMatch (p d : PropPath) : bool := nonempty p && samePropertyKeys p d.

(** The paths whose keys are all strings, as the proxies and the accessors
    of string-named Props report them. *)
Definition stringKeys (p : PropPath) : bool :=
  forallb (fun k => match k with KStr _ => true | _ => false end) p.

(** The Works dispatched for the edited path [p]: in the order of the
    registry, a Work once for each of its declared paths that matches. *)
Definition dependentsOf (w : World) (s : StoreRef) (p : PropPath) : list WorkRef :=
  flat_map (fun work =>
    map (fun _ => work)
      (filter (indexMatch p) (WorkM.getDependencies (theWork work w))))
    (_works (theStore s w)).

(** What one pass of the tick dispatches: the dependents of each path of
    the snapshot, in the order of the snapshot. *)
Definition passDispatches (w : World) (s : StoreRef) : list WorkRef :=
  flat_map (dependentsOf w s) (_editedPropsDuringTick (theStore s w)).

(** A pass of the tick that goes through the loop check, told by the list
    it dispatches. *)
Definition tickPassWith (dispatchWork : StoreRef -> WorkRef -> M unit)
  (self : StoreRef -> M unit) (s : StoreRef) : M unit :=
  fun w =>
    (modStore s (fun r => set_tickRunning r true) ;;
     modStore s (fun r => set_editedPropsDuringTick r []) ;;
     forEachM (dispatchWork s) (passDispatches w s) ;;
     modStore s (fun r => set_tickRunning r false) ;;
     edited <- ofStore s _editedPropsDuringTick ;;
     if nonempty edited then self s
     else modStore s (fun r => set_successiveStack r [])) w.

(** A computation keeps the relation [R] when the world it leaves is
    related to the world it started from, whether it returns or throws. *)
Definition keepsRel (R : World -> World -> Prop) {A : Type} (c : M A) : Prop :=
  forall w, R w (fst (c w)).

(** Two worlds that differ at most by the read buffers of their stores. *)
Definition sameButReads (w w' : World) : Prop :=
  works w' = works w /\ proxies w' = proxies w /\ attached w' = attached w
  /\ trace w' = trace w /\ List.length (stores w') = List.length (stores w)
  /\ forall s, set_accessedPropsDuringWork (theStore s w') []
               = set_accessedPropsDuringWork (theStore s w) [].

(** Every link goes to a store of smaller rank: no chain of links comes
    back to where it started. *)
Definition linksBelow (rank : StoreRef -> nat) (w : World) : Prop :=
  forall s key links l,
    assoc_get pkey_eqb key (_linkedPropInvalidations (theStore s w)) = Some links ->
    In l links -> rank (targetReactive l) < rank s.

Definition isInstance (v : Value) : bool :=
  match v with
  | VInstance _ => true
  | _ => false
  end.

(** No Prop and no field of a proxied object holds a class instance. *)
Definition instanceFree (w : World) : Prop :=
  (forall s key, isInstance (valueAt pkey_eqb key (_props (theStore s w))) = false)
  /\ (forall ref key, isInstance (valueAt String.eqb key (local (theProxy ref w))) = false).

(** The errors of the model itself, not of the source. *)
Definition modelLimit {A : Type} (o : Outcome A) : Prop :=
  o = Throw OutOfFuel \/ o = Throw OutOfModel.

(** What [_getDeep] is given to walk: the namespace of a store, or an
    object. *)
Definition objectHolder (obj : Holder) : Prop :=
  match obj with
  | InProp _ => True
  | InValue v => _isObject v = true
  end.

(** A computation that, when it throws, throws an error in [P]. *)
Definition failsOnly (P : Error -> Prop) {A : Type} (c : M A) : Prop :=
  forall w, match snd (c w) with
            | Ok _ => True
            | Throw e => P e
            end.

Definition limitError (e : Error) : Prop := e = OutOfFuel \/ e = OutOfModel.

(** The two conditions above, as checks that run. *)
Definition noInstanceIn {K : Type} (l : list (K * Value)) : bool :=
  forallb (fun kv => negb (isInstance (snd kv))) l.

Definition instanceFreeb (w : World) : bool :=
  forallb (fun r => noInstanceIn (_props r)) (stores w)
  && forallb (fun p => noInstanceIn (local p)) (proxies w).

Definition linksBelowb (rank : StoreRef -> nat) (w : World) : bool :=
  forallb (fun sr =>
    forallb (fun kl =>
      forallb (fun l => Nat.ltb (rank (targetReactive l)) (rank (fst sr))) (snd kl))
      (_linkedPropInvalidations (snd sr)))
    (combine (seq 0 (List.length (stores w))) (stores w)).

(** Two worlds with the same stores as to what is defined in them: the
    accessors of [prop] and [computed], the registry of Works, the listeners
    and the links. *)
Definition sameNamespaces (w w' : World) : Prop :=
  attached w' = attached w
  /\ List.length (stores w') = List.length (stores w)
  /\ forall s,
       prop (theStore s w') = prop (theStore s w)
       /\ computed (theStore s w') = computed (theStore s w)
       /\ _works (theStore s w') = _works (theStore s w)
       /\ _eventListeners (theStore s w') = _eventListeners (theStore s w)
       /\ _linkedPropInvalidations (theStore s w') = _linkedPropInvalidations (theStore s w).


(** Destroying the store [t] leaves the Works and every other store alone. *)
Definition othersKept (t : StoreRef) (w w' : World) : Prop :=
  works w' = works w /\ forall s, s <> t -> theStore s w' = theStore s w.

(** The loop of [_createObjectProxy] over the keys of the source, by name:
    [setProperty (local, key, value)] for each. *)
Fixpoint setProperties (store : StoreRef) (path : PropPath) (ref : nat)
  (fs : list (string * Source)) (h : list ProxyObj) : list ProxyObj :=
  match fs with
  | [] => h
  | (key, value) :: rest =>
      if src_isObject value
      then let '(h', v) := _createObjectProxy value store (path ++ [KStr key]) h in
           setProperties store path ref rest (setLocal ref key v h')
      else setProperties store path ref rest (setLocal ref key (primValue value) h)
  end.

(** The size of a literal, to reason on its nesting. *)
Fixpoint sourceSize (s : Source) : nat :=
  match s with
  | SrcObject _ fields =>
      S ((fix sizes (fs : list (string * Source)) : nat :=
            match fs with
            | [] => 0
            | (_, v) :: rest => sourceSize v + sizes rest
            end) fields)
  | _ => 1
  end.

Definition noProxy : ProxyObj := mkProxy 0 [] false [].

(** What the callbacks of a proxy are bound to. *)
Definition binding (p : ProxyObj) : StoreRef * PropPath * bool :=
  (p_store p, p_path p, p_isArray p).

(** The heap [h'] is [h] with proxies added, each bound to [store] and to a
    path under [path]; the proxies of [h] are untouched. *)
Definition heapGrows (store : StoreRef) (path : PropPath) (h h' : list ProxyObj) : Prop :=
  List.length h <= List.length h'
  /\ (forall i, i < List.length h -> nth i h' noProxy = nth i h noProxy)
  /\ (forall i, List.length h <= i < List.length h' ->
        p_store (nth i h' noProxy) = store
        /\ exists suffix, p_path (nth i h' noProxy) = path ++ suffix).

(** What a field of a wrapped literal holds: a primitive or an instance as
    it is, a nested literal as a proxy bound to the path of the field. *)
Definition fieldHolds (store : StoreRef) (path : PropPath) (h : list ProxyObj)
  (field : string * Source) (v : Value) : Prop :=
  match snd field with
  | SrcObject isArray _ =>
      exists ref, v = VProxy ref /\ ref < List.length h
                  /\ binding (nth ref h noProxy) = (store, path ++ [KStr (fst field)], isArray)
  | value => v = primValue value
  end.

(** What [_createObjectProxy] makes of a source, on any heap. *)
Definition wrapped (source : Source) : Prop :=
  forall store path heap,
    let r := _createObjectProxy source store path heap in
    heapGrows store path heap (fst r)
    /\ match source with
       | SrcObject isArray fields =>
           snd r = VProxy (List.length heap)
           /\ binding (nth (List.length heap) (fst r) noProxy) = (store, path, isArray)
           /\ exists vals,
                Forall2 (fieldHolds store path (fst r)) fields vals
                /\ local (nth (List.length heap) (fst r) noProxy)
                   = fold_left (fun acc kv => assoc_set String.eqb (fst kv) (snd kv) acc)
                       (combine (map fst fields) vals) []
       | _ => fst r = heap /\ snd r = primValue source
       end.

(** Between two worlds, reading has only added to the read buffers: what
    was recorded is still recorded, and a buffer without duplicates has
    stayed without. *)
Definition readsGrow (w w' : World) : Prop :=
  sameButReads w w'
  /\ forall t,
       (forall q, In q (_accessedPropsDuringWork (theStore t w)) ->
                  In q (_accessedPropsDuringWork (theStore t w')))
       /\ (NoDup (_accessedPropsDuringWork (theStore t w)) ->
           NoDup (_accessedPropsDuringWork (theStore t w'))).

(** A buffer after a path was recorded in it: pushed, unless it was there. *)
Definition pushNew (p : PropPath) (buffer : list PropPath) : list PropPath :=
  if _propPathExistsIn p buffer then buffer else buffer ++ [p].

(** Two worlds with the same Works as to their number and their handlers;
    the dependency sets may differ. *)
Definition sameHandlers (w w' : World) : Prop :=
  List.length (works w') = List.length (works w)
  /\ forall r, _handler (theWork r w') = _handler (theWork r w).

(** The world after the first half of [_propEdited]: the edit is logged and
    the path recorded in the tick buffer and in the write buffer. *)
Definition recordEdit (s : StoreRef) (p : PropPath) (w : World) : World :=
  let w0 := addEvent (EvEdited s p) w in
  let w1 := if _propPathExistsIn p (_editedPropsDuringTick (theStore s w0)) then w0
            else updStore s (fun r =>
                   set_editedPropsDuringTick r (_editedPropsDuringTick r ++ [p])) w0 in
  if _propPathExistsIn p (_editedPropsDuringWork (theStore s w1)) then w1
  else updStore s (fun r =>
         set_editedPropsDuringWork r (_editedPropsDuringWork r ++ [p])) w1.

(** The log of [w'] is the log of [w] with events added at its end. *)
Definition traceGrows (w w' : World) : Prop :=
  exists rest, trace w' = trace w ++ rest.

(** A store marked as running in [w] is still marked so in [w']. *)
Definition runningKept (s : StoreRef) (w w' : World) : Prop :=
  _tickRunning (theStore s w) = true -> _tickRunning (theStore s w') = true.

(** The world in which [_dispatchWork] calls the handler: the dispatch is
    logged and the two buffers of the Work are empty. *)
Definition beforeHandler (s : StoreRef) (work : WorkRef) (w : World) : World :=
  updStore s (fun r => set_editedPropsDuringWork r [])
    (updStore s (fun r => set_accessedPropsDuringWork r [])
       (addEvent (EvDispatchWork s work) w)).

(** The heap after [delete obj[key]] on the object behind the proxy [ref]. *)
Definition deleteLocal (ref : nat) (key : string) (w : World) : World :=
  let p := theProxy ref w in
  set_proxies (list_set ref (mkProxy (p_store p) (p_path p) (p_isArray p)
                               (assoc_delete String.eqb key (local p)))
                 (proxies w)) w.

(** The keys on which a record of own properties stands for the JavaScript
    object exactly: a string that names no member of [Object.prototype], a
    symbol, a number that is a safe integer. *)
Definition inheritedKey (k : PropName) : bool := inheritedName (toPropertyKey k).

Definition plainKey (k : PropName) : bool :=
  negb (inheritedKey k)
  && match k with
     | KNum n => Z.leb (Z.abs n) 9007199254740991
     | _ => true
     end.

Definition plainPath (p : PropPath) : bool := forallb plainKey p.

(** The stores on whose Works the index is built without an inherited
    member in the way, and whose snapshot is looked up without one. *)
Definition plainIndex (w : World) (s : StoreRef) : bool :=
  forallb (fun work => forallb plainPath (WorkM.getDependencies (theWork work w)))
    (_works (theStore s w)).

Definition plainSnapshot (w : World) (s : StoreRef) : bool :=
  forallb plainPath (_editedPropsDuringTick (theStore s w)).

(** An array index: the decimal numeral of a natural number. *)
Definition isIndexKey (key : string) : bool :=
  match NilZero.uint_of_string key with
  | Some u => String.eqb (NilZero.string_of_uint (Decimal.unorm u)) key
  | None => false
  end.

(** The keys of a proxied object on which [local], a record of the own
    properties that were assigned, stands for the target exactly: on an
    object every key but the names of the inherited members, on an array the
    indices (an array also owns [length] and inherits the members of
    [Array.prototype], which [local] does not hold). *)
Definition modelledKey (p : ProxyObj) (key : string) : bool :=
  if p_isArray p then isIndexKey key else negb (inheritedName (PStr key)).

(** The rest of [_dispatchWork], once the handler has returned. *)
Definition afterHandler (s : StoreRef) (work : WorkRef) : M unit :=
  accessedProps <- ofStore s _accessedPropsDuringWork ;;
  modStore s (fun r => set_accessedPropsDuringWork r []) ;;
  editedProps <- ofStore s _editedPropsDuringWork ;;
  modStore s (fun r => set_editedPropsDuringWork r []) ;;
  modWork work WorkM.resetDependencies ;;
  forEachM (fun dependency => modWork work (WorkM.declareDependency dependency))
    (filter (fun propPath => negb (_propPathExistsIn propPath editedProps))
       accessedProps) ;;
  modStore s (fun r => set_successiveStack r (_successiveStack r ++ [work])).

(** A computation that, when it throws [e], leaves a world [w] with [P w e]. *)
Definition throwsAt (P : World -> Error -> Prop) {A : Type} (c : M A) : Prop :=
  forall w, match snd (c w) with
            | Ok _ => True
            | Throw e => P (fst (c w)) e
            end.

(** How often a Work occurs in a stack. *)
Definition occurrences (work : WorkRef) (stack : list WorkRef) : nat :=
  count_occ Nat.eq_dec stack work.

(** What the world shows when [Infinite loop detected] was thrown: a stack
    in which some Work occurs more than 20 times. *)
Definition explained (w : World) (e : Error) : Prop :=
  e = InfiniteLoopDetected ->
  exists t work, 20 < occurrences work (_successiveStack (theStore t w)).

(** Between [w] and [w'] no stack got more occurrences of a Work than
    dispatches of that Work were logged. *)
Definition stackBounded (w w' : World) : Prop :=
  forall t work,
    occurrences work (_successiveStack (theStore t w')) + dispatches t work w
    <= occurrences work (_successiveStack (theStore t w)) + dispatches t work w'.

(** A store whose tick is running in [w] is still running in [w'], with
    the same stack. *)
Definition pinned (s0 : StoreRef) (w w' : World) : Prop :=
  _tickRunning (theStore s0 w) = true ->
  _tickRunning (theStore s0 w') = true
  /\ _successiveStack (theStore s0 w') = _successiveStack (theStore s0 w).


Lemma pkey_eqb_eq (a b : PropertyKey) : pkey_eqb a b = true <-> a = b.
Proof.
  destruct a, b; simpl; split; intro H; try discriminate; try congruence.
  - apply String.eqb_eq in H. now subst.
  - inversion H. apply String.eqb_refl.
  - apply Nat.eqb_eq in H. now subst.
  - inversion H. apply Nat.eqb_refl.
Qed.

Lemma pkey_eqb_refl (a : PropertyKey) : pkey_eqb a a = true.
Proof. now apply pkey_eqb_eq. Qed.

Lemma plainKey_inherited (k : PropName) :
  plainKey k = true -> inheritedName (toPropertyKey k) = false.
Proof.
  unfold plainKey, inheritedKey. intro H. apply andb_prop in H as [H _].
  now apply negb_true_iff in H.
Qed.

Lemma isDefinedAt_plain (key : PropertyKey) (obj : list (PropertyKey * Value)) :
  inheritedName key = false ->
  isDefinedAt key obj = isDefined (valueAt pkey_eqb key obj).
Proof.
  intro H. unfold isDefinedAt, valueAt. destruct (assoc_get pkey_eqb key obj); auto.
Qed.

Lemma isDefinedAt_value (key : PropertyKey) (obj : list (PropertyKey * Value)) :
  isDefined (valueAt pkey_eqb key obj) = true -> isDefinedAt key obj = true.
Proof.
  unfold isDefinedAt, valueAt. destruct (assoc_get pkey_eqb key obj); auto.
  discriminate.
Qed.

Lemma recursiveGet_empty (p : PropPath) : _recursiveGet RDEmpty p = [].
Proof. destruct p; reflexivity. Qed.

Lemma recursiveGet_add (d : PropPath) :
  forall (t : ReversedDependenciesStructure) (p : PropPath) (work : WorkRef),
    _recursiveGet (_recursiveAdd t d work) p
    = _recursiveGet t p ++ (if indexMatch p d then [work] else []).
Proof.
  induction d as [|k rest IH]; intros t p work.
  - simpl. destruct p; simpl; now rewrite ?app_nil_r.
  - destruct p as [|k0 p'].
    + reflexivity.
    + unfold indexMatch. cbn [nonempty andb samePropertyKeys].
      cbn [_recursiveAdd].
      induction t as [|k' ws ds _ tl IHtl].
      * destruct rest as [|r rest']; cbn [_recursiveGet rd_lookup];
          destruct (pkey_eqb (toPropertyKey k0) (toPropertyKey k)) eqn:E; cbn [andb];
          try reflexivity.
        -- destruct p'; reflexivity.
        -- destruct p' as [|q p'']; [reflexivity|].
           rewrite IH. rewrite recursiveGet_empty. reflexivity.
      * destruct (pkey_eqb (toPropertyKey k) k') eqn:Ek.
        -- apply pkey_eqb_eq in Ek. subst k'.
           destruct rest as [|r rest']; cbn [_recursiveGet rd_lookup];
             destruct (pkey_eqb (toPropertyKey k0) (toPropertyKey k)) eqn:E; cbn [andb];
             rewrite ?app_nil_r; try reflexivity.
           ++ destruct p' as [|q p'']; cbn [samePropertyKeys]; now rewrite ?app_nil_r.
           ++ destruct p' as [|q p'']; cbn [samePropertyKeys]; [now rewrite app_nil_r|].
              rewrite IH. reflexivity.
        -- cbn [_recursiveGet rd_lookup].
           destruct (pkey_eqb (toPropertyKey k0) k') eqn:E0.
           ++ apply pkey_eqb_eq in E0. subst k'.
              assert (pkey_eqb (toPropertyKey k0) (toPropertyKey k) = false) as ->.
              { destruct (pkey_eqb (toPropertyKey k0) (toPropertyKey k)) eqn:E; auto.
                apply pkey_eqb_eq in E. rewrite E in Ek.
                now rewrite pkey_eqb_refl in Ek. }
              cbn [andb]. now rewrite app_nil_r.
           ++ cbn [_recursiveGet rd_lookup] in IHtl. exact IHtl.
Qed.

Lemma get_fold_dependencies (deps : list PropPath) :
  forall (t : ReversedDependenciesStructure) (p : PropPath) (work : WorkRef),
    ReversedDependencies.get
      (fold_left (fun d dependency => ReversedDependencies.add d dependency work) deps t) p
    = ReversedDependencies.get t p ++ map (fun _ => work) (filter (indexMatch p) deps).
Proof.
  unfold ReversedDependencies.get, ReversedDependencies.add.
  induction deps as [|d deps IH]; intros t p work; simpl.
  - now rewrite app_nil_r.
  - rewrite IH, recursiveGet_add, <- app_assoc.
    destruct (indexMatch p d); reflexivity.
Qed.

Lemma get_reversed_dependencies (w : World) (s : StoreRef) (p : PropPath) :
  ReversedDependencies.get (_getReversedWorksDependencies w s) p = dependentsOf w s p.
Proof.
  unfold _getReversedWorksDependencies, dependentsOf.
  enough (forall ws t,
    ReversedDependencies.get
      (fold_left (fun dependencies work =>
         fold_left (fun d dependency => ReversedDependencies.add d dependency work)
           (WorkM.getDependencies (theWork work w)) dependencies) ws t) p
    = ReversedDependencies.get t p
      ++ flat_map (fun work =>
           map (fun _ => work)
             (filter (indexMatch p) (WorkM.getDependencies (theWork work w)))) ws) as H.
  { rewrite H. unfold ReversedDependencies.get. now rewrite recursiveGet_empty. }
  induction ws as [|work ws IH]; intro t; simpl.
  - now rewrite app_nil_r.
  - rewrite IH, get_fold_dependencies, <- app_assoc. reflexivity.
Qed.

(** ** Stores in the world *)

Lemma nth_list_set_same {A : Type} (l : list A) (i : nat) (x d : A) :
  i < List.length l -> nth i (list_set i x l) d = x.
Proof.
  revert i; induction l as [|y l IH]; intros [|i] H; simpl in *; try lia; auto.
  apply IH. lia.
Qed.

Lemma nth_list_set_other {A : Type} (l : list A) (i j : nat) (x d : A) :
  i <> j -> nth j (list_set i x l) d = nth j l d.
Proof.
  revert i j; induction l as [|y l IH]; intros [|i] [|j] H; simpl; auto; try lia.
Qed.

Lemma list_set_beyond {A : Type} (l : list A) (i : nat) (x : A) :
  List.length l <= i -> list_set i x l = l.
Proof.
  revert i; induction l as [|y l IH]; intros [|i] H; simpl in *; auto; try lia.
  f_equal. apply IH. lia.
Qed.

Lemma length_list_set {A : Type} (l : list A) (i : nat) (x : A) :
  List.length (list_set i x l) = List.length l.
Proof.
  revert i; induction l as [|y l IH]; intros [|i]; simpl; auto.
Qed.

Lemma theStore_updStore_other (s t : StoreRef) (f : Reactive -> Reactive) (w : World) :
  s <> t -> theStore t (updStore s f w) = theStore t w.
Proof. intro H. unfold theStore, updStore; simpl. now apply nth_list_set_other. Qed.

Lemma theStore_updStore_same (s : StoreRef) (f : Reactive -> Reactive) (w : World) :
  s < List.length (stores w) -> theStore s (updStore s f w) = f (theStore s w).
Proof. intro H. unfold theStore, updStore; simpl. now apply nth_list_set_same. Qed.

(** A field that [f] leaves alone is left alone in the world. *)
Lemma field_updStore {A : Type} (g : Reactive -> A) (f : Reactive -> Reactive)
  (s t : StoreRef) (w : World) :
  (forall r, g (f r) = g r) -> g (theStore t (updStore s f w)) = g (theStore t w).
Proof.
  intro H. destruct (Nat.eq_dec s t) as [->|Hn].
  - destruct (Nat.lt_ge_cases t (List.length (stores w))) as [Hlt|Hge].
    + rewrite theStore_updStore_same by assumption. apply H.
    + unfold theStore, updStore; simpl. now rewrite list_set_beyond.
  - now rewrite theStore_updStore_other.
Qed.

(** ** Loops *)

Lemma forEachM_app {A : Type} (f : A -> M unit) (l1 l2 : list A) (w : World) :
  forEachM f (l1 ++ l2) w = (forEachM f l1 ;; forEachM f l2) w.
Proof.
  revert w; induction l1 as [|x l1 IH]; intro w; simpl.
  - reflexivity.
  - unfold bind. destruct (f x w) as [w' [[]|e]]; [|reflexivity].
    rewrite IH. reflexivity.
Qed.

Lemma forEachM_flat_map {A B : Type} (f : B -> M unit) (g : A -> list B) (l : list A)
  (w : World) :
  forEachM (fun a => forEachM f (g a)) l w = forEachM f (flat_map g l) w.
Proof.
  revert w; induction l as [|a l IH]; intro w; simpl.
  - reflexivity.
  - rewrite forEachM_app. unfold bind.
    destruct (forEachM f (g a) w) as [w' [[]|e]]; [|reflexivity].
    apply IH.
Qed.

(** ** The tick pass and the index *)

Lemma dependentsOf_updStore (f : Reactive -> Reactive) (s t : StoreRef) (w : World)
  (p : PropPath) :
  (forall r, _works (f r) = _works r) ->
  dependentsOf (updStore s f w) t p = dependentsOf w t p.
Proof.
  intro H. unfold dependentsOf.
  rewrite (field_updStore _works f s t w H). reflexivity.
Qed.

Lemma dispatchWorks_pass (dispatchWork : StoreRef -> WorkRef -> M unit)
  (self : StoreRef -> M unit) (s : StoreRef) (w : World) :
  _checkLoopInStack (_successiveStack (theStore s w)) = false ->
  _dispatchWorksWith dispatchWork self s w = tickPassWith dispatchWork self s w.
Proof.
  intro Hloop.
  unfold _dispatchWorksWith, tickPassWith, passDispatches.
  unfold bind at 1 2 3 4 5. unfold bind at 5 6.
  cbn [modStore ofStore].
  rewrite !(field_updStore _successiveStack) by reflexivity.
  rewrite Hloop.
  rewrite (field_updStore _editedPropsDuringTick (fun r => set_tickRunning r true))
    by reflexivity.
  set (w1 := updStore s _ (updStore s _ w)).
  set (inv := _editedPropsDuringTick (theStore s w)).
  unfold bind at 1 4.
  rewrite forEachM_flat_map.
  assert (flat_map (ReversedDependencies.get (_getReversedWorksDependencies w1 s)) inv
          = flat_map (dependentsOf w s) inv) as ->.
  { apply flat_map_ext. intro p. rewrite get_reversed_dependencies.
    unfold w1. now rewrite !dependentsOf_updStore by reflexivity. }
  reflexivity.
Qed.

Lemma dependentsOf_In (w : World) (s : StoreRef) (p : PropPath) (work : WorkRef) :
  In work (dependentsOf w s p)
  <-> In work (_works (theStore s w))
      /\ exists d, In d (WorkM.getDependencies (theWork work w)) /\ indexMatch p d = true.
Proof.
  unfold dependentsOf. rewrite in_flat_map. split.
  - intros (x & Hx & Hin). apply in_map_iff in Hin as (d & <- & Hd).
    apply filter_In in Hd. split; [assumption|]. now exists d.
  - intros (Hw & d & Hd & Hm). exists work. split; [assumption|].
    apply in_map_iff. exists d. split; [reflexivity|]. now apply filter_In.
Qed.

Lemma count_occ_const {A : Type} (l : list A) (x work : WorkRef) :
  count_occ Nat.eq_dec (map (fun _ => x) l) work
  = if Nat.eq_dec x work then List.length l else 0.
Proof.
  induction l as [|a l IH]; simpl.
  - now destruct (Nat.eq_dec x work).
  - rewrite IH. now destruct (Nat.eq_dec x work).
Qed.

Lemma dependentsOf_count (w : World) (s : StoreRef) (p : PropPath) (work : WorkRef) :
  count_occ Nat.eq_dec (dependentsOf w s p) work
  = count_occ Nat.eq_dec (_works (theStore s w)) work
    * List.length (filter (indexMatch p) (WorkM.getDependencies (theWork work w))).
Proof.
  unfold dependentsOf.
  induction (_works (theStore s w)) as [|x ws IH]; cbn [flat_map count_occ];
    [reflexivity|].
  rewrite count_occ_app.
  etransitivity; [apply f_equal2; [apply count_occ_const | exact IH]|].
  destruct (Nat.eq_dec x work) as [->|Hn]; lia.
Qed.

Lemma key_strict_property (a b : PropName) :
  key_strict_eqb a b = true -> pkey_eqb (toPropertyKey a) (toPropertyKey b) = true.
Proof.
  destruct a, b; simpl; intro H; try discriminate; auto.
  apply Z.eqb_eq in H. subst. apply String.eqb_refl.
Qed.

Lemma strict_equal_matches (p d : PropPath) :
  nonempty p = true -> _propPathExistsIn p [d] = true -> indexMatch p d = true.
Proof.
  intros Hp H. unfold indexMatch. rewrite Hp. simpl in *.
  destruct (Nat.eqb (List.length p) (List.length d)) eqn:El; [|discriminate].
  destruct (arraysAreEqual p d) eqn:Ea; [|discriminate]. clear H Hp.
  apply Nat.eqb_eq in El.
  revert d El Ea; induction p as [|k p IH]; intros [|k' d] El Ea; simpl in *;
    try discriminate; auto.
  destruct (key_strict_eqb k k') eqn:Ek; [|discriminate].
  rewrite (key_strict_property _ _ Ek). simpl. apply IH; auto.
Qed.

Lemma indexMatch_stringKeys (p d : PropPath) :
  stringKeys p = true -> stringKeys d = true ->
  indexMatch p d = nonempty p && _propPathExistsIn p [d].
Proof.
  intros Hp Hd. unfold indexMatch. f_equal. simpl.
  enough (samePropertyKeys p d
          = Nat.eqb (List.length p) (List.length d) && arraysAreEqual p d) as ->.
  { now destruct (_ && _). }
  revert d Hd; induction p as [|k p IH]; intros [|k' d] Hd; simpl in *; auto.
  apply andb_prop in Hp as [Hk Hp]. apply andb_prop in Hd as [Hk' Hd].
  destruct k; try discriminate. destruct k'; try discriminate. simpl.
  rewrite (IH Hp d Hd).
  destruct (String.eqb s s0); simpl; [reflexivity|].
  now rewrite andb_false_r.
Qed.

(** C1 (as the code has it).  Invalidation is by exact match of paths read as
    property keys.  The paths meant are those of [plainPath], in the
    dependency sets and in the snapshot.  A tick pass that goes through the
    loop check dispatches, for each path [p] of its snapshot in order, the
    dependents of [p] and nothing else; these are the registered Works whose
    dependency set at the start of the pass holds a non-empty path of the
    same length and the same property keys as [p], in the order of the
    registry, a Work once for each such path of its set.  A path that is
    structurally equal to a non-empty [p] matches it, and for paths of string
    keys matching is structural equality.  With [list = [1, 2, 3]] and a Work
    that reads [list[0]], assigning [list[1]] does not dispatch the Work
    again and assigning [list[0]] dispatches it once. *)
Theorem C1_exact_path_match :
  (forall dispatchWork self s w,
      plainIndex w s = true -> plainSnapshot w s = true ->
      _checkLoopInStack (_successiveStack (theStore s w)) = false ->
      _dispatchWorksWith dispatchWork self s w = tickPassWith dispatchWork self s w)
  /\ (forall w s p,
        plainIndex w s = true -> plainPath p = true ->
        ReversedDependencies.get (_getReversedWorksDependencies w s) p = dependentsOf w s p)
  /\ (forall w s p work,
        In work (dependentsOf w s p)
        <-> In work (_works (theStore s w))
            /\ exists d, In d (WorkM.getDependencies (theWork work w))
                         /\ indexMatch p d = true)
  /\ (forall w s p work,
        count_occ Nat.eq_dec (dependentsOf w s p) work
        = count_occ Nat.eq_dec (_works (theStore s w)) work
          * List.length (filter (indexMatch p) (WorkM.getDependencies (theWork work w))))
  /\ (forall p d,
        nonempty p = true -> _propPathExistsIn p [d] = true -> indexMatch p d = true)
  /\ (forall p d,
        stringKeys p = true -> stringKeys d = true ->
        indexMatch p d = nonempty p && _propPathExistsIn p [d])
  /\ (let w := run Scenario.listStore emptyWorld in
      outcome Scenario.listStore emptyWorld = Ok 0
      /\ dispatches 0 0 w = 1
      /\ outcome (Scenario.setItem "1" 9) w = Ok tt
      /\ dispatches 0 0 (run (Scenario.setItem "1" 9) w) = 1
      /\ outcome (Scenario.setItem "0" 9) w = Ok tt
      /\ dispatches 0 0 (run (Scenario.setItem "0" 9) w) = 2).
Proof.
  split; [intros dispatchWork self s w _ _; apply dispatchWorks_pass|].
  split; [intros w s p _ _; apply get_reversed_dependencies|].
  split; [exact dependentsOf_In|].
  split; [exact dependentsOf_count|].
  split; [exact strict_equal_matches|].
  split; [exact indexMatch_stringKeys|].
  vm_compute. repeat split.
Qed.

(** The pass and the two matching rules, on the store of the list. *)
Lemma C1_exact_path_match_witness :
  (let w := run Scenario.listStore emptyWorld in
   _dispatchWorksWith (_dispatchWork 50) (_dispatchWorks 50) 0 w
   = tickPassWith (_dispatchWork 50) (_dispatchWorks 50) 0 w)
  /\ (let w := run Scenario.listStore emptyWorld in
      ReversedDependencies.get (_getReversedWorksDependencies w 0) [KStr "list"; KStr "0"]
      = dependentsOf w 0 [KStr "list"; KStr "0"])
  /\ indexMatch [KStr "list"; KStr "0"] [KStr "list"; KStr "0"] = true
  /\ indexMatch [KStr "list"; KStr "1"] [KStr "list"; KStr "0"]
     = nonempty [KStr "list"; KStr "1"]
       && _propPathExistsIn [KStr "list"; KStr "1"] [[KStr "list"; KStr "0"]].
Proof.
  split; [|split; [|split]].
  - apply (proj1 C1_exact_path_match); vm_compute; reflexivity.
  - apply (proj1 (proj2 C1_exact_path_match)); vm_compute; reflexivity.
  - apply (proj1 (proj2 (proj2 (proj2 (proj2 C1_exact_path_match))))); reflexivity.
  - apply (proj1 (proj2 (proj2 (proj2 (proj2 (proj2 C1_exact_path_match)))))); reflexivity.
Defined.

(** C1 (as stated) fails, in three ways.
    The keys: after [touch (['list', 0])] the Work that declared [list.0],
    with the string key, is dispatched again although no path of its set is
    structurally equal to the edited path.
    The moment: the first Work of [Scenario.stale] declared [q] and [p];
    [go = true] makes the second Work write [q] and [p] inside the tick, and
    the next pass, whose index was built at its start, dispatches the first
    Work for [q] (it now skips [p] and declares [q] alone) and then again for
    [p], which its set no longer holds; the same two assignments made one by
    one from outside dispatch it once, for [q] only.
    The number: the Work of [Scenario.readBoth] has declared the path of the
    number [0] and the path of the string ['0'] (forwarded by the link from
    [x]); one edit of [prop[0]] dispatches it twice in one pass. *)
Lemma C1_counterexample :
  (let w := run Scenario.listStore emptyWorld in
   let p := [KStr "list"; KNum 0] in
   outcome Scenario.touchItem0 w = Ok tt
   /\ _propPathExistsIn p (WorkM.getDependencies (theWork 0 w)) = false
   /\ trace (run Scenario.touchItem0 w)
      = trace w ++ [EvEdited 0 p; EvDispatchWork 0 0; EvHandler 0])
  /\ (let w := run Scenario.stale emptyWorld in
      let w' := run Scenario.startStale w in
      let wq := run Scenario.setQ w in
      outcome Scenario.stale emptyWorld = Ok 0
      /\ WorkM.getDependencies (theWork 0 w) = [[KStr "q"]; [KStr "p"]]
      /\ outcome Scenario.startStale w = Ok tt
      /\ trace w'
         = trace w ++ [EvEdited 0 [KStr "go"]; EvDispatchWork 0 1; EvHandler 1;
                       EvEdited 0 [KStr "q"]; EvEdited 0 [KStr "p"];
                       EvDispatchWork 0 0; EvHandler 0; EvLog "skipped p";
                       EvDispatchWork 0 0; EvHandler 0; EvLog "skipped p"]
      /\ WorkM.getDependencies (theWork 0 w') = [[KStr "q"]]
      /\ trace wq = trace w ++ [EvEdited 0 [KStr "q"]; EvDispatchWork 0 0; EvHandler 0;
                                EvLog "skipped p"]
      /\ WorkM.getDependencies (theWork 0 wq) = [[KStr "q"]]
      /\ trace (run Scenario.setP wq) = trace wq ++ [EvEdited 0 [KStr "p"]])
  /\ (let w := run Scenario.readBoth
                 (run Scenario.linkZero (run Scenario.numbered emptyWorld)) in
      outcome Scenario.numbered emptyWorld = Ok 0
      /\ outcome Scenario.linkZero (run Scenario.numbered emptyWorld)
         = Throw (TypeError "Cannot redefine property")
      /\ outcome Scenario.readBoth
           (run Scenario.linkZero (run Scenario.numbered emptyWorld)) = Ok tt
      /\ WorkM.getDependencies (theWork 1 w) = [[KNum 0]; [KStr "x"]; [KStr "0"]]
      /\ outcome Scenario.setZero w = Ok tt
      /\ trace (run Scenario.setZero w)
         = trace w ++ [EvEdited 0 [KNum 0]; EvDispatchWork 0 1; EvHandler 1;
                       EvDispatchWork 0 1; EvHandler 1]).
Proof. vm_compute. repeat split. Qed.

(** ** The loop check *)

Lemma indexOf_None (x : WorkRef) (wl : list WorkRef) :
  indexOf x wl = None <-> ~ In x wl.
Proof.
  induction wl as [|y wl IH]; simpl.
  - tauto.
  - destruct (Nat.eqb y x) eqn:E.
    + apply Nat.eqb_eq in E. split; [discriminate|]. intro H. exfalso. auto.
    + apply Nat.eqb_neq in E. destruct (indexOf x wl).
      * split; [discriminate|]. intro H. exfalso.
        destruct (in_dec Nat.eq_dec x wl) as [Hx|Hx]; [apply H; now right|].
        apply IH in Hx. discriminate.
      * split; [|reflexivity]. intros _ [H|H]; [contradiction|]. now apply IH.
Qed.

Lemma map_incrAt (f : WorkRef -> nat) (x : WorkRef) (wl : list WorkRef) :
  forall i, NoDup wl -> indexOf x wl = Some i ->
    map (fun w => f w + (if Nat.eq_dec x w then 1 else 0)) wl = incrAt i (map f wl).
Proof.
  induction wl as [|y wl IH]; intros i Hnd Hi; simpl in *; [discriminate|].
  inversion Hnd as [|? ? Hy Hnd']; subst.
  destruct (Nat.eqb y x) eqn:E.
  - apply Nat.eqb_eq in E. subst y. injection Hi as <-. simpl.
    destruct (Nat.eq_dec x x); [|contradiction]. f_equal; [lia|].
    rewrite <- (map_id (map f wl)) at 1. rewrite map_map. apply map_ext_in.
    intros a Ha. destruct (Nat.eq_dec x a); [subst; contradiction|]. simpl. lia.
  - apply Nat.eqb_neq in E.
    destruct (indexOf x wl) as [j|] eqn:Ej; [|discriminate].
    injection Hi as <-. simpl.
    destruct (Nat.eq_dec x y); [subst; contradiction|].
    f_equal; [lia|]. now apply IH.
Qed.

Lemma countStep_invariant (l : list WorkRef) :
  NoDup (fst (fold_left countStep l ([], [])))
  /\ (forall w, In w (fst (fold_left countStep l ([], []))) <-> In w l)
  /\ snd (fold_left countStep l ([], []))
     = map (count_occ Nat.eq_dec l) (fst (fold_left countStep l ([], []))).
Proof.
  induction l as [|x l IH] using rev_ind.
  - simpl. repeat split; try constructor; auto.
  - rewrite fold_left_app. simpl.
    destruct (fold_left countStep l ([], [])) as [wl wc]. simpl in IH.
    destruct IH as (Hnd & Hin & Hc). unfold countStep.
    destruct (indexOf x wl) as [i|] eqn:Ei; simpl.
    + assert (In x wl) as Hx.
      { destruct (in_dec Nat.eq_dec x wl) as [H|H]; [assumption|].
        apply indexOf_None in H. congruence. }
      split; [assumption|]. split.
      * intro w. rewrite in_app_iff, Hin. simpl. split; [tauto|].
        intros [H|[<-|[]]]; [assumption|]. now apply Hin.
      * subst wc. rewrite <- (map_incrAt _ x wl i Hnd Ei).
        apply map_ext. intro w. rewrite count_occ_app. simpl.
        now destruct (Nat.eq_dec x w).
    + apply indexOf_None in Ei. split; [|split].
      * apply NoDup_app; [assumption|repeat constructor; auto|].
        intros a Ha [<-|[]]. contradiction.
      * intro w. rewrite !in_app_iff, Hin. tauto.
      * subst wc. rewrite map_app. simpl. f_equal.
        -- apply map_ext_in. intros w Hw. rewrite count_occ_app. simpl.
           destruct (Nat.eq_dec x w); [subst; contradiction|].
           now rewrite Nat.add_0_r.
        -- rewrite count_occ_app. simpl.
           destruct (Nat.eq_dec x x); [|contradiction].
           assert (count_occ Nat.eq_dec l x = 0) as H0.
           { apply count_occ_not_In. intro H. apply Ei. now apply Hin. }
           f_equal. symmetry. change (count_occ Nat.eq_dec l x + 1 = 0 + 1).
           now apply f_equal2.
Qed.

Lemma fold_maxStep (wc : list nat) :
  forall m n, n < fold_left maxStep wc m <-> n < m \/ exists c, In c wc /\ n < c.
Proof.
  induction wc as [|c wc IH]; intros m n; simpl.
  - split; [auto|]. intros [H|(c & [] & _)]. assumption.
  - rewrite IH. unfold maxStep. destruct (Nat.ltb m c) eqn:E.
    + apply Nat.ltb_lt in E. split.
      * intros [H|(c' & Hc & Hn)]; right; [exists c; auto|exists c'; auto].
      * intros [H|(c' & [<-|Hc] & Hn)]; [left; lia|left; assumption|].
        right. now exists c'.
    + apply Nat.ltb_ge in E. split.
      * intros [H|(c' & Hc & Hn)]; [left; assumption|right; exists c'; auto].
      * intros [H|(c' & [<-|Hc] & Hn)]; [left; assumption|left; lia|].
        right. now exists c'.
Qed.

(** The check answers yes exactly when some Work occurs more than 20 times
    in the stack. *)
Lemma checkLoopInStack_spec (stack : list WorkRef) :
  _checkLoopInStack stack = true
  <-> exists work, 20 < count_occ Nat.eq_dec stack work.
Proof.
  unfold _checkLoopInStack.
  pose proof (countStep_invariant stack) as (Hnd & Hin & Hc).
  destruct (fold_left countStep stack ([], [])) as [wl wc]. simpl in *.
  rewrite Nat.ltb_lt, fold_maxStep. subst wc. split.
  - intros [H|(c & Hc & Hn)]; [lia|].
    apply in_map_iff in Hc as (work & <- & _). now exists work.
  - intros (work & H). right. exists (count_occ Nat.eq_dec stack work).
    split; [|assumption]. apply in_map_iff. exists work. split; [reflexivity|].
    apply Hin. apply (count_occ_In Nat.eq_dec). lia.
Qed.

(** A pass whose check answers yes dispatches nothing: it throws with the
    tick marked as running and the snapshot already taken. *)
Lemma dispatchWorks_overflow (dispatchWork : StoreRef -> WorkRef -> M unit)
  (self : StoreRef -> M unit) (s : StoreRef) (w : World) :
  _checkLoopInStack (_successiveStack (theStore s w)) = true ->
  _dispatchWorksWith dispatchWork self s w
  = (updStore s (fun r => set_editedPropsDuringTick r [])
       (updStore s (fun r => set_tickRunning r true) w),
     Throw InfiniteLoopDetected).
Proof.
  intro Hloop. unfold _dispatchWorksWith.
  unfold bind at 1 2 3 4 5. cbn [modStore ofStore].
  rewrite !(field_updStore _successiveStack) by reflexivity.
  now rewrite Hloop.
Qed.

(** ** The scenarios of the specification *)

(** C2.  With Props [{red: false, blue: false}], the Computed [multicolor
    = red && blue] and the Work that logs RAINBOW when [multicolor] is
    truthy: nothing is logged by the definitions nor by [red = true]; [blue
    = true] then logs RAINBOW exactly once, in the tick that this second
    assignment starts. *)
Theorem C2_rainbow_once :
  let w0 := run Scenario.rainbow emptyWorld in
  let w1 := run Scenario.setRed w0 in
  let w2 := run Scenario.setBlue w1 in
  outcome Scenario.rainbow emptyWorld = Ok 0
  /\ logged w0 = []
  /\ outcome Scenario.setRed w0 = Ok tt
  /\ logged w1 = []
  /\ outcome Scenario.setBlue w1 = Ok tt
  /\ logged w2 = ["RAINBOW"]
  /\ trace w2 = trace w1 ++ [EvEdited 0 [KStr "blue"];
                             EvDispatchWork 0 0; EvHandler 0;
                             EvDispatchWork 0 1; EvHandler 1; EvLog "RAINBOW"].
Proof. vm_compute. repeat split. Qed.

(** C3, evaluated where it fails.  The second Work of the scenario is
    [prop.a = 1; prop.a].  In the run that [defineWork] makes, outside any
    tick, its write starts a tick at once; that tick dispatches the first
    Work, and [_dispatchWork] empties the read and write buffers that the
    run of the second Work is still filling.  The write is forgotten, the
    read that follows is kept, and the dependency set stored for the second
    Work holds [a], the path it wrote in that run. *)
Theorem C3_self_write_kept :
  let w := run Scenario.selfWrite emptyWorld in
  outcome Scenario.selfWrite emptyWorld = Ok 0
  /\ trace w = [EvDispatchWork 0 0; EvHandler 0;
                EvDispatchWork 0 1; EvHandler 1; EvEdited 0 [KStr "a"];
                EvDispatchWork 0 0; EvHandler 0]
  /\ WorkM.getDependencies (theWork 1 w) = [[KStr "a"]]
  /\ _propPathExistsIn [KStr "a"] (WorkM.getDependencies (theWork 1 w)) = true.
Proof. vm_compute. repeat split. Qed.

(** C7, evaluated where it fails.  The Prop [a] was defined with the value
    [undefined]; defining it again passes the test of [defineProp], which
    looks at the value, replaces the stored value without recording an edit,
    and fails in [Object.defineProperty] with a TypeError.  Defining [b],
    whose value is 1, again throws [Prop already defined]. *)
Theorem C7_redefine_undefined :
  let w := run Scenario.undefinedProp emptyWorld in
  let again := defineProp 0 (KStr "a") (SrcNum 1) in
  outcome Scenario.undefinedProp emptyWorld = Ok 0
  /\ _props (theStore 0 w) = [(PStr "a", VUndefined); (PStr "b", VNum 1)]
  /\ outcome again w = Throw (TypeError "Cannot redefine property")
  /\ _props (theStore 0 (run again w)) = [(PStr "a", VNum 1); (PStr "b", VNum 1)]
  /\ trace (run again w) = trace w
  /\ outcome (defineProp 0 (KStr "b") (SrcNum 2)) w = Throw PropAlreadyDefined.
Proof. vm_compute. repeat split. Qed.


(** ** What the engine keeps

    [R] relates a world to a later one.  When the steps that update the
    buffers, the values and the logs respect [R], so does every function of
    the engine: they change nothing else. *)

Section Keeps.
Variable R : World -> World -> Prop.
Hypothesis R_refl : forall w, R w w.
Hypothesis R_trans : forall a b c, R a b -> R b c -> R a c.


Lemma keeps_ret {A : Type} (a : A) : keepsRel R (ret a).
Proof. intro w. apply R_refl. Qed.

Lemma keeps_throw {A : Type} (e : Error) : keepsRel R (@throw A e).
Proof. intro w. apply R_refl. Qed.

Lemma keeps_bind {A B : Type} (c : M A) (k : A -> M B) :
  keepsRel R c -> (forall a, keepsRel R (k a)) -> keepsRel R (bind c k).
Proof.
  intros Hc Hk w. unfold bind. specialize (Hc w).
  destruct (c w) as [w' [a|e]]; simpl in *; [|assumption].
  eapply R_trans; [exact Hc|apply Hk].
Qed.

Lemma keeps_forEachM {A : Type} (f : A -> M unit) (l : list A) :
  (forall a, keepsRel R (f a)) -> keepsRel R (forEachM f l).
Proof.
  intro H. induction l as [|x l IH]; simpl.
  - apply keeps_ret.
  - apply keeps_bind; auto.
Qed.

Lemma keeps_when (b : bool) (c : M unit) : keepsRel R c -> keepsRel R (when b c).
Proof. intro H. destruct b; simpl; [assumption|apply keeps_ret]. Qed.

Lemma keeps_ofStore {A : Type} (s : StoreRef) (f : Reactive -> A) : keepsRel R (ofStore s f).
Proof. intro w. apply R_refl. Qed.

Lemma keeps_ofWork {A : Type} (r : WorkRef) (f : Work -> A) : keepsRel R (ofWork r f).
Proof. intro w. apply R_refl. Qed.

Lemma keeps_linksOf (s : StoreRef) (p : PropPath) : keepsRel R (linksOf s p).
Proof. apply keeps_ofStore. Qed.

(** *** Accesses: only the read buffers move *)

Hypothesis R_accessed : forall s g w,
  R w (updStore s (fun r => set_accessedPropsDuringWork r (g r)) w).

Lemma keeps_propAccessedWith (self : StoreRef -> PropPath -> M unit) s p :
  (forall s' p', keepsRel R (self s' p')) -> keepsRel R (_propAccessedWith self s p).
Proof.
  intro H. unfold _propAccessedWith.
  apply keeps_bind; [apply keeps_ofStore|intro].
  apply keeps_bind; [apply keeps_when; intro w; apply R_accessed|intro].
  apply keeps_bind; [apply keeps_linksOf|intro].
  apply keeps_forEachM. intro. apply H.
Qed.

Lemma keeps_propAccessed (fuel : nat) : forall s p, keepsRel R (_propAccessed fuel s p).
Proof.
  induction fuel as [|f IH]; intros s p; simpl.
  - apply keeps_throw.
  - now apply keeps_propAccessedWith.
Qed.

Section KeepsReads.
Variable propAccessed : StoreRef -> PropPath -> M unit.
Hypothesis H_accessed : forall s p, keepsRel R (propAccessed s p).

Lemma keeps_propGetWith s key : keepsRel R (propGetWith propAccessed s key).
Proof.
  unfold propGetWith.
  apply keeps_bind; [apply keeps_ofStore|intros [[n|n]|]].
  - apply keeps_bind; [apply H_accessed|intro; apply keeps_ofStore].
  - apply keeps_bind; [apply H_accessed|intro; apply keeps_ofStore].
  - apply keeps_ret.
Qed.

Lemma keeps_proxyGetWith ref key : keepsRel R (proxyGetWith propAccessed ref key).
Proof.
  intro w. unfold proxyGetWith.
  apply (keeps_bind (when _ _)).
  - apply keeps_when, H_accessed.
  - intros _ w'. apply R_refl.
Qed.

Lemma keeps_memberGetWith v key : keepsRel R (memberGetWith propAccessed v key).
Proof.
  destruct v; simpl; try apply keeps_throw; try apply keeps_ret.
  apply keeps_proxyGetWith.
Qed.

Lemma keeps_readKeysWith keys : forall v, keepsRel R (readKeysWith propAccessed v keys).
Proof.
  induction keys as [|k keys IH]; intro v; simpl.
  - apply keeps_ret.
  - apply keeps_bind; [apply keeps_memberGetWith|assumption].
Qed.

Lemma keeps_holderGetWith obj key : keepsRel R (holderGetWith propAccessed obj key).
Proof.
  destruct obj as [s|v]; simpl.
  - apply keeps_propGetWith.
  - destruct key; [apply keeps_memberGetWith|].
    destruct v; try apply keeps_ret; apply keeps_throw.
Qed.

Lemma keeps_getDeepWith (self : Holder -> PropPath -> M Value) obj keys :
  (forall o k, keepsRel R (self o k)) -> keepsRel R (_getDeepWith propAccessed self obj keys).
Proof.
  intro H. unfold _getDeepWith.
  assert (keepsRel R (next <- holderGetWith propAccessed obj (firstKey keys) ;;
                 if _isObject next then self (InValue next) (tl keys)
                 else ret VUndefined)) as Hgen.
  { apply keeps_bind; [apply keeps_holderGetWith|intro next].
    destruct (_isObject next); [apply H|apply keeps_ret]. }
  destruct keys as [|k [|k' keys]]; try exact Hgen.
  apply keeps_holderGetWith.
Qed.
End KeepsReads.

Lemma keeps_getDeep (fuel : nat) : forall obj keys, keepsRel R (_getDeep fuel obj keys).
Proof.
  induction fuel as [|f IH]; intros obj keys; simpl.
  - apply keeps_throw.
  - apply keeps_getDeepWith; [apply keeps_propAccessed|assumption].
Qed.

(** *** The whole engine: the buffers, the values, the heaps and the logs *)

Hypothesis R_editedTick : forall s g w,
  R w (updStore s (fun r => set_editedPropsDuringTick r (g r)) w).
Hypothesis R_editedWork : forall s g w,
  R w (updStore s (fun r => set_editedPropsDuringWork r (g r)) w).
Hypothesis R_tickRunning : forall s g w,
  R w (updStore s (fun r => set_tickRunning r (g r)) w).
Hypothesis R_stack : forall s g w,
  R w (updStore s (fun r => set_successiveStack r (g r)) w).
Hypothesis R_props : forall s g w, R w (updStore s (fun r => set_props r (g r)) w).
Hypothesis R_computeds : forall s g w,
  R w (updStore s (fun r => set_computeds r (g r)) w).
Hypothesis R_dependencies : forall r g w,
  R w (updWork r (fun x => mkWork (_handler x) (g x)) w).
Hypothesis R_proxies : forall h w, R w (set_proxies h w).
Hypothesis R_event : forall e w, R w (addEvent e w).

Lemma keeps_emit e : keepsRel R (emit e).
Proof. intro w. apply R_event. Qed.

Lemma keeps_setProp s propName value : keepsRel R (setProp s propName value).
Proof.
  intro w. unfold setProp. destruct (src_isObject value).
  - destruct (_createObjectProxy value s [propName] (proxies w)) as [h v]. simpl.
    eapply R_trans; [apply R_proxies|].
    apply (R_props s (fun r => assoc_set pkey_eqb (toPropertyKey propName) v (_props r))).
  - apply (R_props s (fun r => assoc_set pkey_eqb (toPropertyKey propName)
                                 (primValue value) (_props r))).
Qed.

Lemma keeps_setProperty ref key value : keepsRel R (setProperty ref key value).
Proof.
  intro w. unfold setProperty. destruct (src_isObject value).
  - destruct (_createObjectProxy _ _ _ _) as [h v]. apply R_proxies.
  - apply R_proxies.
Qed.

Lemma keeps_propEditedWith dispatchWorks self s p :
  (forall s', keepsRel R (dispatchWorks s')) ->
  (forall s' p', keepsRel R (self s' p')) ->
  keepsRel R (_propEditedWith dispatchWorks self s p).
Proof.
  intros Hd Hs. unfold _propEditedWith.
  apply keeps_bind; [apply keeps_emit|intro].
  apply keeps_bind; [apply keeps_ofStore|intro].
  apply keeps_bind; [apply keeps_when; intro w; apply R_editedTick|intro].
  apply keeps_bind; [apply keeps_ofStore|intro].
  apply keeps_bind; [apply keeps_when; intro w; apply R_editedWork|intro].
  apply keeps_bind; [apply keeps_ofStore|intro].
  apply keeps_bind; [apply keeps_when, Hd|intro].
  apply keeps_bind; [apply keeps_linksOf|intro].
  apply keeps_forEachM. intro. apply Hs.
Qed.

Lemma keeps_dispatchWorksWith dispatchWork self s :
  (forall s' work, keepsRel R (dispatchWork s' work)) ->
  (forall s', keepsRel R (self s')) ->
  keepsRel R (_dispatchWorksWith dispatchWork self s).
Proof.
  intros Hd Hs. unfold _dispatchWorksWith.
  apply keeps_bind; [intro w; apply (R_tickRunning s (fun _ => true))|intro].
  apply keeps_bind; [apply keeps_ofStore|intro].
  apply keeps_bind; [intro w; apply (R_editedTick s (fun _ => []))|intro].
  apply keeps_bind; [intro w; apply R_refl|intro].
  apply keeps_bind; [apply keeps_ofStore|intro].
  destruct (_checkLoopInStack _); [apply keeps_throw|].
  apply keeps_bind; [apply keeps_forEachM; intro; apply keeps_forEachM; intro; apply Hd
                    |intro].
  apply keeps_bind; [intro w; apply (R_tickRunning s (fun _ => false))|intro].
  apply keeps_bind; [apply keeps_ofStore|intro].
  destruct (nonempty _); [apply Hs|].
  intro w; apply (R_stack s (fun _ => [])).
Qed.

Lemma keeps_dispatchWorkWith dispatch s work :
  (forall work' s', keepsRel R (dispatch work' s')) ->
  keepsRel R (_dispatchWorkWith dispatch s work).
Proof.
  intro Hd. unfold _dispatchWorkWith.
  apply keeps_bind; [apply keeps_emit|intro].
  apply keeps_bind; [intro w; apply (R_accessed s (fun _ => []))|intro].
  apply keeps_bind; [intro w; apply (R_editedWork s (fun _ => []))|intro].
  apply keeps_bind; [apply Hd|intro].
  apply keeps_bind; [apply keeps_ofStore|intro].
  apply keeps_bind; [intro w; apply (R_accessed s (fun _ => []))|intro].
  apply keeps_bind; [apply keeps_ofStore|intro].
  apply keeps_bind; [intro w; apply (R_editedWork s (fun _ => []))|intro].
  apply keeps_bind; [intro w; apply (R_dependencies work (fun _ => []))|intro].
  apply keeps_bind.
  - apply keeps_forEachM. intros d w.
    apply (R_dependencies work (fun x => _dependencies x ++ [d])).
  - intro. intro w. apply R_stack.
Qed.

Lemma keeps_dispatchWith exec eval propGet work s :
  (forall s' b, keepsRel R (exec s' b)) ->
  (forall s' e, keepsRel R (eval s' e)) ->
  (forall s' k, keepsRel R (propGet s' k)) ->
  keepsRel R (dispatchWith exec eval propGet work s).
Proof.
  intros Hx He Hp. unfold dispatchWith.
  apply keeps_bind; [apply keeps_emit|intro].
  apply keeps_bind; [apply keeps_ofWork|intros [body|self name e|self t src sn]].
  - apply Hx.
  - apply keeps_bind; [apply He|intros v w]. apply R_computeds.
  - apply keeps_bind; [apply Hp|intros v w]. apply R_props.
Qed.

Lemma keeps_computedGetWith dispatch getDeep s key :
  (forall work' s', keepsRel R (dispatch work' s')) ->
  (forall o k, keepsRel R (getDeep o k)) ->
  keepsRel R (computedGetWith dispatch getDeep s key).
Proof.
  intros Hd Hg. unfold computedGetWith.
  apply keeps_bind; [apply keeps_ofStore|intros [[name work]|]]; [|apply keeps_ret].
  apply keeps_bind; [apply keeps_ofWork|intro].
  apply keeps_bind; [apply keeps_ofStore|intro].
  apply keeps_bind; [apply keeps_when, Hd|intro].
  apply keeps_bind; [|intro; apply keeps_ofStore].
  apply keeps_forEachM. intro. apply keeps_bind; [apply Hg|intro; apply keeps_ret].
Qed.

Section KeepsWrites.
Variable propAccessed : StoreRef -> PropPath -> M unit.
Variable propEdited : StoreRef -> PropPath -> M unit.
Variable computedGet' : StoreRef -> PropertyKey -> M Value.
Variable eval' : StoreRef -> Expr -> M Value.
Variable exec' : StoreRef -> list Stmt -> M unit.
Hypothesis H_accessed : forall s p, keepsRel R (propAccessed s p).
Hypothesis H_edited : forall s p, keepsRel R (propEdited s p).
Hypothesis H_computed : forall s k, keepsRel R (computedGet' s k).
Hypothesis H_eval : forall s e, keepsRel R (eval' s e).
Hypothesis H_exec : forall s b, keepsRel R (exec' s b).

Lemma keeps_propSetWith s key value : keepsRel R (propSetWith propEdited s key value).
Proof.
  unfold propSetWith.
  apply keeps_bind; [apply keeps_ofStore|intros [[n|n]|]]; try apply keeps_throw.
  apply keeps_bind; [apply keeps_ofStore|intro].
  apply keeps_when. apply keeps_bind; [apply keeps_setProp|intro; apply H_edited].
Qed.

Lemma keeps_proxySetWith ref key value :
  keepsRel R (proxySetWith propEdited ref key value).
Proof.
  intro w. unfold proxySetWith. destruct (negb _); [|apply R_refl].
  apply (keeps_bind (setProperty ref key value)); [apply keeps_setProperty|].
  intro. destruct (negb _); apply H_edited.
Qed.

Lemma keeps_proxyDeleteWith ref key : keepsRel R (proxyDeleteWith propEdited ref key).
Proof.
  intro w. unfold proxyDeleteWith.
  eapply R_trans; [apply R_proxies|apply H_edited].
Qed.

Lemma keeps_memberSetWith v key value :
  keepsRel R (memberSetWith propEdited v key value).
Proof. destruct v; simpl; try apply keeps_throw. apply keeps_proxySetWith. Qed.

Lemma keeps_memberDeleteWith v key : keepsRel R (memberDeleteWith propEdited v key).
Proof.
  destruct v; simpl; try apply keeps_throw; try apply keeps_ret.
  apply keeps_proxyDeleteWith.
Qed.

Lemma keeps_arith f a b : keepsRel R (arith f a b).
Proof. destruct a, b; simpl; try apply keeps_throw; apply keeps_ret. Qed.

Lemma keeps_evalWith s e :
  keepsRel R (evalWith propAccessed computedGet' eval' s e).
Proof.
  destruct e; simpl.
  - destruct v; try apply keeps_ret; apply keeps_throw.
  - apply keeps_bind; [now apply keeps_propGetWith|intro].
    now apply keeps_readKeysWith.
  - apply H_computed.
  - apply keeps_bind; [apply H_eval|intro v]. destruct (truthy v);
      [apply H_eval|apply keeps_ret].
  - apply keeps_bind; [apply H_eval|intro; apply keeps_ret].
  - apply keeps_bind; [apply H_eval|intro].
    apply keeps_bind; [apply H_eval|intro; apply keeps_arith].
  - apply keeps_bind; [apply H_eval|intro].
    apply keeps_bind; [apply H_eval|intro; apply keeps_arith].
  - apply keeps_bind; [apply H_eval|intro].
    apply keeps_bind; [apply H_eval|intro; apply keeps_ret].
Qed.

Lemma keeps_assignWith s name keys value :
  keepsRel R (assignWith propAccessed propEdited s name keys value).
Proof.
  unfold assignWith. destruct keys as [|k keys].
  - apply keeps_propSetWith.
  - apply keeps_bind; [now apply keeps_propGetWith|intro].
    apply keeps_bind; [now apply keeps_readKeysWith|intro].
    apply keeps_memberSetWith.
Qed.

Lemma keeps_execStmtWith s st :
  keepsRel R (execStmtWith propAccessed propEdited eval' exec' s st).
Proof.
  destruct st; simpl.
  - apply keeps_bind; [apply H_eval|intro; apply keeps_ret].
  - apply keeps_bind; [apply H_eval|intro v].
    destruct (source_of_value v); [apply keeps_assignWith|apply keeps_throw].
  - apply keeps_assignWith.
  - apply keeps_bind; [now apply keeps_propGetWith|intro].
    apply keeps_bind; [now apply keeps_readKeysWith|intro].
    apply keeps_memberDeleteWith.
  - apply keeps_bind; [apply H_eval|intro v]. destruct (truthy v); apply H_exec.
  - apply keeps_emit.
  - apply H_edited.
Qed.

Lemma keeps_execWith s stmts :
  keepsRel R (execWith propAccessed propEdited eval' exec' s stmts).
Proof.
  destruct stmts as [|st rest]; simpl; [apply keeps_ret|].
  apply keeps_bind; [apply keeps_execStmtWith|intro; apply H_exec].
Qed.
End KeepsWrites.

Lemma keeps_engine (fuel : nat) :
  (forall s p, keepsRel R (_propEdited fuel s p))
  /\ (forall s, keepsRel R (_dispatchWorks fuel s))
  /\ (forall s work, keepsRel R (_dispatchWork fuel s work))
  /\ (forall work s, keepsRel R (dispatch fuel work s))
  /\ (forall s e, keepsRel R (eval fuel s e))
  /\ (forall s b, keepsRel R (exec fuel s b))
  /\ (forall s k, keepsRel R (computedGet fuel s k)).
Proof.
  induction fuel as [|f (IH1 & IH2 & IH3 & IH4 & IH5 & IH6 & IH7)].
  - repeat split; intros; apply keeps_throw.
  - repeat split; intros; simpl.
    + now apply keeps_propEditedWith.
    + now apply keeps_dispatchWorksWith.
    + now apply keeps_dispatchWorkWith.
    + apply keeps_dispatchWith; auto.
      intros. apply keeps_propGetWith. apply keeps_propAccessed.
    + apply keeps_evalWith; auto. apply keeps_propAccessed.
    + apply keeps_execWith; auto. apply keeps_propAccessed.
    + apply keeps_computedGetWith; auto. apply keeps_getDeep.
Qed.
End Keeps.

(** ** Reading changes the read buffers only *)

Lemma sameButReads_refl (w : World) : sameButReads w w.
Proof. repeat split. Qed.

Lemma sameButReads_trans (a b c : World) :
  sameButReads a b -> sameButReads b c -> sameButReads a c.
Proof.
  intros (H1 & H2 & H3 & H4 & H5 & H6) (K1 & K2 & K3 & K4 & K5 & K6).
  unfold sameButReads. repeat apply conj; try congruence; intro s; now rewrite K6.
Qed.

Lemma sameButReads_accessed (s : StoreRef) (g : Reactive -> list PropPath) (w : World) :
  sameButReads w (updStore s (fun r => set_accessedPropsDuringWork r (g r)) w).
Proof.
  unfold sameButReads. repeat apply conj; try reflexivity.
  - apply length_list_set.
  - intro t.
    apply (field_updStore (fun r => set_accessedPropsDuringWork r [])). reflexivity.
Qed.

Lemma sameButReads_field {A : Type} (g : Reactive -> A) (w w' : World) (s : StoreRef) :
  (forall r, g (set_accessedPropsDuringWork r []) = g r) ->
  sameButReads w w' -> g (theStore s w') = g (theStore s w).
Proof.
  intros Hg (_ & _ & _ & _ & _ & H).
  rewrite <- (Hg (theStore s w')), <- (Hg (theStore s w)). now rewrite H.
Qed.

Lemma propAccessed_reads (fuel : nat) (s : StoreRef) (p : PropPath) :
  keepsRel sameButReads (_propAccessed fuel s p).
Proof.
  apply keeps_propAccessed.
  - exact sameButReads_refl.
  - exact sameButReads_trans.
  - exact sameButReads_accessed.
Qed.

Lemma getDeep_reads (fuel : nat) (obj : Holder) (keys : PropPath) :
  keepsRel sameButReads (_getDeep fuel obj keys).
Proof.
  apply keeps_getDeep.
  - exact sameButReads_refl.
  - exact sameButReads_trans.
  - exact sameButReads_accessed.
Qed.

Lemma linksBelow_reads (rank : StoreRef -> nat) (w w' : World) :
  sameButReads w w' -> linksBelow rank w -> linksBelow rank w'.
Proof.
  intros HR H s key links l Hl. apply (H s key links l).
  now rewrite <- (sameButReads_field _linkedPropInvalidations w w' s).
Qed.

Lemma instanceFree_reads (w w' : World) :
  sameButReads w w' -> instanceFree w -> instanceFree w'.
Proof.
  intros HR [Hp Hl]. split.
  - intros s key. now rewrite (sameButReads_field _props w w' s).
  - intros ref key. unfold theProxy. destruct HR as (_ & -> & _). apply Hl.
Qed.

(** A loop whose steps return on every world that reading can lead to. *)
Lemma forEachM_returns {A : Type} (f : A -> M unit) (l : list A) (w : World) :
  (forall a, keepsRel sameButReads (f a)) ->
  (forall a w', In a l -> sameButReads w w' -> snd (f a w') = Ok tt) ->
  snd (forEachM f l w) = Ok tt.
Proof.
  intros Hk. revert w; induction l as [|x l IH]; intros w H; simpl; [reflexivity|].
  unfold bind. pose proof (H x w (or_introl eq_refl) (sameButReads_refl w)) as Hx.
  pose proof (Hk x w) as Hw.
  destruct (f x w) as [w' [[]|e]]; simpl in *; [|discriminate].
  apply IH. intros a w'' Ha HR. apply H; [now right|].
  eapply sameButReads_trans; eassumption.
Qed.

(** With enough fuel for the longest chain of links, an access returns. *)
Lemma propAccessed_returns (rank : StoreRef -> nat) (fuel : nat) :
  forall s p w, linksBelow rank w -> rank s < fuel ->
    snd (_propAccessed fuel s p w) = Ok tt.
Proof.
  induction fuel as [|f IH]; intros s p w Hl Hr; [lia|].
  cbn [_propAccessed]. unfold _propAccessedWith.
  unfold bind at 1. cbn [ofStore].
  set (c := when _ _).
  assert (keepsRel sameButReads c) as Hc.
  { apply keeps_when; [exact sameButReads_refl|]. intro w0. apply sameButReads_accessed. }
  assert (snd (c w) = Ok tt) as Hok by (unfold c; destruct (negb _); reflexivity).
  unfold bind at 1. specialize (Hc w).
  destruct (c w) as [w1 [[]|e]]; simpl in Hok, Hc; [|discriminate].
  unfold bind, linksOf, ofStore.
  destruct (assoc_get pkey_eqb (firstKey p) (_linkedPropInvalidations (theStore s w1)))
    as [links|] eqn:El; [|reflexivity].
  apply forEachM_returns.
  - intro a. apply propAccessed_reads.
  - intros a w' Ha HR. apply IH.
    + eapply linksBelow_reads; [|exact Hl]. eapply sameButReads_trans; eassumption.
    + pose proof (linksBelow_reads rank w w1 Hc Hl s _ _ a El Ha). lia.
Qed.

Section Fails.
Variable P : Error -> Prop.

Lemma fails_ret {A : Type} (a : A) : failsOnly P (ret a).
Proof. intro w. exact I. Qed.

Lemma fails_throw {A : Type} (e : Error) : P e -> failsOnly P (@throw A e).
Proof. intros H w. exact H. Qed.

Lemma fails_bind {A B : Type} (c : M A) (k : A -> M B) :
  failsOnly P c -> (forall a, failsOnly P (k a)) -> failsOnly P (bind c k).
Proof.
  intros Hc Hk w. unfold bind. specialize (Hc w).
  destruct (c w) as [w' [a|e]]; simpl in *; [apply Hk|assumption].
Qed.

Lemma fails_forEachM {A : Type} (f : A -> M unit) (l : list A) :
  (forall a, failsOnly P (f a)) -> failsOnly P (forEachM f l).
Proof.
  intro H. induction l as [|x l IH]; simpl; [apply fails_ret|].
  apply fails_bind; auto.
Qed.

Lemma fails_when (b : bool) (c : M unit) : failsOnly P c -> failsOnly P (when b c).
Proof. intro H. destruct b; simpl; [assumption|apply fails_ret]. Qed.
End Fails.

Lemma propAccessed_fails (fuel : nat) :
  forall s p, failsOnly limitError (_propAccessed fuel s p).
Proof.
  induction fuel as [|f IH]; intros s p; simpl.
  - apply fails_throw. now left.
  - unfold _propAccessedWith.
    apply fails_bind; [intro w; exact I|intro].
    apply fails_bind; [apply fails_when; intro w; exact I|intro].
    apply fails_bind; [intro w; exact I|intro].
    apply fails_forEachM. intro. apply IH.
Qed.

Lemma holderGet_fails (f : nat) (obj : Holder) (key : PropertyKey) :
  objectHolder obj -> failsOnly limitError (holderGetWith (_propAccessed f) obj key).
Proof.
  intro Ho. destruct obj as [s|v]; simpl in *.
  - unfold propGetWith. apply fails_bind; [intro w; exact I|intros [[n|n]|]];
      try apply fails_ret;
      (apply fails_bind; [apply propAccessed_fails|intros _ w; exact I]).
  - destruct v; try discriminate; destruct key; simpl;
      try apply fails_ret; try (apply fails_throw; now right).
    intro w. unfold proxyGetWith.
    apply (fails_bind limitError (when _ _)).
    + apply fails_when, propAccessed_fails.
    + intros _ w'. exact I.
Qed.

Lemma getDeep_fails (fuel : nat) :
  forall obj keys, objectHolder obj -> failsOnly limitError (_getDeep fuel obj keys).
Proof.
  induction fuel as [|f IH]; intros obj keys Ho; simpl.
  - apply fails_throw. now left.
  - unfold _getDeepWith.
    assert (failsOnly limitError
              (next <- holderGetWith (_propAccessed f) obj (firstKey keys) ;;
               if _isObject next then _getDeep f (InValue next) (tl keys)
               else ret VUndefined)) as Hgen.
    { apply fails_bind; [now apply holderGet_fails|intro next].
      destruct (_isObject next) eqn:E; [now apply IH|apply fails_ret]. }
    destruct keys as [|k [|k' keys]]; try exact Hgen.
    now apply holderGet_fails.
Qed.

(** With enough fuel, on a world without instances, a read returns a value
    that is no instance. *)
Lemma holderGet_returns (rank : StoreRef -> nat) (f : nat) (obj : Holder)
  (key : PropertyKey) (w : World) :
  (forall s, rank s < f) -> linksBelow rank w -> instanceFree w ->
  match obj with InValue (VProxy _) | InProp _ => True | _ => False end ->
  exists v, snd (holderGetWith (_propAccessed f) obj key w) = Ok v
            /\ isInstance v = false.
Proof.
  intros Hr Hl Hi Ho. destruct obj as [s|v]; simpl.
  - unfold propGetWith, bind at 1. cbn [ofStore].
    destruct (assoc_get pkey_eqb key (prop (theStore s w))) as [acc|];
      [|now exists VUndefined].
    assert (forall n,
      exists v, snd ((_propAccessed f s [n] ;;
                      ofStore s (fun r => valueAt pkey_eqb (toPropertyKey n) (_props r))) w)
                = Ok v /\ isInstance v = false) as H.
    { intro n. unfold bind.
      pose proof (propAccessed_returns rank f s [n] w Hl (Hr s)) as Hok.
      pose proof (propAccessed_reads f s [n] w) as HR.
      destruct (_propAccessed f s [n] w) as [w1 [[]|e]]; simpl in *; [|discriminate].
      eexists. split; [reflexivity|].
      now apply (instanceFree_reads w w1 HR Hi). }
    destruct acc; apply H.
  - destruct v; try contradiction. destruct key as [k|i]; [|now exists VUndefined].
    simpl. unfold proxyGetWith, bind.
    set (p := theProxy ref w).
    assert (snd (when (hasOwn String.eqb k (local p))
                   (_propAccessed f (p_store p) (p_path p ++ [KStr k])) w) = Ok tt) as Hok.
    { destruct (hasOwn _ _ _); simpl; [|reflexivity].
      now apply (propAccessed_returns rank). }
    assert (sameButReads w (fst (when (hasOwn String.eqb k (local p))
                   (_propAccessed f (p_store p) (p_path p ++ [KStr k])) w))) as HR.
    { apply (keeps_when sameButReads sameButReads_refl), propAccessed_reads. }
    destruct (when _ _ w) as [w1 [[]|e]]; simpl in *; [|discriminate].
    eexists. split; [reflexivity|].
    now apply (instanceFree_reads w w1 HR Hi).
Qed.

Lemma getDeep_returns (rank : StoreRef -> nat) (keys : PropPath) :
  forall fuel obj w,
    keys <> [] ->
    match obj with InValue (VProxy _) | InProp _ => True | _ => False end ->
    linksBelow rank w -> instanceFree w ->
    (forall s, rank s + List.length keys < fuel) ->
    exists v, snd (_getDeep fuel obj keys w) = Ok v.
Proof.
  induction keys as [|k keys IH]; intros fuel obj w Hne Ho Hl Hi Hf; [contradiction|].
  destruct fuel as [|f]; [specialize (Hf 0); lia|].
  cbn [_getDeep]. unfold _getDeepWith.
  assert (forall s, rank s < f) as Hr by (intro s; specialize (Hf s); simpl in Hf; lia).
  destruct keys as [|k' keys].
  - destruct (holderGet_returns rank f obj (toPropertyKey k) w Hr Hl Hi Ho) as (v & Hv & _).
    now exists v.
  - cbn [firstKey tl]. unfold bind.
    destruct (holderGet_returns rank f obj (toPropertyKey k) w Hr Hl Hi Ho)
      as (v & Hv & Hvi).
    pose proof (keeps_holderGetWith sameButReads sameButReads_refl sameButReads_trans
                  (_propAccessed f) (propAccessed_reads f) obj (toPropertyKey k) w) as HR.
    destruct (holderGetWith (_propAccessed f) obj (toPropertyKey k) w) as [w1 o].
    simpl in Hv, HR. subst o.
    destruct (_isObject v) eqn:Eo; [|now exists VUndefined].
    apply IH.
    + discriminate.
    + destruct v; try discriminate; exact I.
    + now apply (linksBelow_reads rank w w1).
    + now apply (instanceFree_reads w w1).
    + intro s. specialize (Hf s). simpl in *. lia.
Qed.

Lemma computedGet_unchanged_deps (fuel : nat) (s : StoreRef) (key : PropertyKey)
  (computedName : PropName) (work : WorkRef) (w : World) :
  assoc_get pkey_eqb key (computed (theStore s w)) = Some (computedName, work) ->
  filter (fun d => _propPathExistsIn d (_editedPropsDuringTick (theStore s w)))
    (WorkM.getDependencies (theWork work w)) = [] ->
  computedGet (S fuel) s key w
  = (forEachM (fun dependency => _ <- _getDeep fuel (InProp s) dependency ;; ret tt)
       (WorkM.getDependencies (theWork work w)) ;;
     ofStore s (fun r => valueAt pkey_eqb (toPropertyKey computedName) (_computeds r))) w.
Proof.
  intros Hacc Hno. cbn [computedGet]. unfold computedGetWith.
  unfold bind at 1. cbn [ofStore]. rewrite Hacc.
  unfold bind at 1. cbn [ofWork]. unfold bind at 1. cbn [ofStore].
  rewrite Hno. unfold bind at 1. reflexivity.
Qed.

(** C5 (as the code has it).  Reading a Computed when none of its declared
    dependency paths is in the store's edited-during-tick buffer (the edits
    recorded since the last snapshot of a tick) calls no handler and changes
    nothing but the read buffers; it returns the cached value, whenever the
    fuel covers the length of its dependency paths and of the chains of
    links, on a world whose links do not loop and that holds no class
    instance (outside which the model stops). *)
Theorem C5_computed_lazy :
  forall fuel s key computedName work w,
    assoc_get pkey_eqb key (computed (theStore s w)) = Some (computedName, work) ->
    filter (fun d => _propPathExistsIn d (_editedPropsDuringTick (theStore s w)))
      (WorkM.getDependencies (theWork work w)) = [] ->
    let cached := valueAt pkey_eqb (toPropertyKey computedName) (_computeds (theStore s w)) in
    let after := computedGet (S fuel) s key w in
    sameButReads w (fst after)
    /\ (forall work', handlerCalls work' (fst after) = handlerCalls work' w)
    /\ (snd after = Ok cached \/ modelLimit (snd after))
    /\ (forall rank,
          linksBelow rank w -> instanceFree w ->
          ~ In [] (WorkM.getDependencies (theWork work w)) ->
          (forall s' d, In d (WorkM.getDependencies (theWork work w)) ->
                        rank s' + List.length d < fuel) ->
          snd after = Ok cached).
Proof.
  intros fuel s key computedName work w Hacc Hno cached after.
  unfold after. rewrite (computedGet_unchanged_deps _ _ _ _ _ _ Hacc Hno).
  set (deps := WorkM.getDependencies (theWork work w)).
  set (loop := forEachM _ deps).
  assert (keepsRel sameButReads loop) as Hk.
  { apply (keeps_forEachM sameButReads sameButReads_refl sameButReads_trans).
    intro d. apply (keeps_bind sameButReads sameButReads_trans).
    - apply getDeep_reads.
    - intro. apply (keeps_ret sameButReads sameButReads_refl). }
  assert (failsOnly limitError loop) as Hf.
  { apply fails_forEachM. intro d. apply fails_bind.
    - now apply getDeep_fails.
    - intro. apply fails_ret. }
  specialize (Hk w). specialize (Hf w).
  assert (sameButReads w (fst (loop w)) ->
          valueAt pkey_eqb (toPropertyKey computedName) (_computeds (theStore s (fst (loop w))))
          = cached) as Hc.
  { intro HR. unfold cached.
    now rewrite (sameButReads_field _computeds w (fst (loop w)) s). }
  assert (sameButReads w (fst ((loop ;; ofStore s (fun r =>
            valueAt pkey_eqb (toPropertyKey computedName) (_computeds r))) w))) as HR.
  { unfold bind. destruct (loop w) as [w1 [[]|e]]; exact Hk. }
  split; [exact HR|]. split; [|split].
  - intro work'. unfold handlerCalls. destruct HR as (_ & _ & _ & -> & _). reflexivity.
  - unfold bind. destruct (loop w) as [w1 [[]|e]]; simpl in *.
    + left. f_equal. now apply Hc.
    + right. destruct Hf as [-> | ->]; [now left|now right].
  - intros rank Hl Hi Hne Hfuel.
    assert (snd (loop w) = Ok tt) as Hok.
    { apply forEachM_returns.
      - intro d. apply (keeps_bind sameButReads sameButReads_trans).
        + apply getDeep_reads.
        + intro. apply (keeps_ret sameButReads sameButReads_refl).
      - intros d w' Hd HR'. unfold bind.
        destruct (getDeep_returns rank d fuel (InProp s) w') as (v & Hv).
        + intros ->. contradiction.
        + exact I.
        + now apply (linksBelow_reads rank w w').
        + now apply (instanceFree_reads w w').
        + intro s'. now apply Hfuel.
        + destruct (_getDeep fuel (InProp s) d w') as [w2 o]. simpl in Hv. now subst o. }
    unfold bind. destruct (loop w) as [w1 [[]|e]]; simpl in *; [|discriminate].
    f_equal. now apply Hc.
Qed.

Lemma assoc_get_In {K V : Type} (eqb : K -> K -> bool) (k : K) (l : list (K * V)) (v : V) :
  assoc_get eqb k l = Some v -> exists k', In (k', v) l.
Proof.
  induction l as [|[k' v'] l IH]; simpl; [discriminate|].
  destruct (eqb k k').
  - intros [= <-]. exists k'. now left.
  - intro H. destruct (IH H) as (k'' & Hk). exists k''. now right.
Qed.

Lemma noInstanceIn_valueAt {K : Type} (eqb : K -> K -> bool) (k : K) (l : list (K * Value)) :
  noInstanceIn l = true -> isInstance (valueAt eqb k l) = false.
Proof.
  intro H. unfold valueAt. destruct (assoc_get eqb k l) as [v|] eqn:E; [|reflexivity].
  apply assoc_get_In in E as (k' & Hin).
  unfold noInstanceIn in H. rewrite forallb_forall in H.
  specialize (H _ Hin). simpl in H. now destruct (isInstance v).
Qed.

Lemma instanceFreeb_sound (w : World) : instanceFreeb w = true -> instanceFree w.
Proof.
  unfold instanceFreeb. intro H. apply andb_prop in H as [Hs Hp].
  rewrite forallb_forall in Hs, Hp. split.
  - intros s key. unfold theStore.
    destruct (nth_in_or_default s (stores w) newReactive) as [Hin| ->]; [|reflexivity].
    apply noInstanceIn_valueAt. now apply Hs.
  - intros ref key. unfold theProxy.
    destruct (nth_in_or_default ref (proxies w) (mkProxy 0 [] false [])) as [Hin| ->];
      [|reflexivity].
    apply noInstanceIn_valueAt. now apply Hp.
Qed.

Lemma In_combine_seq {A : Type} (l : list A) :
  forall start i d, i < List.length l ->
    In (start + i, nth i l d) (combine (seq start (List.length l)) l).
Proof.
  induction l as [|x l IH]; intros start i d Hi; simpl in *; [lia|].
  destruct i as [|i].
  - left. now rewrite Nat.add_0_r.
  - right. replace (start + S i) with (S start + i) by lia. apply IH. lia.
Qed.

Lemma linksBelowb_sound (rank : StoreRef -> nat) (w : World) :
  linksBelowb rank w = true -> linksBelow rank w.
Proof.
  unfold linksBelowb. intros H s key links l Hget Hl.
  rewrite forallb_forall in H.
  destruct (Nat.lt_ge_cases s (List.length (stores w))) as [Hlt|Hge].
  - assert (In (s, theStore s w) (combine (seq 0 (List.length (stores w))) (stores w))) as Hin.
    { apply (In_combine_seq (stores w) 0 s newReactive Hlt). }
    specialize (H _ Hin). simpl in H. rewrite forallb_forall in H.
    apply assoc_get_In in Hget as (k' & Hk).
    specialize (H _ Hk). simpl in H. rewrite forallb_forall in H.
    now apply Nat.ltb_lt, H.
  - unfold theStore in Hget. rewrite nth_overflow in Hget by assumption. discriminate.
Qed.

(** Outside any tick the Computed [c] of the scenario is read from the
    cache. *)
Lemma C5_computed_lazy_witness :
  let w := run Scenario.twoReads emptyWorld in
  sameButReads w (fst (computedGet 11 0 (PStr "c") w))
  /\ snd (computedGet 11 0 (PStr "c") w) = Ok (VNum 1).
Proof.
  intro w.
  destruct (C5_computed_lazy 10 0 (PStr "c") (KStr "c") 0 w eq_refl eq_refl)
    as (H1 & _ & _ & H4).
  split; [exact H1|].
  apply (H4 (fun _ => 0)).
  - apply linksBelowb_sound. reflexivity.
  - apply instanceFreeb_sound. reflexivity.
  - intros [H|[]]. discriminate.
  - intros s' d [<-|[]]. simpl. lia.
Defined.

(** C5 (as stated) fails: in the tick started by [go = 5] the Work writes
    [x] and then reads the Computed [c] twice.  The first read calls the
    handler of [c] (Work 0), and so does the second, although nothing was
    edited between the two reads: [x] is still in the buffer of the tick. *)
Lemma C5_counterexample :
  let w := run Scenario.twoReads emptyWorld in
  outcome Scenario.setGo w = Ok tt
  /\ trace (run Scenario.setGo w)
     = trace w ++ [EvEdited 0 [KStr "go"]; EvDispatchWork 0 1; EvHandler 1;
                   EvEdited 0 [KStr "x"]; EvHandler 0; EvHandler 0;
                   EvDispatchWork 0 0; EvHandler 0].
Proof. vm_compute. repeat split. Qed.

(** ** The engine defines nothing and forgets nothing *)

Lemma sameNamespaces_refl (w : World) : sameNamespaces w w.
Proof. unfold sameNamespaces. repeat apply conj; try reflexivity. intro s. repeat split. Qed.

Lemma sameNamespaces_trans (a b c : World) :
  sameNamespaces a b -> sameNamespaces b c -> sameNamespaces a c.
Proof.
  intros (H1 & H2 & H3) (K1 & K2 & K3).
  unfold sameNamespaces. repeat apply conj; try congruence.
  intro s. destruct (H3 s) as (A1 & A2 & A3 & A4 & A5).
  destruct (K3 s) as (B1 & B2 & B3 & B4 & B5). repeat split; congruence.
Qed.

Lemma sameNamespaces_updStore (s : StoreRef) (f : Reactive -> Reactive) (w : World) :
  (forall r, prop (f r) = prop r) -> (forall r, computed (f r) = computed r) ->
  (forall r, _works (f r) = _works r) ->
  (forall r, _eventListeners (f r) = _eventListeners r) ->
  (forall r, _linkedPropInvalidations (f r) = _linkedPropInvalidations r) ->
  sameNamespaces w (updStore s f w).
Proof.
  intros H1 H2 H3 H4 H5. unfold sameNamespaces. repeat apply conj.
  - reflexivity.
  - apply length_list_set.
  - intro t. repeat split; now apply field_updStore.
Qed.

Lemma sameNamespaces_stores (w w' : World) :
  stores w' = stores w -> attached w' = attached w -> sameNamespaces w w'.
Proof.
  intros Hs Ha. unfold sameNamespaces, theStore. rewrite Hs, Ha.
  repeat apply conj; try reflexivity. intro s. repeat split.
Qed.

Lemma engine_namespaces (fuel : nat) :
  (forall s p, keepsRel sameNamespaces (_propEdited fuel s p))
  /\ (forall s, keepsRel sameNamespaces (_dispatchWorks fuel s))
  /\ (forall s work, keepsRel sameNamespaces (_dispatchWork fuel s work))
  /\ (forall work s, keepsRel sameNamespaces (dispatch fuel work s))
  /\ (forall s e, keepsRel sameNamespaces (eval fuel s e))
  /\ (forall s b, keepsRel sameNamespaces (exec fuel s b))
  /\ (forall s k, keepsRel sameNamespaces (computedGet fuel s k)).
Proof.
  apply keeps_engine.
  - exact sameNamespaces_refl.
  - exact sameNamespaces_trans.
  - intros; now apply sameNamespaces_updStore.
  - intros; now apply sameNamespaces_updStore.
  - intros; now apply sameNamespaces_updStore.
  - intros; now apply sameNamespaces_updStore.
  - intros; now apply sameNamespaces_updStore.
  - intros; now apply sameNamespaces_updStore.
  - intros; now apply sameNamespaces_updStore.
  - intros; now apply sameNamespaces_stores.
  - intros; now apply sameNamespaces_stores.
  - intros; now apply sameNamespaces_stores.
Qed.


(** ** Shared Props *)


Lemma assoc_get_defined {V : Type} (k : PropertyKey) (v : V) (l : list (PropertyKey * V)) :
  hasOwn pkey_eqb k l = false -> assoc_get pkey_eqb k (l ++ [(k, v)]) = Some v.
Proof.
  unfold hasOwn. induction l as [|[k' v'] l IH]; simpl.
  - now rewrite pkey_eqb_refl.
  - destruct (pkey_eqb k k'); [discriminate|]. exact IH.
Qed.


(** ** Teardown *)

Lemma forEachM_remove (l : list EventListener) (w : World) :
  snd (forEachM removeEventListener l w) = Ok tt
  /\ stores (fst (forEachM removeEventListener l w)) = stores w
  /\ works (fst (forEachM removeEventListener l w)) = works w.
Proof.
  revert w; induction l as [|x l IH]; intro w; simpl; [auto|].
  unfold bind. cbn [removeEventListener].
  apply (IH (set_attached (removeListener x (attached w)) w)).
Qed.

Lemma theStore_stores (s : StoreRef) (w w' : World) :
  stores w' = stores w -> theStore s w' = theStore s w.
Proof. unfold theStore. now intros ->. Qed.

Lemma destroy_returns (t : StoreRef) (w : World) : outcome (destroy t) w = Ok tt.
Proof.
  unfold outcome, destroy, bind. cbn [modStore ofStore]. apply forEachM_remove.
Qed.

Lemma destroy_others (t : StoreRef) (w : World) : othersKept t w (run (destroy t) w).
Proof.
  unfold run, destroy, bind. cbn [modStore ofStore].
  match goal with
  | |- othersKept _ _ (fst (forEachM _ ?l ?w0)) =>
      destruct (forEachM_remove l w0) as (_ & Hs & Hw)
  end.
  split.
  - rewrite Hw. reflexivity.
  - intros s Hne.
    match goal with
    | |- theStore s (fst (forEachM _ ?l ?w0)) = _ =>
        transitivity (theStore s w0); [now apply theStore_stores|]
    end.
    now rewrite !theStore_updStore_other by auto.
Qed.

(** A field that the six resets of [destroy] leave alone is left alone. *)
Lemma destroy_field {A : Type} (g : Reactive -> A) (t : StoreRef) (w : World) :
  (forall r v1 v2 v3 v4 v5 v6,
      g (set_accessedPropsDuringWork
           (set_editedPropsDuringWork
              (set_editedPropsDuringTick
                 (set_successiveStack (set_works (set_props r v1) v2) v3) v4) v5) v6)
      = g r) ->
  g (theStore t (run (destroy t) w)) = g (theStore t w).
Proof.
  intro Hg. unfold run, destroy, bind. cbn [modStore ofStore].
  match goal with
  | |- g (theStore t (fst (forEachM _ ?l ?w0))) = _ =>
      destruct (forEachM_remove l w0) as (_ & Hs & _);
      rewrite (theStore_stores t w0 _ Hs)
  end.
  destruct (Nat.lt_ge_cases t (List.length (stores w))) as [Hlt|Hge].
  - rewrite !theStore_updStore_same
      by (unfold updStore; cbn [stores]; now rewrite ?length_list_set).
    apply Hg.
  - unfold theStore, updStore; cbn [stores].
    now rewrite !list_set_beyond by (rewrite ?length_list_set; assumption).
Qed.

(** C8, evaluated where it fails.  [destroy] never changes [_computeds]
    nor the accessors of [prop].  In the scenario, after [destroy] the values
    of the Props, the registry of Works and the buffers are empty and the
    listener is detached, but [_computeds] still holds the value of the
    Computed [c], which can still be read. *)
Theorem C8_destroy_keeps_computed :
  (forall t w, _computeds (theStore t (run (destroy t) w)) = _computeds (theStore t w))
  /\ (forall t w, prop (theStore t (run (destroy t) w)) = prop (theStore t w))
  /\
  let w := run Scenario.withComputed emptyWorld in
  let w' := run (destroy 0) w in
  outcome Scenario.withComputed emptyWorld = Ok 0
  /\ outcome (destroy 0) w = Ok tt
  /\ _props (theStore 0 w') = []
  /\ _works (theStore 0 w') = []
  /\ attached w = [mkListener 7 "change" 0]
  /\ attached w' = []
  /\ _computeds (theStore 0 w) = [(PStr "c", VNum 2)]
  /\ _computeds (theStore 0 w') = [(PStr "c", VNum 2)]
  /\ outcome (computedGet 100 0 (PStr "c")) w' = Ok (VNum 2)
  /\ prop (theStore 0 w') = [(PStr "x", AccProp (KStr "x"))].
Proof.
  split; [intros; apply (destroy_field _computeds); reflexivity|].
  split; [intros; apply (destroy_field prop); reflexivity|].
  vm_compute. repeat split.
Qed.

(** C10.  [destroy] returns and leaves the Works and every other store as
    they were, so a source store keeps its link table and its registry.  In
    the scenario, after the target is destroyed the source still holds the
    link from [x] to the target's [y] and the copying Work; reading [x] on
    the source records the access of [y] in the destroyed target, and the
    assignment [x = 5] dispatches the copying Work, which writes 5 into the
    emptied target, and records the edit of [y] there. *)
Theorem C10_destroy_keeps_links :
  (forall t w, outcome (destroy t) w = Ok tt)
  /\ (forall t w, works (run (destroy t) w) = works w)
  /\ (forall t s w, s <> t -> theStore s (run (destroy t) w) = theStore s w)
  /\ (let w := run (destroy 1) (run Scenario.linked emptyWorld) in
      _linkedPropInvalidations (theStore 0 w) = [(PStr "x", [mkLinked 1 (KStr "y")])]
      /\ _works (theStore 0 w) = [0]
      /\ _handler (theWork 0 w) = HShared 1 (KStr "y") 0 (KStr "x")
      /\ _props (theStore 1 w) = []
      /\ _works (theStore 1 w) = []
      /\ outcome (propGet 100 0 (KStr "x")) w = Ok (VNum 0)
      /\ _accessedPropsDuringWork (theStore 1 (run (propGet 100 0 (KStr "x")) w))
         = [[KStr "y"]]
      /\ outcome Scenario.setX w = Ok tt
      /\ trace (run Scenario.setX w)
         = trace w ++ [EvEdited 0 [KStr "x"]; EvDispatchWork 0 0; EvHandler 0;
                       EvEdited 1 [KStr "y"]]
      /\ _editedPropsDuringWork (theStore 1 (run Scenario.setX w)) = [[KStr "y"]]
      /\ _props (theStore 1 (run Scenario.setX w)) = [(PStr "y", VNum 5)]).
Proof.
  split; [exact destroy_returns|].
  split; [intros t w; apply (destroy_others t w)|].
  split; [intros t s w H; now apply (destroy_others t w)|].
  vm_compute. repeat split.
Qed.

(** The source store of the scenario is the same after the target is
    destroyed. *)
Lemma C10_destroy_keeps_links_witness :
  let w := run Scenario.linked emptyWorld in
  theStore 0 (run (destroy 1) w) = theStore 0 w.
Proof.
  intro w. apply (proj1 (proj2 (proj2 C10_destroy_keeps_links)) 1 0 w). discriminate.
Defined.

(** ** What a dispatch stores, and what the definitions refuse *)

Lemma theWork_updWork_same (r : WorkRef) (f : Work -> Work) (w : World) :
  r < List.length (works w) -> theWork r (updWork r f w) = f (theWork r w).
Proof. intro H. unfold theWork, updWork; simpl. now apply nth_list_set_same. Qed.

Lemma declare_all (work : WorkRef) (deps : list PropPath) :
  forall w, work < List.length (works w) ->
    snd (forEachM (fun d => modWork work (WorkM.declareDependency d)) deps w) = Ok tt
    /\ WorkM.getDependencies
         (theWork work (fst (forEachM (fun d => modWork work (WorkM.declareDependency d))
                               deps w)))
       = WorkM.getDependencies (theWork work w) ++ deps.
Proof.
  induction deps as [|d deps IH]; intros w Hw; simpl.
  - now rewrite app_nil_r.
  - unfold bind. cbn [modWork].
    destruct (IH (updWork work (WorkM.declareDependency d) w)) as (Hok & Hdeps).
    { unfold updWork; simpl. now rewrite length_list_set. }
    split; [exact Hok|]. rewrite Hdeps, theWork_updWork_same by assumption.
    unfold WorkM.getDependencies, WorkM.declareDependency. simpl.
    now rewrite <- app_assoc.
Qed.

(** The set that [_dispatchWork] stores is the read buffer without the
    paths of the write buffer, as the call of the handler left the two. *)
Lemma dispatchWork_dependencies (dispatch : WorkRef -> StoreRef -> M unit)
  (s : StoreRef) (work : WorkRef) (w w1 : World) :
  work < List.length (works w1) ->
  dispatch work s
    (updStore s (fun r => set_editedPropsDuringWork r [])
       (updStore s (fun r => set_accessedPropsDuringWork r [])
          (addEvent (EvDispatchWork s work) w)))
  = (w1, Ok tt) ->
  snd (_dispatchWorkWith dispatch s work w) = Ok tt
  /\ WorkM.getDependencies (theWork work (fst (_dispatchWorkWith dispatch s work w)))
     = filter (fun p => negb (_propPathExistsIn p (_editedPropsDuringWork (theStore s w1))))
         (_accessedPropsDuringWork (theStore s w1)).
Proof.
  intros Hw Hd.
  set (deps := filter _ _).
  assert (exists w2,
    _dispatchWorkWith dispatch s work w
    = (updStore s (fun r => set_successiveStack r (_successiveStack r ++ [work])) w2, Ok tt)
    /\ WorkM.getDependencies (theWork work w2) = deps) as (w2 & -> & Hdeps).
  { unfold _dispatchWorkWith, bind. cbn [emit modStore]. rewrite Hd.
    cbn [ofStore modStore modWork].
    rewrite (field_updStore _editedPropsDuringWork
               (fun r => set_accessedPropsDuringWork r [])) by reflexivity.
    fold deps.
    match goal with
    | |- context [forEachM _ deps ?w0] =>
        destruct (declare_all work deps w0) as (Hok & Hdeps);
          [unfold updWork; simpl; now rewrite length_list_set|];
        destruct (forEachM _ deps w0) as [w2 o]
    end.
    simpl in Hok, Hdeps. subst o. exists w2. split; [reflexivity|].
    rewrite Hdeps, theWork_updWork_same by assumption. reflexivity. }
  split; [reflexivity|]. exact Hdeps.
Qed.

(** Defining a Prop whose stored value is defined throws [Prop already
    defined] and changes nothing. *)
Lemma defineProp_defined_throws (s : StoreRef) (propName : PropName) (value : Source)
  (w : World) :
  isDefined (valueAt pkey_eqb (toPropertyKey propName) (_props (theStore s w))) = true ->
  defineProp s propName value w = (w, Throw PropAlreadyDefined).
Proof.
  intro H. unfold defineProp, bind. cbn [ofStore]. now rewrite (isDefinedAt_value _ _ H).
Qed.

(** Assigning the entry of a Computed always throws and changes nothing. *)
Lemma computedSet_throws (s : StoreRef) (key : PropertyKey) (value : Source) (w : World) :
  hasOwn pkey_eqb key (computed (theStore s w)) = true ->
  computedSet s key value w = (w, Throw SetComputedDirectly).
Proof.
  unfold hasOwn, computedSet, bind. cbn [ofStore].
  destruct (assoc_get pkey_eqb key (computed (theStore s w))); [reflexivity|discriminate].
Qed.

(** * Further properties of the engine *)

(** ** Paths *)

Lemma key_strict_eqb_eq (a b : PropName) : key_strict_eqb a b = true <-> a = b.
Proof.
  destruct a, b; simpl; split; intro H; try discriminate; try congruence.
  - apply String.eqb_eq in H. now subst.
  - inversion H. apply String.eqb_refl.
  - apply Z.eqb_eq in H. now subst.
  - inversion H. apply Z.eqb_refl.
  - apply Nat.eqb_eq in H. now subst.
  - inversion H. apply Nat.eqb_refl.
Qed.

Lemma arraysAreEqual_eq (needle : PropPath) :
  forall item, List.length needle = List.length item ->
    (arraysAreEqual needle item = true <-> needle = item).
Proof.
  induction needle as [|k needle IH]; intros [|k' item] Hl; simpl in *; try discriminate.
  - tauto.
  - destruct (key_strict_eqb k k') eqn:E.
    + apply key_strict_eqb_eq in E. subst k'. rewrite IH by lia.
      split; [now intros ->|now intros [= ->]].
    + split; [discriminate|]. intros [= -> _].
      assert (key_strict_eqb k' k' = true) as H by now apply key_strict_eqb_eq.
      congruence.
Qed.

Lemma propPathExistsIn_In (needle : PropPath) (haystack : list PropPath) :
  _propPathExistsIn needle haystack = true <-> In needle haystack.
Proof.
  induction haystack as [|item rest IH]; simpl.
  - split; [discriminate|tauto].
  - destruct (Nat.eqb (List.length needle) (List.length item)) eqn:El; simpl.
    + apply Nat.eqb_eq in El. destruct (arraysAreEqual needle item) eqn:Ea.
      * apply (arraysAreEqual_eq _ _ El) in Ea. split; [now left|reflexivity].
      * rewrite IH. split; [now right|]. intros [H|H]; [|assumption].
        symmetry in H. apply (arraysAreEqual_eq _ _ El) in H. congruence.
    + apply Nat.eqb_neq in El. rewrite IH. split; [now right|].
      intros [H|H]; [|assumption]. subst. contradiction.
Qed.

Lemma propPathExistsIn_false (needle : PropPath) (haystack : list PropPath) :
  _propPathExistsIn needle haystack = false <-> ~ In needle haystack.
Proof.
  rewrite <- propPathExistsIn_In. destruct (_propPathExistsIn needle haystack).
  - split; [discriminate|intro H; now contradiction H].
  - split; [discriminate|reflexivity].
Qed.

(** X1.  [_propPathExistsIn] answers whether the haystack holds the needle:
    a path of the same length with, place by place, the identical key; so
    neither the order of the haystack nor repetitions in it matter. *)
Theorem X1_propPathExistsIn_In (needle : PropPath) (haystack : list PropPath) :
  (_propPathExistsIn needle haystack = true <-> In needle haystack)
  /\ (_propPathExistsIn needle haystack = false <-> ~ In needle haystack).
Proof. split; [apply propPathExistsIn_In|apply propPathExistsIn_false]. Qed.

(** ** The index, entry by entry *)

Lemma samePropertyKeys_refl (p : PropPath) : samePropertyKeys p p = true.
Proof. induction p as [|k p IH]; simpl; [reflexivity|]. now rewrite pkey_eqb_refl. Qed.

(** X2.  In the reverse-dependency index, on the paths of [plainPath]
    (under a key that names a member of [Object.prototype] the source finds
    that member instead of an entry, and throws or finds nothing), adding a
    Work under a non-empty path puts it last among the Works found under that
    path, and leaves what is found under every path with other property keys
    as it was; the empty path is never stored and never found. *)
Theorem X2_index_add_then_get :
  (forall t d work,
      d <> [] -> plainPath d = true ->
      ReversedDependencies.get (ReversedDependencies.add t d work) d
      = ReversedDependencies.get t d ++ [work])
  /\ (forall t d p work,
        plainPath d = true -> plainPath p = true ->
        indexMatch p d = false ->
        ReversedDependencies.get (ReversedDependencies.add t d work) p
        = ReversedDependencies.get t p)
  /\ (forall t work, ReversedDependencies.add t [] work = t)
  /\ (forall t, ReversedDependencies.get t [] = []).
Proof.
  unfold ReversedDependencies.get, ReversedDependencies.add.
  split; [|split; [|split]].
  - intros t d work Hd _. rewrite recursiveGet_add. unfold indexMatch.
    rewrite samePropertyKeys_refl. destruct d; [contradiction|reflexivity].
  - intros t d p work _ _ H. rewrite recursiveGet_add, H. apply app_nil_r.
  - reflexivity.
  - reflexivity.
Qed.

(** Two Works under [a.b], a third under [a.c]. *)
Lemma X2_index_add_then_get_witness :
  let a_b := [KStr "a"; KStr "b"] in
  let a_c := [KStr "a"; KStr "c"] in
  let t := ReversedDependencies.add RDEmpty a_b 1 in
  ReversedDependencies.get (ReversedDependencies.add t a_b 2) a_b
  = ReversedDependencies.get t a_b ++ [2]
  /\ ReversedDependencies.get (ReversedDependencies.add t a_c 3) a_b
     = ReversedDependencies.get t a_b.
Proof.
  intros a_b a_c t. split.
  - apply (proj1 X2_index_add_then_get); [discriminate|reflexivity].
  - apply (proj1 (proj2 X2_index_add_then_get)); reflexivity.
Defined.

(** ** The loop check and the order of the stack *)

(** X3.  The loop check looks at how often each Work occurs in the stack
    and at nothing else: two stacks with the same dispatches in another order
    get the same answer, a stack that trips it keeps tripping it however it
    grows, and a stack of at most 20 dispatches never trips it. *)
Theorem X3_checkLoop_counts :
  (forall a b, Permutation a b -> _checkLoopInStack a = _checkLoopInStack b)
  /\ (forall a b, _checkLoopInStack a = true -> _checkLoopInStack (a ++ b) = true)
  /\ (forall a, List.length a <= 20 -> _checkLoopInStack a = false).
Proof.
  split; [|split].
  - intros a b Hp.
    assert (forall x y, Permutation x y ->
              _checkLoopInStack x = true -> _checkLoopInStack y = true) as H.
    { intros x y Hxy Hx. apply checkLoopInStack_spec in Hx as (work & Hw).
      apply checkLoopInStack_spec. exists work.
      now rewrite <- (proj1 (Permutation_count_occ Nat.eq_dec x y) Hxy work). }
    destruct (_checkLoopInStack a) eqn:Ea, (_checkLoopInStack b) eqn:Eb; auto.
    + apply (H a b Hp) in Ea. congruence.
    + apply (H b a (Permutation_sym Hp)) in Eb. congruence.
  - intros a b Ha. apply checkLoopInStack_spec in Ha as (work & Hw).
    apply checkLoopInStack_spec. exists work. rewrite count_occ_app.
    apply Nat.lt_le_trans with (1 := Hw). apply Nat.le_add_r.
  - intros a Ha. destruct (_checkLoopInStack a) eqn:E; [|reflexivity].
    apply checkLoopInStack_spec in E as (work & Hw).
    pose proof (count_occ_bound Nat.eq_dec work a) as Hb.
    exfalso. apply (Nat.lt_irrefl 20).
    eapply Nat.lt_le_trans; [exact Hw|]. eapply Nat.le_trans; [exact Hb|exact Ha].
Qed.

(** A stack read in both directions, a tripping stack extended, a short
    stack. *)
Lemma X3_checkLoop_counts_witness :
  _checkLoopInStack [0; 1; 0] = _checkLoopInStack (rev [0; 1; 0])
  /\ _checkLoopInStack (repeat 4 21 ++ [5]) = true
  /\ _checkLoopInStack (repeat 4 20) = false.
Proof.
  split; [|split].
  - apply (proj1 X3_checkLoop_counts). apply Permutation_rev.
  - apply (proj1 (proj2 X3_checkLoop_counts)). reflexivity.
  - apply (proj2 (proj2 X3_checkLoop_counts)). simpl. lia.
Defined.

(** ** Wrapping a literal *)

Lemma createObjectProxy_object (isArray : bool) (fields : list (string * Source))
  (store : StoreRef) (path : PropPath) (heap : list ProxyObj) :
  _createObjectProxy (SrcObject isArray fields) store path heap
  = (setProperties store path (List.length heap) fields
       (heap ++ [mkProxy store path isArray []]),
     VProxy (List.length heap)).
Proof.
  cbn [_createObjectProxy]. f_equal.
  generalize (heap ++ [mkProxy store path isArray []]).
  induction fields as [|[k v] rest IH]; intro h; [reflexivity|].
  cbn [setProperties]. destruct (src_isObject v).
  - destruct (_createObjectProxy v store (path ++ [KStr k]) h) as [h' x]. apply IH.
  - apply IH.
Qed.

Lemma length_setLocal (ref : nat) (k : string) (v : Value) (h : list ProxyObj) :
  List.length (setLocal ref k v h) = List.length h.
Proof. apply length_list_set. Qed.

Lemma nth_setLocal_other (ref i : nat) (k : string) (v : Value) (h : list ProxyObj) :
  i <> ref -> nth i (setLocal ref k v h) noProxy = nth i h noProxy.
Proof. intro H. apply nth_list_set_other. auto. Qed.

Lemma nth_setLocal_same (ref : nat) (k : string) (v : Value) (h : list ProxyObj) :
  ref < List.length h ->
  binding (nth ref (setLocal ref k v h) noProxy) = binding (nth ref h noProxy)
  /\ local (nth ref (setLocal ref k v h) noProxy)
     = assoc_set String.eqb k v (local (nth ref h noProxy)).
Proof.
  intro H. unfold setLocal. rewrite nth_list_set_same by assumption. split; reflexivity.
Qed.

Lemma fieldHolds_later (store : StoreRef) (path : PropPath) (h h' : list ProxyObj)
  (ref : nat) (field : string * Source) (v : Value) :
  ref < List.length h -> List.length h <= List.length h' ->
  (forall i, i < List.length h -> i <> ref -> nth i h' noProxy = nth i h noProxy) ->
  (forall r, v = VProxy r -> r <> ref) ->
  fieldHolds store path h field v -> fieldHolds store path h' field v.
Proof.
  intros Hr Hl Hsame Hne. unfold fieldHolds. destruct (snd field); auto.
  intros (r & -> & Hlt & Hb). exists r. split; [reflexivity|]. split; [lia|].
  rewrite Hsame; auto.
Qed.

Lemma setProperties_inv (store : StoreRef) (path : PropPath) (ref : nat)
  (fs : list (string * Source)) :
  (forall k v, In (k, v) fs -> wrapped v) ->
  forall h, ref < List.length h ->
    let h' := setProperties store path ref fs h in
    List.length h <= List.length h'
    /\ (forall i, i < List.length h -> i <> ref -> nth i h' noProxy = nth i h noProxy)
    /\ binding (nth ref h' noProxy) = binding (nth ref h noProxy)
    /\ (forall i, List.length h <= i < List.length h' ->
          p_store (nth i h' noProxy) = store
          /\ exists suffix, p_path (nth i h' noProxy) = path ++ suffix)
    /\ exists vals,
         Forall2 (fun field v => fieldHolds store path h' field v
                                 /\ forall r, v = VProxy r -> List.length h <= r) fs vals
         /\ local (nth ref h' noProxy)
            = fold_left (fun acc kv => assoc_set String.eqb (fst kv) (snd kv) acc)
                (combine (map fst fs) vals) (local (nth ref h noProxy)).
Proof.
  induction fs as [|[k v] rest IH]; intros Hw h Href; cbn [setProperties].
  - repeat split; auto; try lia. exists []. split; [constructor|reflexivity].
  - assert (forall k' v', In (k', v') rest -> wrapped v') as Hw'
        by (intros; apply (Hw k' v'); now right).
    assert (exists h1 x,
      (if src_isObject v
       then let '(h', v0) := _createObjectProxy v store (path ++ [KStr k]) h in
            setProperties store path ref rest (setLocal ref k v0 h')
       else setProperties store path ref rest (setLocal ref k (primValue v) h))
      = setProperties store path ref rest (setLocal ref k x h1)
      /\ heapGrows store (path ++ [KStr k]) h h1
      /\ fieldHolds store path h1 (k, v) x
      /\ (forall r, x = VProxy r -> r = List.length h /\ r < List.length h1))
      as (h1 & x & -> & (Hlen & Hold & Hnew) & Hx & Hxr).
    { pose proof (Hw k v (or_introl eq_refl) store (path ++ [KStr k]) h) as Hv.
      destruct (_createObjectProxy v store (path ++ [KStr k]) h) as [h1 x].
      cbn [fst snd] in Hv. destruct Hv as (Hg & Hres).
      destruct v; cbn [src_isObject]; cbn [src_isObject] in Hres.
      1-5: eexists h, _; split; [reflexivity|]; split;
        [repeat split; auto; intros; lia|]; split; [reflexivity|]; discriminate.
      - destruct Hres as (-> & ->). exists h, (VInstance id).
        split; [reflexivity|]. split; [exact Hg|]. split; [reflexivity|]. discriminate.
      - destruct Hres as (-> & Hb & _). exists h1, (VProxy (List.length h)).
        split; [reflexivity|]. split; [exact Hg|].
        assert (List.length h < List.length h1) as Hlt.
        { destruct Hg as (Hle & _ & _).
          destruct (Nat.eq_dec (List.length h) (List.length h1)) as [E|E]; [|lia].
          exfalso. rewrite nth_overflow in Hb by lia.
          unfold binding, noProxy in Hb. simpl in Hb.
          injection Hb as _ Hp _. destruct path; discriminate. }
        split.
        + unfold fieldHolds. cbn [snd fst]. exists (List.length h). auto.
        + intros r [= <-]. auto. }
    set (h2 := setLocal ref k x h1).
    assert (List.length h2 = List.length h1) as Hl2 by apply length_setLocal.
    destruct (IH Hw' h2) as (L & U & B & Nw & vals & F & Lc); [lia|].
    destruct (nth_setLocal_same ref k x h1) as (B2 & L2); [lia|]. fold h2 in B2, L2.
    split; [lia|]. split; [|split; [|split]].
    + intros i Hi Hne. rewrite U by lia. unfold h2.
      rewrite nth_setLocal_other by assumption. now apply Hold.
    + rewrite B, B2. f_equal. now apply Hold.
    + intros i Hi. destruct (Nat.lt_ge_cases i (List.length h1)) as [Hlt|Hge].
      * rewrite U by lia. unfold h2. rewrite nth_setLocal_other by lia.
        destruct (Hnew i) as (Hs & suf & Hp); [lia|]. split; [exact Hs|].
        exists (KStr k :: suf). now rewrite Hp, <- app_assoc.
      * apply Nw. lia.
    + exists (x :: vals). split.
      * constructor.
        -- split.
           ++ apply (fieldHolds_later store path h2 _ ref); try lia; auto.
              ** intros r Hr. destruct (Hxr r Hr). lia.
              ** apply (fieldHolds_later store path h1 h2 ref); try lia; auto.
                 --- intros i Hi Hne. unfold h2. now apply nth_setLocal_other.
                 --- intros r Hr. destruct (Hxr r Hr). lia.
           ++ intros r Hr. destruct (Hxr r Hr). lia.
        -- eapply Forall2_impl; [|exact F]. intros a b (Ha & Hb). split; [exact Ha|].
           intros r Hr. specialize (Hb r Hr). lia.
      * rewrite Lc, L2. cbn [map combine fold_left fst snd]. do 3 f_equal. now apply Hold.
Qed.

Lemma sourceSize_field (isArray : bool) (fields : list (string * Source)) (k : string)
  (v : Source) :
  In (k, v) fields -> sourceSize v < sourceSize (SrcObject isArray fields).
Proof.
  intro Hin. simpl. induction fields as [|[k' v'] rest IH]; [destruct Hin|].
  destruct Hin as [H|H].
  - injection H as -> ->. lia.
  - specialize (IH H). lia.
Qed.

Lemma heapGrows_refl (store : StoreRef) (path : PropPath) (h : list ProxyObj) :
  heapGrows store path h h.
Proof. repeat split; auto; intros; lia. Qed.

Lemma wrapped_sized (n : nat) : forall source, sourceSize source <= n -> wrapped source.
Proof.
  induction n as [|n IH]; intros source Hs.
  - destruct source; simpl in Hs; lia.
  - destruct source; try (intros store path heap; simpl; split;
                          [apply heapGrows_refl|split; reflexivity]).
    intros store path heap. rewrite createObjectProxy_object. cbn [fst snd].
    set (h0 := heap ++ [mkProxy store path isArray []]).
    assert (List.length h0 = S (List.length heap)) as Hl0
        by (unfold h0; rewrite length_app; simpl; lia).
    assert (nth (List.length heap) h0 noProxy = mkProxy store path isArray []) as Hn0.
    { unfold h0. rewrite app_nth2 by lia. now rewrite Nat.sub_diag. }
    destruct (setProperties_inv store path (List.length heap) fields) with (h := h0)
      as (L & U & B & Nw & vals & F & Lc).
    { intros k v Hin. apply IH. pose proof (sourceSize_field isArray fields k v Hin). lia. }
    { lia. }
    rewrite Hn0 in B, Lc. split; [|split; [reflexivity|split; [exact B|]]].
    + split; [lia|]. split.
      * intros i Hi. rewrite U by lia. unfold h0. now rewrite app_nth1.
      * intros i Hi. destruct (Nat.eq_dec i (List.length heap)) as [->|Hne].
        -- injection B as -> -> _. split; [reflexivity|]. exists []. now rewrite app_nil_r.
        -- apply Nw. lia.
    + exists vals. split; [|exact Lc].
      eapply Forall2_impl; [|exact F]. now intros a b (Ha & _).
Qed.

Lemma wrapped_all (source : Source) : wrapped source.
Proof. apply (wrapped_sized (sourceSize source)). lia. Qed.




(** X4.  Wrapping never touches the proxies that exist: the heap only
    grows, every proxy it adds reports to the given store under a path that
    extends the given path, and a source that is no literal (a primitive, an
    instance of a class) is returned as it is with the heap unchanged.  A
    literal comes back as the proxy at the first free place, bound to the
    given store and path. *)
Theorem X4_createObjectProxy_heap (source : Source) (store : StoreRef) (path : PropPath)
  (heap : list ProxyObj) :
  let heap' := fst (_createObjectProxy source store path heap) in
  let v := snd (_createObjectProxy source store path heap) in
  List.length heap <= List.length heap'
  /\ (forall i, i < List.length heap -> nth i heap' noProxy = nth i heap noProxy)
  /\ (forall i, List.length heap <= i < List.length heap' ->
        p_store (nth i heap' noProxy) = store
        /\ exists suffix, p_path (nth i heap' noProxy) = path ++ suffix)
  /\ match source with
     | SrcObject isArray _ =>
         v = VProxy (List.length heap)
         /\ binding (nth (List.length heap) heap' noProxy) = (store, path, isArray)
     | _ => heap' = heap /\ v = primValue source
     end.
Proof.
  destruct (wrapped_all source store path heap) as ((L & O & N) & Hres).
  cbv zeta. repeat split; auto; try (now apply N).
  destruct source; try exact Hres. destruct Hres as (Hv & Hb & _). now split.
Qed.



(** The literal [{a: 1, b: {c: 2}}] wrapped on a heap that holds one proxy. *)
Lemma X4_createObjectProxy_heap_witness :
  let heap := [mkProxy 3 [KStr "z"] true []] in
  let source := SrcObject false [("a", SrcNum 1); ("b", SrcObject false [("c", SrcNum 2)])] in
  let heap' := fst (_createObjectProxy source 0 [KStr "o"] heap) in
  nth 0 heap' noProxy = nth 0 heap noProxy
  /\ p_store (nth 2 heap' noProxy) = 0
  /\ exists suffix, p_path (nth 2 heap' noProxy) = [KStr "o"] ++ suffix.
Proof.
  intros heap source heap'.
  destruct (X4_createObjectProxy_heap source 0 [KStr "o"] heap) as (_ & Hold & Hnew & _).
  split; [apply Hold; simpl; lia|]. apply Hnew. vm_compute. lia.
Defined.

(** ** Assigning a field behind a proxy *)





(** ** Reading *)

(** X7.  Reading a Prop, at any depth, changes nothing but the read
    buffers: no value, no dependency set, no edit buffer, no proxy and no log.
    The same holds for the deep reads that the getter of a Computed makes. *)
Theorem X7_reads_change_read_buffers_only :
  (forall fuel s name w, sameButReads w (run (propGet fuel s name) w))
  /\ (forall fuel s name keys w, sameButReads w (run (readPath fuel s name keys) w))
  /\ (forall fuel obj keys w, sameButReads w (run (_getDeep fuel obj keys) w)).
Proof.
  split; [|split].
  - intros fuel s name. unfold propGet.
    apply (keeps_propGetWith sameButReads sameButReads_refl sameButReads_trans).
    apply propAccessed_reads.
  - intros fuel s name keys. unfold readPath, propGet.
    apply (keeps_bind sameButReads sameButReads_trans).
    + apply (keeps_propGetWith sameButReads sameButReads_refl sameButReads_trans).
      apply propAccessed_reads.
    + intro v.
      apply (keeps_readKeysWith sameButReads sameButReads_refl sameButReads_trans).
      apply propAccessed_reads.
  - intros fuel obj keys. apply getDeep_reads.
Qed.

(** X8.  The deep read of a dependency path returns: on stores whose links
    do not loop and whose values hold no class instance, with fuel for the
    length of the path and of the chains of links, [_getDeep] from the [prop]
    namespace returns a value for every non-empty path, whatever the Props
    hold.  In any case it throws no [TypeError]: the only failures are
    running out of fuel, which is how the model shows the recursion without
    end of [_propAccessed] through links that loop, and a class instance. *)
Theorem X8_getDeep_returns (rank : StoreRef -> nat) (fuel : nat) (s : StoreRef)
  (keys : PropPath) (w : World) :
  keys <> [] ->
  linksBelow rank w -> instanceFree w ->
  (forall s', rank s' + List.length keys < fuel) ->
  (exists v, outcome (_getDeep fuel (InProp s) keys) w = Ok v)
  /\ forall fuel' s' keys' w',
       (exists v, outcome (_getDeep fuel' (InProp s') keys') w' = Ok v)
       \/ modelLimit (outcome (_getDeep fuel' (InProp s') keys') w').
Proof.
  intros Hne Hl Hi Hf. split.
  - exact (getDeep_returns rank keys fuel (InProp s) w Hne I Hl Hi Hf).
  - intros fuel' s' keys' w'.
    pose proof (getDeep_fails fuel' (InProp s') keys' I w') as H. unfold outcome.
    destruct (snd (_getDeep fuel' (InProp s') keys' w')) as [v|e].
    + left. now exists v.
    + right. destruct H as [-> | ->]; [now left|now right].
Qed.

(** The path [list.0] on the store of the list. *)
Lemma X8_getDeep_returns_witness :
  let w := run Scenario.listStore emptyWorld in
  exists v, outcome (_getDeep 5 (InProp 0) [KStr "list"; KStr "0"]) w = Ok v.
Proof.
  intro w.
  assert (linksBelow (fun _ => 0) w) as Hl by (apply linksBelowb_sound; vm_compute; reflexivity).
  assert (instanceFree w) as Hi by (apply instanceFreeb_sound; vm_compute; reflexivity).
  destruct (X8_getDeep_returns (fun _ => 0) 5 0 [KStr "list"; KStr "0"] w) as (H & _).
  - discriminate.
  - exact Hl.
  - exact Hi.
  - intro s'. simpl. lia.
  - exact H.
Defined.

Lemma keeps_bind_at (R : World -> World -> Prop) {A B : Type} (c : M A) (k : A -> M B)
  (w : World) :
  (forall a b c', R a b -> R b c' -> R a c') ->
  R w (fst (c w)) -> (forall a, keepsRel R (k a)) -> R w (fst (bind c k w)).
Proof.
  intros Ht Hc Hk. unfold bind. destruct (c w) as [w' [a|e]]; simpl in *; [|assumption].
  eapply Ht; [exact Hc|apply Hk].
Qed.

Lemma readsGrow_refl (w : World) : readsGrow w w.
Proof. split; [apply sameButReads_refl|]. intro t. split; auto. Qed.

Lemma readsGrow_trans (a b c : World) : readsGrow a b -> readsGrow b c -> readsGrow a c.
Proof.
  intros (H1 & H2) (K1 & K2). split; [eapply sameButReads_trans; eassumption|].
  intro t. destruct (H2 t) as (A1 & A2). destruct (K2 t) as (B1 & B2). split; auto.
Qed.

(** The step of [_propAccessed] that records the path. *)
Lemma record_grows (s : StoreRef) (p : PropPath) (w : World) :
  readsGrow w
    (fst (when (negb (_propPathExistsIn p (_accessedPropsDuringWork (theStore s w))))
            (modStore s (fun r =>
               set_accessedPropsDuringWork r (_accessedPropsDuringWork r ++ [p]))) w)).
Proof.
  destruct (_propPathExistsIn p (_accessedPropsDuringWork (theStore s w))) eqn:E;
    cbn [negb when]; [apply readsGrow_refl|].
  cbn [modStore fst]. split; [apply sameButReads_accessed|].
  assert (~ In p (_accessedPropsDuringWork (theStore s w))) as Hnew.
  { intro H. apply propPathExistsIn_In in H. congruence. }
  intro t. destruct (Nat.eq_dec s t) as [<-|Hne].
  - destruct (Nat.lt_ge_cases s (List.length (stores w))) as [Hlt|Hge].
    + rewrite theStore_updStore_same by assumption. cbn [_accessedPropsDuringWork
        set_accessedPropsDuringWork]. split.
      * intros q Hq. apply in_app_iff. now left.
      * intro Hnd. apply NoDup_app; [assumption|repeat constructor; auto|].
        intros a Ha [<-|[]]. contradiction.
    + unfold theStore, updStore; cbn [stores]. rewrite list_set_beyond by assumption.
      split; auto.
  - rewrite theStore_updStore_other by assumption. split; auto.
Qed.

Lemma propAccessed_grows (fuel : nat) :
  forall s p, keepsRel readsGrow (_propAccessed fuel s p).
Proof.
  induction fuel as [|f IH]; intros s p w; cbn [_propAccessed].
  - apply readsGrow_refl.
  - unfold _propAccessedWith. unfold bind at 1. cbn [ofStore].
    apply (keeps_bind_at readsGrow); [exact readsGrow_trans|apply record_grows|].
    intros _. apply (keeps_bind readsGrow readsGrow_trans).
    + intro w0. apply readsGrow_refl.
    + intro links. apply (keeps_forEachM readsGrow readsGrow_refl readsGrow_trans).
      intro l. apply IH.
Qed.

Lemma propAccessed_step (f : nat) (s : StoreRef) (p : PropPath) (w : World) :
  _propAccessed (S f) s p w
  = (links <- linksOf s p ;;
     forEachM (fun linked =>
       _propAccessed f (targetReactive linked) (targetPropName linked :: tl p)) links)
      (fst (when (negb (_propPathExistsIn p (_accessedPropsDuringWork (theStore s w))))
              (modStore s (fun r =>
                 set_accessedPropsDuringWork r (_accessedPropsDuringWork r ++ [p]))) w)).
Proof.
  cbn [_propAccessed]. unfold _propAccessedWith. unfold bind at 1. cbn [ofStore].
  unfold bind at 1.
  destruct (negb (_propPathExistsIn p (_accessedPropsDuringWork (theStore s w))));
    reflexivity.
Qed.

Lemma record_records (s : StoreRef) (p : PropPath) (w : World) :
  s < List.length (stores w) ->
  In p (_accessedPropsDuringWork
          (theStore s
             (fst (when (negb (_propPathExistsIn p
                                 (_accessedPropsDuringWork (theStore s w))))
                     (modStore s (fun r =>
                        set_accessedPropsDuringWork r (_accessedPropsDuringWork r ++ [p])))
                     w)))).
Proof.
  intro Hs.
  destruct (_propPathExistsIn p (_accessedPropsDuringWork (theStore s w))) eqn:E;
    cbn [negb when fst].
  - now apply propPathExistsIn_In.
  - cbn [modStore fst]. rewrite theStore_updStore_same by assumption.
    cbn [_accessedPropsDuringWork set_accessedPropsDuringWork].
    apply in_app_iff. right. now left.
Qed.

Lemma propAccessed_records (fuel : nat) (s : StoreRef) (p : PropPath) (w : World) :
  s < List.length (stores w) ->
  snd (_propAccessed fuel s p w) = Ok tt ->
  In p (_accessedPropsDuringWork (theStore s (fst (_propAccessed fuel s p w)))).
Proof.
  intros Hs Hok. destruct fuel as [|f]; [discriminate|].
  rewrite propAccessed_step. set (w1 := fst (when _ _ w)).
  assert (readsGrow w1 (fst ((links <- linksOf s p ;;
            forEachM (fun linked =>
              _propAccessed f (targetReactive linked) (targetPropName linked :: tl p))
              links) w1))) as (_ & Hg).
  { apply (keeps_bind readsGrow readsGrow_trans).
    - intro w0. apply readsGrow_refl.
    - intro links. apply (keeps_forEachM readsGrow readsGrow_refl readsGrow_trans).
      intro l. apply propAccessed_grows. }
  apply (proj1 (Hg s)). unfold w1. now apply record_records.
Qed.

Lemma forEachM_Ok_each {A : Type} (R : World -> World -> Prop) (f : A -> M unit)
  (l : list A) :
  (forall w, R w w) -> (forall a b c, R a b -> R b c -> R a c) ->
  (forall a, keepsRel R (f a)) ->
  forall w, snd (forEachM f l w) = Ok tt ->
    forall a, In a l ->
      exists wa, R w wa /\ snd (f a wa) = Ok tt
                 /\ R (fst (f a wa)) (fst (forEachM f l w)).
Proof.
  intros Hr Ht Hk. induction l as [|x l IH]; intros w Hok a Hin; [destruct Hin|].
  simpl in Hok |- *. unfold bind in Hok |- *.
  pose proof (Hk x w) as Hx.
  destruct (f x w) as [w1 [[]|e]] eqn:E; simpl in Hx; [|discriminate].
  destruct Hin as [<-|Hin].
  - exists w. split; [apply Hr|]. rewrite E. split; [reflexivity|]. simpl.
    apply (keeps_forEachM R Hr Ht f l Hk).
  - destruct (IH w1 Hok a Hin) as (wa & H1 & H2 & H3).
    exists wa. split; [eapply Ht; eassumption|]. now split.
Qed.

(** X9.  An access that returns is recorded: the read buffer of the store
    holds the path, and for every link of the store under the first key of
    the path, the read buffer of the linked store holds the target name
    followed by the rest of the path.  Nothing recorded before is lost, no
    buffer gets a duplicate, and nothing but the read buffers changes. *)
Theorem X9_access_recorded_and_forwarded (fuel : nat) (s : StoreRef) (p : PropPath)
  (w : World) :
  s < List.length (stores w) ->
  outcome (_propAccessed fuel s p) w = Ok tt ->
  let w' := run (_propAccessed fuel s p) w in
  In p (_accessedPropsDuringWork (theStore s w'))
  /\ readsGrow w w'
  /\ forall links linked,
       assoc_get pkey_eqb (firstKey p) (_linkedPropInvalidations (theStore s w)) = Some links ->
       In linked links ->
       targetReactive linked < List.length (stores w) ->
       In (targetPropName linked :: tl p)
          (_accessedPropsDuringWork (theStore (targetReactive linked) w')).
Proof.
  intros Hs Hok w'. unfold outcome in Hok. unfold w', run.
  split; [now apply propAccessed_records|]. split; [apply propAccessed_grows|].
  intros links linked Hl Hin Ht.
  destruct fuel as [|f]; [discriminate|].
  rewrite propAccessed_step in Hok |- *. set (w1 := fst (when _ _ w)) in *.
  pose proof (record_grows s p w) as (HR1 & _). fold w1 in HR1.
  unfold bind, linksOf in Hok |- *. cbn [ofStore] in Hok |- *.
  rewrite (sameButReads_field _linkedPropInvalidations w w1 s) in Hok |- * by auto.
  rewrite Hl in Hok |- *.
  destruct (forEachM_Ok_each readsGrow
              (fun l => _propAccessed f (targetReactive l) (targetPropName l :: tl p))
              links readsGrow_refl readsGrow_trans
              (fun l => propAccessed_grows f _ _) w1 Hok linked Hin)
    as (wa & (Ha & _) & Hoka & (_ & Hg)).
  apply (proj1 (Hg _)). apply propAccessed_records; [|exact Hoka].
  destruct Ha as (_ & _ & _ & _ & -> & _). destruct HR1 as (_ & _ & _ & _ & -> & _).
  exact Ht.
Qed.

(** On the linked stores of the scenario, reading [x] on the source. *)
Lemma X9_access_recorded_and_forwarded_witness :
  let w := run Scenario.linked emptyWorld in
  let w' := run (_propAccessed 10 0 [KStr "x"]) w in
  In [KStr "x"] (_accessedPropsDuringWork (theStore 0 w'))
  /\ In [KStr "y"] (_accessedPropsDuringWork (theStore 1 w')).
Proof.
  intros w w'.
  destruct (X9_access_recorded_and_forwarded 10 0 [KStr "x"] w) as (H1 & _ & H3).
  - vm_compute. lia.
  - vm_compute. reflexivity.
  - split; [exact H1|].
    apply (H3 [mkLinked 1 (KStr "y")] (mkLinked 1 (KStr "y"))).
    + vm_compute. reflexivity.
    + left. reflexivity.
    + vm_compute. lia.
Defined.

(** ** Edits *)

Lemma propEdited_recordEdit (dispatchWorks : StoreRef -> M unit)
  (self : StoreRef -> PropPath -> M unit) (s : StoreRef) (p : PropPath) (w : World) :
  _propEditedWith dispatchWorks self s p w
  = bind (when (negb (_tickRunning (theStore s (recordEdit s p w)))) (dispatchWorks s))
      (fun _ => bind (linksOf s p) (fun links =>
         forEachM (fun linked =>
           self (targetReactive linked) (targetPropName linked :: tl p)) links))
      (recordEdit s p w).
Proof.
  unfold _propEditedWith, recordEdit.
  unfold bind at 1. cbn [emit]. unfold bind at 1. cbn [ofStore].
  destruct (_propPathExistsIn p
              (_editedPropsDuringTick (theStore s (addEvent (EvEdited s p) w))));
    unfold bind at 1; cbn [negb when ret modStore];
    unfold bind at 1; cbn [ofStore];
    match goal with
    | |- context [_propPathExistsIn p (_editedPropsDuringWork (theStore s ?x))] =>
        destruct (_propPathExistsIn p (_editedPropsDuringWork (theStore s x)))
    end;
    unfold bind at 1; cbn [negb when ret modStore];
    unfold bind at 1; cbn [ofStore]; reflexivity.
Qed.

Lemma recordEdit_facts (s : StoreRef) (p : PropPath) (w : World) :
  s < List.length (stores w) ->
  let w' := recordEdit s p w in
  trace w' = trace w ++ [EvEdited s p]
  /\ works w' = works w /\ proxies w' = proxies w /\ attached w' = attached w
  /\ _editedPropsDuringTick (theStore s w')
     = pushNew p (_editedPropsDuringTick (theStore s w))
  /\ _editedPropsDuringWork (theStore s w')
     = pushNew p (_editedPropsDuringWork (theStore s w))
  /\ set_editedPropsDuringTick (set_editedPropsDuringWork (theStore s w') []) []
     = set_editedPropsDuringTick (set_editedPropsDuringWork (theStore s w) []) []
  /\ forall t, t <> s -> theStore t w' = theStore t w.
Proof.
  intros Hs w'. unfold w', recordEdit, pushNew.
  set (w0 := addEvent (EvEdited s p) w).
  assert (theStore s w0 = theStore s w) as E0 by reflexivity.
  assert (s < List.length (stores w0)) as L0 by exact Hs.
  assert (s < List.length (stores (updStore s (fun r =>
            set_editedPropsDuringTick r (_editedPropsDuringTick r ++ [p])) w0))) as L1
    by (unfold updStore; cbn [stores]; rewrite length_list_set; exact L0).
  rewrite E0.
  destruct (_propPathExistsIn p (_editedPropsDuringTick (theStore s w))) eqn:Et;
    rewrite ?theStore_updStore_same by assumption; rewrite ?E0;
    cbn [set_editedPropsDuringTick _editedPropsDuringWork];
    destruct (_propPathExistsIn p (_editedPropsDuringWork (theStore s w))) eqn:Ew;
    repeat apply conj;
    try (intros t Ht; now rewrite ?theStore_updStore_other by auto);
    rewrite ?theStore_updStore_same by assumption; rewrite ?E0;
    try reflexivity.
Qed.

Lemma propEdited_inside_tick (fuel : nat) (s : StoreRef) (p : PropPath) (w : World) :
  s < List.length (stores w) ->
  _tickRunning (theStore s w) = true ->
  assoc_get pkey_eqb (firstKey p) (_linkedPropInvalidations (theStore s w)) = None ->
  _propEdited (S fuel) s p w = (recordEdit s p w, Ok tt).
Proof.
  intros Hs Hrun Hlinks.
  pose proof (recordEdit_facts s p w Hs) as Hfacts. cbv zeta in Hfacts.
  destruct Hfacts as (_ & _ & _ & _ & _ & _ & F7 & _).
  assert (_tickRunning (theStore s (recordEdit s p w)) = true) as Hrun'.
  { apply (f_equal _tickRunning) in F7. cbn in F7. now rewrite F7. }
  assert (_linkedPropInvalidations (theStore s (recordEdit s p w))
          = _linkedPropInvalidations (theStore s w)) as Hl'.
  { apply (f_equal _linkedPropInvalidations) in F7. exact F7. }
  cbn [_propEdited]. rewrite propEdited_recordEdit, Hrun'.
  unfold bind at 1. cbn [negb when ret]. unfold bind at 1. unfold linksOf.
  cbn [ofStore]. rewrite Hl', Hlinks. reflexivity.
Qed.

(** X10.  An edit made while the tick of the store is running starts no
    tick: for a path of plain keys whose first key has no link, it returns
    having recorded the path in the tick buffer and in the write buffer (once
    each) and nothing else; no Work is dispatched, no dependency set and no
    value changes.  (On a first key that names a member of
    [Object.prototype], [_linkedPropInvalidations[key]?.forEach] finds the
    inherited member and throws; such paths are left out.) *)
Theorem X10_edit_inside_tick (fuel : nat) (s : StoreRef) (p : PropPath) (w : World) :
  s < List.length (stores w) ->
  plainPath p = true ->
  _tickRunning (theStore s w) = true ->
  assoc_get pkey_eqb (firstKey p) (_linkedPropInvalidations (theStore s w)) = None ->
  let w' := run (_propEdited (S fuel) s p) w in
  outcome (_propEdited (S fuel) s p) w = Ok tt
  /\ trace w' = trace w ++ [EvEdited s p]
  /\ works w' = works w /\ proxies w' = proxies w /\ attached w' = attached w
  /\ _editedPropsDuringTick (theStore s w')
     = pushNew p (_editedPropsDuringTick (theStore s w))
  /\ _editedPropsDuringWork (theStore s w')
     = pushNew p (_editedPropsDuringWork (theStore s w))
  /\ set_editedPropsDuringTick (set_editedPropsDuringWork (theStore s w') []) []
     = set_editedPropsDuringTick (set_editedPropsDuringWork (theStore s w) []) []
  /\ forall t, t <> s -> theStore t w' = theStore t w.
Proof.
  intros Hs _ Hrun Hlinks w'.
  pose proof (recordEdit_facts s p w Hs) as Hfacts. cbv zeta in Hfacts.
  unfold w', run, outcome.
  rewrite (propEdited_inside_tick fuel s p w Hs Hrun Hlinks). cbn [fst snd].
  split; [reflexivity|exact Hfacts].
Qed.

(** Inside a tick of store 0 of the rainbow scenario, an edit of [blue]. *)
Lemma X10_edit_inside_tick_witness :
  let w := updStore 0 (fun r => set_tickRunning r true) (run Scenario.rainbow emptyWorld) in
  let w' := run (_propEdited 5 0 [KStr "blue"]) w in
  outcome (_propEdited 5 0 [KStr "blue"]) w = Ok tt
  /\ trace w' = trace w ++ [EvEdited 0 [KStr "blue"]]
  /\ works w' = works w.
Proof.
  intros w w'.
  destruct (X10_edit_inside_tick 4 0 [KStr "blue"] w) as (H1 & H2 & H3 & _).
  - vm_compute. lia.
  - reflexivity.
  - reflexivity.
  - reflexivity.
  - now repeat split.
Defined.

(** ** What assignments, touches and ticks leave alone *)

Lemma sameHandlers_refl (w : World) : sameHandlers w w.
Proof. split; auto. Qed.

Lemma sameHandlers_trans (a b c : World) :
  sameHandlers a b -> sameHandlers b c -> sameHandlers a c.
Proof.
  intros (H1 & H2) (K1 & K2). split; [congruence|]. intro r. now rewrite K2.
Qed.

Lemma sameHandlers_works (w w' : World) : works w' = works w -> sameHandlers w w'.
Proof. intro H. unfold sameHandlers, theWork. rewrite H. auto. Qed.

Lemma sameHandlers_dependencies (r : WorkRef) (g : Work -> list PropPath) (w : World) :
  sameHandlers w (updWork r (fun x => mkWork (_handler x) (g x)) w).
Proof.
  split; [apply length_list_set|]. intro r'.
  destruct (Nat.eq_dec r r') as [<-|Hne].
  - destruct (Nat.lt_ge_cases r (List.length (works w))) as [Hlt|Hge].
    + now rewrite theWork_updWork_same.
    + unfold theWork, updWork; cbn [works]. now rewrite list_set_beyond.
  - unfold theWork, updWork; cbn [works]. now rewrite nth_list_set_other.
Qed.

Lemma engine_handlers (fuel : nat) :
  (forall s p, keepsRel sameHandlers (_propEdited fuel s p))
  /\ (forall s, keepsRel sameHandlers (_dispatchWorks fuel s))
  /\ (forall s work, keepsRel sameHandlers (_dispatchWork fuel s work))
  /\ (forall work s, keepsRel sameHandlers (dispatch fuel work s))
  /\ (forall s e, keepsRel sameHandlers (eval fuel s e))
  /\ (forall s b, keepsRel sameHandlers (exec fuel s b))
  /\ (forall s k, keepsRel sameHandlers (computedGet fuel s k)).
Proof.
  apply keeps_engine;
    try exact sameHandlers_refl; try exact sameHandlers_trans;
    try exact sameHandlers_dependencies;
    intros; now apply sameHandlers_works.
Qed.

(** X11.  A touch or a tick defines, removes and replaces nothing: the
    accessors of [prop] and [computed], the registries of Works, the
    listeners and the links of every store stay as they are, and so do the
    number of Works and the handler of each; the same holds for the handlers
    under an assignment.  Only values, buffers and dependency sets move. *)
Theorem X11_engine_keeps_definitions :
  (forall fuel s arg w,
      sameNamespaces w (run (touch fuel s arg) w)
      /\ sameHandlers w (run (touch fuel s arg) w))
  /\ (forall fuel s w,
        sameNamespaces w (run (_dispatchWorks fuel s) w)
        /\ sameHandlers w (run (_dispatchWorks fuel s) w))
  /\ (forall fuel s name keys value w,
        sameHandlers w (run (assign fuel s name keys value) w)).
Proof.
  split; [|split].
  - intros fuel s [n|p] w; split;
      first [apply (proj1 (engine_namespaces fuel)) | apply (proj1 (engine_handlers fuel))].
  - intros fuel s w. split.
    + apply (proj1 (proj2 (engine_namespaces fuel))).
    + apply (proj1 (proj2 (engine_handlers fuel))).
  - intros fuel s name keys value. unfold assign.
    apply (keeps_assignWith sameHandlers sameHandlers_refl sameHandlers_trans).
    + intros; now apply sameHandlers_works.
    + intros; now apply sameHandlers_works.
    + intros. apply keeps_propAccessed;
        [exact sameHandlers_refl|exact sameHandlers_trans|].
      intros; now apply sameHandlers_works.
    + intros. apply (proj1 (engine_handlers fuel)).
Qed.

(** ** Definitions of Works *)

Lemma traceGrows_refl (w : World) : traceGrows w w.
Proof. exists []. now rewrite app_nil_r. Qed.

Lemma traceGrows_trans (a b c : World) : traceGrows a b -> traceGrows b c -> traceGrows a c.
Proof. intros [r1 H1] [r2 H2]. exists (r1 ++ r2). now rewrite H2, H1, app_assoc. Qed.

Lemma traceGrows_trace (w w' : World) : trace w' = trace w -> traceGrows w w'.
Proof. intro H. exists []. now rewrite app_nil_r. Qed.

Lemma engine_trace (fuel : nat) :
  (forall s p, keepsRel traceGrows (_propEdited fuel s p))
  /\ (forall s, keepsRel traceGrows (_dispatchWorks fuel s))
  /\ (forall s work, keepsRel traceGrows (_dispatchWork fuel s work))
  /\ (forall work s, keepsRel traceGrows (dispatch fuel work s))
  /\ (forall s e, keepsRel traceGrows (eval fuel s e))
  /\ (forall s b, keepsRel traceGrows (exec fuel s b))
  /\ (forall s k, keepsRel traceGrows (computedGet fuel s k)).
Proof.
  apply keeps_engine;
    try exact traceGrows_refl; try exact traceGrows_trans;
    try (intros; now apply traceGrows_trace).
  intros e w. now exists [e].
Qed.



(** ** The set trap of a proxy *)



(** What [_dispatchWork] does once the handler has returned keeps the log. *)
Lemma dispatchWork_tail_trace (s : StoreRef) (work : WorkRef) :
  keepsRel traceGrows
    (accessedProps <- ofStore s _accessedPropsDuringWork ;;
     modStore s (fun r => set_accessedPropsDuringWork r []) ;;
     editedProps <- ofStore s _editedPropsDuringWork ;;
     modStore s (fun r => set_editedPropsDuringWork r []) ;;
     modWork work WorkM.resetDependencies ;;
     forEachM (fun dependency => modWork work (WorkM.declareDependency dependency))
       (filter (fun propPath => negb (_propPathExistsIn propPath editedProps))
          accessedProps) ;;
     modStore s (fun r => set_successiveStack r (_successiveStack r ++ [work]))).
Proof.
  pose proof traceGrows_refl as Hr. pose proof traceGrows_trans as Ht.
  apply keeps_bind; [assumption|now apply keeps_ofStore|intro].
  apply keeps_bind; [assumption|intro w; now apply traceGrows_trace|intro].
  apply keeps_bind; [assumption|now apply keeps_ofStore|intro].
  apply keeps_bind; [assumption|intro w; now apply traceGrows_trace|intro].
  apply keeps_bind; [assumption|intro w; now apply traceGrows_trace|intro].
  apply keeps_bind; [assumption| |intros ? w; now apply traceGrows_trace].
  apply keeps_forEachM; [assumption|assumption|]. intros d w. now apply traceGrows_trace.
Qed.

Lemma keeps_bind_from (R : World -> World -> Prop) {A B : Type} (c : M A) (k : A -> M B)
  (w0 w : World) :
  (forall a b c', R a b -> R b c' -> R a c') ->
  R w0 (fst (c w)) -> (forall a, keepsRel R (k a)) -> R w0 (fst (bind c k w)).
Proof.
  intros Ht Hc Hk. unfold bind. destruct (c w) as [w' [a|e]]; simpl in *; [|assumption].
  eapply Ht; [exact Hc|apply Hk].
Qed.

(** A dispatch of a Work whose handler is a plain Work body logs the
    dispatch and the call of the handler before anything else. *)
Lemma dispatchWork_trace (fuel : nat) (s : StoreRef) (work : WorkRef) (body : list Stmt)
  (w : World) :
  _handler (theWork work w) = HWork body ->
  exists rest,
    trace (run (_dispatchWork (S (S fuel)) s work) w)
    = trace w ++ EvDispatchWork s work :: EvHandler work :: rest.
Proof.
  intro Hh. unfold run. cbn [_dispatchWork]. unfold _dispatchWorkWith.
  unfold bind at 1. cbn [emit]. unfold bind at 1. cbn [modStore].
  unfold bind at 1. cbn [modStore].
  match goal with
  | |- context [bind (dispatch (S fuel) work s) ?k ?w0] =>
      assert (traceGrows (addEvent (EvHandler work) w0)
                (fst (bind (dispatch (S fuel) work s) k w0))) as [rest Hrest]
  end.
  { apply (keeps_bind_from traceGrows).
    - exact traceGrows_trans.
    - cbn [dispatch]. unfold dispatchWith. unfold bind at 1. cbn [emit].
      unfold bind at 1. cbn [ofWork].
      match goal with
      | |- context [_handler ?x] => change (_handler x) with (_handler (theWork work w))
      end.
      rewrite Hh. apply (proj1 (proj2 (proj2 (proj2 (proj2 (proj2 (engine_trace fuel))))))).
    - intro a. apply dispatchWork_tail_trace. }
  exists rest. rewrite Hrest. cbn [addEvent trace updStore].
  now rewrite <- !app_assoc.
Qed.

(** X12.  [defineWork] registers before it runs: whatever the first run of
    the handler does, and also when it throws, the Work is the last of the
    store's registry and of the heap, with the handler given; the older Works
    keep their handlers, no accessor, listener or link and no registry of
    another store changes; and the first thing done is the dispatch of the
    new Work, which calls its handler. *)
Theorem X12_defineWork_registers (fuel : nat) (s : StoreRef) (body : list Stmt) (w : World) :
  s < List.length (stores w) ->
  let work := List.length (works w) in
  let w' := run (defineWork (S (S fuel)) s body) w in
  List.length (works w') = S work
  /\ _handler (theWork work w') = HWork body
  /\ _works (theStore s w') = _works (theStore s w) ++ [work]
  /\ (forall r, r < work -> _handler (theWork r w') = _handler (theWork r w))
  /\ (forall t, prop (theStore t w') = prop (theStore t w)
                /\ computed (theStore t w') = computed (theStore t w)
                /\ _eventListeners (theStore t w') = _eventListeners (theStore t w)
                /\ _linkedPropInvalidations (theStore t w')
                   = _linkedPropInvalidations (theStore t w)
                /\ (t <> s -> _works (theStore t w') = _works (theStore t w)))
  /\ exists rest, trace w' = trace w ++ EvDispatchWork s work :: EvHandler work :: rest.
Proof.
  intros Hs work w'.
  set (w1 := mkWorld (stores w) (works w ++ [mkWork (HWork body) []]) (proxies w)
               (attached w) (trace w)).
  set (w2 := updStore s (fun r => set_works r (_works r ++ [work])) w1).
  assert (w' = run (_dispatchWork (S (S fuel)) s work) w2) as E by reflexivity.
  assert (theWork work w2 = mkWork (HWork body) []) as Hnew.
  { unfold theWork, w2, updStore, w1; cbn [works]. unfold work. apply nth_middle. }
  destruct (proj1 (proj2 (proj2 (engine_handlers (S (S fuel))))) s work w2) as (Hl & Hh).
  destruct (proj1 (proj2 (proj2 (engine_namespaces (S (S fuel))))) s work w2)
    as (_ & _ & Hn).
  fold (run (_dispatchWork (S (S fuel)) s work) w2) in Hl, Hh, Hn. rewrite <- E in Hl, Hh, Hn.
  repeat apply conj.
  - rewrite Hl. unfold w2, updStore, w1; cbn [works]. rewrite length_app. simpl.
    unfold work. lia.
  - now rewrite Hh, Hnew.
  - destruct (Hn s) as (_ & _ & -> & _). unfold w2.
    now rewrite theStore_updStore_same by exact Hs.
  - intros r Hr. rewrite Hh. unfold theWork, w2, updStore, w1; cbn [works].
    now rewrite app_nth1 by exact Hr.
  - intro t. destruct (Hn t) as (-> & -> & Hw & -> & ->). unfold w2.
    repeat apply conj; try (now apply (field_updStore _ _ s t w1)).
    intro Hne. rewrite Hw. unfold w2. now rewrite theStore_updStore_other by auto.
  - rewrite E. destruct (dispatchWork_trace fuel s work body w2) as [rest Hrest].
    + now rewrite Hnew.
    + exists rest. exact Hrest.
Qed.

(** A Work that logs a message, defined on the store of the rainbow
    scenario. *)
Lemma X12_defineWork_registers_witness :
  let w := run Scenario.rainbow emptyWorld in
  let w' := run (defineWork 10 0 [SLog "again"]) w in
  List.length (works w') = S (List.length (works w))
  /\ _handler (theWork (List.length (works w)) w') = HWork [SLog "again"].
Proof.
  intros w w'.
  destruct (X12_defineWork_registers 8 0 [SLog "again"] w) as (H1 & H2 & _).
  - vm_compute. lia.
  - split; [exact H1|exact H2].
Defined.

(** ** A tick that throws *)

Section Running.
Variable s0 : StoreRef.

Lemma runningKept_refl (w : World) : runningKept s0 w w.
Proof. intro H. exact H. Qed.

Lemma runningKept_trans (a b c : World) :
  runningKept s0 a b -> runningKept s0 b c -> runningKept s0 a c.
Proof. intros H1 H2 H. auto. Qed.

Lemma runningKept_field (t : StoreRef) (g : Reactive -> Reactive) (w : World) :
  (forall r, _tickRunning (g r) = _tickRunning r) -> runningKept s0 w (updStore t g w).
Proof. intros Hg H. now rewrite (field_updStore _tickRunning g t s0 w Hg). Qed.

Lemma runningKept_other (t : StoreRef) (g : Reactive -> Reactive) (w : World) :
  t <> s0 -> runningKept s0 w (updStore t g w).
Proof. intros Hne H. now rewrite theStore_updStore_other. Qed.

Lemma runningKept_stores (w w' : World) : stores w' = stores w -> runningKept s0 w w'.
Proof. intros Hs H. unfold theStore. now rewrite Hs. Qed.

Lemma running_propEditedWith (dispatchWorks : StoreRef -> M unit)
  (self : StoreRef -> PropPath -> M unit) (s : StoreRef) (p : PropPath) :
  (forall s', s' <> s0 -> keepsRel (runningKept s0) (dispatchWorks s')) ->
  (forall s' p', keepsRel (runningKept s0) (self s' p')) ->
  keepsRel (runningKept s0) (_propEditedWith dispatchWorks self s p).
Proof.
  intros Hd Hs. unfold _propEditedWith.
  pose proof runningKept_refl as Hr. pose proof runningKept_trans as Ht.
  assert (keepsRel (runningKept s0)
            (links <- linksOf s p ;;
             forEachM (fun linked =>
               self (targetReactive linked) (targetPropName linked :: tl p)) links))
    as Hrest.
  { apply keeps_bind; [assumption|now apply keeps_linksOf|intro].
    apply keeps_forEachM; [assumption|assumption|]. intro. apply Hs. }
  apply keeps_bind; [assumption|intro w; now apply runningKept_stores|intro].
  apply keeps_bind; [assumption|now apply keeps_ofStore|intro].
  apply keeps_bind; [assumption| |intro].
  { apply keeps_when; [assumption|]. intro w. now apply runningKept_field. }
  apply keeps_bind; [assumption|now apply keeps_ofStore|intro].
  apply keeps_bind; [assumption| |intro].
  { apply keeps_when; [assumption|]. intro w. now apply runningKept_field. }
  intros w Hrun. unfold bind at 1. cbn [ofStore].
  destruct (Nat.eq_dec s s0) as [->|Hne].
  - rewrite Hrun. cbn [negb when]. unfold bind at 1. cbn [ret]. now apply Hrest.
  - refine (keeps_bind (runningKept s0) Ht _ _ _ _ w Hrun).
    + apply keeps_when; [assumption|]. now apply Hd.
    + intro. exact Hrest.
Qed.

Lemma running_dispatchWorksWith (dispatchWork : StoreRef -> WorkRef -> M unit)
  (self : StoreRef -> M unit) (s : StoreRef) :
  s <> s0 ->
  (forall s' work, keepsRel (runningKept s0) (dispatchWork s' work)) ->
  keepsRel (runningKept s0) (self s) ->
  keepsRel (runningKept s0) (_dispatchWorksWith dispatchWork self s).
Proof.
  intros Hne Hd Hs. unfold _dispatchWorksWith.
  pose proof runningKept_refl as Hr. pose proof runningKept_trans as Ht.
  apply keeps_bind; [assumption|intro w; now apply runningKept_other|intro].
  apply keeps_bind; [assumption|now apply keeps_ofStore|intro].
  apply keeps_bind; [assumption|intro w; now apply runningKept_other|intro].
  apply keeps_bind; [assumption|intro w; apply Hr|intro].
  apply keeps_bind; [assumption|now apply keeps_ofStore|intro].
  destruct (_checkLoopInStack _); [now apply keeps_throw|].
  apply keeps_bind; [assumption| |intro].
  { apply keeps_forEachM; [assumption|assumption|]. intro.
    apply keeps_forEachM; [assumption|assumption|]. intro. apply Hd. }
  apply keeps_bind; [assumption|intro w; now apply runningKept_other|intro].
  apply keeps_bind; [assumption|now apply keeps_ofStore|intro].
  destruct (nonempty _); [exact Hs|].
  intro w. now apply runningKept_other.
Qed.

Lemma engine_running (fuel : nat) :
  (forall s p, keepsRel (runningKept s0) (_propEdited fuel s p))
  /\ (forall s, s <> s0 -> keepsRel (runningKept s0) (_dispatchWorks fuel s))
  /\ (forall s work, keepsRel (runningKept s0) (_dispatchWork fuel s work))
  /\ (forall work s, keepsRel (runningKept s0) (dispatch fuel work s))
  /\ (forall s e, keepsRel (runningKept s0) (eval fuel s e))
  /\ (forall s b, keepsRel (runningKept s0) (exec fuel s b))
  /\ (forall s k, keepsRel (runningKept s0) (computedGet fuel s k)).
Proof.
  pose proof runningKept_refl as Hr. pose proof runningKept_trans as Ht.
  assert (forall s g w, runningKept s0 w
            (updStore s (fun r => set_accessedPropsDuringWork r (g r)) w)) as Ha
    by (intros; now apply runningKept_field).
  assert (forall s g w, runningKept s0 w
            (updStore s (fun r => set_editedPropsDuringWork r (g r)) w)) as He
    by (intros; now apply runningKept_field).
  assert (forall s g w, runningKept s0 w
            (updStore s (fun r => set_successiveStack r (g r)) w)) as Hk
    by (intros; now apply runningKept_field).
  assert (forall s g w, runningKept s0 w
            (updStore s (fun r => set_props r (g r)) w)) as Hp
    by (intros; now apply runningKept_field).
  assert (forall s g w, runningKept s0 w
            (updStore s (fun r => set_computeds r (g r)) w)) as Hc
    by (intros; now apply runningKept_field).
  assert (forall r g w, runningKept s0 w
            (updWork r (fun x => mkWork (_handler x) (g x)) w)) as Hw
    by (intros; now apply runningKept_stores).
  assert (forall h w, runningKept s0 w (set_proxies h w)) as Hx
    by (intros; now apply runningKept_stores).
  assert (forall e w, runningKept s0 w (addEvent e w)) as Hv
    by (intros; now apply runningKept_stores).
  induction fuel as [|f (IH1 & IH2 & IH3 & IH4 & IH5 & IH6 & IH7)].
  - repeat split; intros; now apply keeps_throw.
  - repeat split; intros; simpl.
    + now apply running_propEditedWith.
    + apply running_dispatchWorksWith; auto.
    + now apply keeps_dispatchWorkWith.
    + apply keeps_dispatchWith; auto.
      intros. apply keeps_propGetWith; auto. intros. now apply keeps_propAccessed.
    + apply keeps_evalWith; auto. intros. now apply keeps_propAccessed.
    + apply keeps_execWith; auto. intros. now apply keeps_propAccessed.
    + apply keeps_computedGetWith; auto. intros. now apply keeps_getDeep.
Qed.
End Running.

Lemma dispatchWorks_throws_running (s : StoreRef) (fuel : nat) :
  forall w w' e,
    s < List.length (stores w) ->
    _dispatchWorks fuel s w = (w', Throw e) -> e <> OutOfFuel ->
    _tickRunning (theStore s w') = true.
Proof.
  induction fuel as [|f IH]; intros w w' e Hs H He.
  - cbn in H. injection H as _ <-. now contradiction He.
  - cbn [_dispatchWorks] in H. unfold _dispatchWorksWith in H.
    unfold bind at 1 2 3 4 5 in H. cbn [modStore ofStore] in H.
    set (w1 := updStore s (fun r => set_tickRunning r true) w) in H.
    set (w2 := updStore s (fun r => set_editedPropsDuringTick r []) w1) in H.
    assert (s < List.length (stores w1)) as Hs1
      by (unfold w1, updStore; cbn [stores]; now rewrite length_list_set).
    assert (_tickRunning (theStore s w2) = true) as Hrun.
    { unfold w2. rewrite (field_updStore _tickRunning) by reflexivity.
      unfold w1. now rewrite theStore_updStore_same. }
    assert (List.length (stores w2) = List.length (stores w)) as Hl2
      by (unfold w2, w1, updStore; cbn [stores]; now rewrite !length_list_set).
    destruct (_checkLoopInStack _).
    + injection H as <- _. exact Hrun.
    + unfold bind at 1 in H.
      match type of H with
      | context [forEachM ?g ?l w2] =>
          assert (runningKept s w2 (fst (forEachM g l w2))) as Hk;
          [|assert (sameNamespaces w2 (fst (forEachM g l w2))) as Hn;
            [|destruct (forEachM g l w2) as [w3 [[]|e']]]]
      end.
      * apply (keeps_forEachM (runningKept s) (runningKept_refl s) (runningKept_trans s)).
        intro. apply (keeps_forEachM (runningKept s) (runningKept_refl s)
                        (runningKept_trans s)).
        intro. apply (proj1 (proj2 (proj2 (engine_running s f)))).
      * apply (keeps_forEachM sameNamespaces sameNamespaces_refl sameNamespaces_trans).
        intro. apply (keeps_forEachM sameNamespaces sameNamespaces_refl
                        sameNamespaces_trans).
        intro. apply (proj1 (proj2 (proj2 (engine_namespaces f)))).
      * cbn [fst] in Hk, Hn. unfold bind at 1 2 in H. cbn [modStore ofStore] in H.
        destruct (nonempty _).
        -- apply (IH _ _ _) in H; [exact H| |exact He].
           unfold updStore; cbn [stores]. rewrite length_list_set.
           destruct Hn as (_ & -> & _). now rewrite Hl2.
        -- discriminate.
      * cbn [fst] in Hk. injection H as <- _. now apply Hk.
Qed.

(** X13.  Nothing resets [_tickRunning] when a tick is left by an
    exception: after a tick of a store has thrown, whether [Infinite loop
    detected] or an error of a handler, the store stays marked as running, so
    from then on an edit of a path of plain keys whose first key has no link
    is recorded in the buffers but runs no Work. *)
Theorem X13_thrown_tick_stays_running (fuel : nat) (s : StoreRef) (w : World) (e : Error) :
  s < List.length (stores w) ->
  outcome (_dispatchWorks fuel s) w = Throw e -> e <> OutOfFuel ->
  let w1 := run (_dispatchWorks fuel s) w in
  _tickRunning (theStore s w1) = true
  /\ forall fuel' p,
       plainPath p = true ->
       assoc_get pkey_eqb (firstKey p) (_linkedPropInvalidations (theStore s w1)) = None ->
       _propEdited (S fuel') s p w1 = (recordEdit s p w1, Ok tt)
       /\ works (recordEdit s p w1) = works w1
       /\ trace (recordEdit s p w1) = trace w1 ++ [EvEdited s p].
Proof.
  intros Hs Ho He w1.
  assert (_tickRunning (theStore s w1) = true) as Hrun.
  { apply (dispatchWorks_throws_running s fuel w w1 e Hs); [|exact He].
    unfold w1, run. unfold outcome in Ho.
    destruct (_dispatchWorks fuel s w) as [w' o]. simpl in *. now subst. }
  assert (s < List.length (stores w1)) as Hs1.
  { destruct (proj1 (proj2 (engine_namespaces fuel)) s w) as (_ & Hl & _).
    fold (run (_dispatchWorks fuel s) w) in Hl. fold w1 in Hl. now rewrite Hl. }
  split; [exact Hrun|]. intros fuel' p _ Hlinks.
  pose proof (recordEdit_facts s p w1 Hs1) as Hfacts. cbv zeta in Hfacts.
  destruct Hfacts as (F1 & F2 & _).
  split; [now apply propEdited_inside_tick|]. split; assumption.
Qed.

(** The feedback pair that never settles: the tick started by an edit of
    [a] throws, and the store is left running. *)
Lemma X13_thrown_tick_stays_running_witness :
  let w := recordEdit 0 [KStr "a"]
             (run (setProp 0 (KStr "a") (SrcNum 1))
                (run Scenario.settle (run Scenario.pairForever emptyWorld))) in
  outcome (_dispatchWorks 1000 0) w = Throw InfiniteLoopDetected
  /\ _tickRunning (theStore 0 (run (_dispatchWorks 1000 0) w)) = true.
Proof.
  intro w.
  assert (outcome (_dispatchWorks 1000 0) w = Throw InfiniteLoopDetected) as Ho
    by (vm_compute; reflexivity).
  split; [exact Ho|].
  apply (X13_thrown_tick_stays_running 1000 0 w InfiniteLoopDetected).
  - vm_compute. lia.
  - exact Ho.
  - discriminate.
Defined.

(** ** The dependencies a dispatch leaves *)

Lemma declare_frame (work : WorkRef) (deps : list PropPath) :
  forall w,
    let w' := fst (forEachM (fun d => modWork work (WorkM.declareDependency d)) deps w) in
    stores w' = stores w /\ trace w' = trace w /\ proxies w' = proxies w
    /\ attached w' = attached w
    /\ forall r, r <> work -> theWork r w' = theWork r w.
Proof.
  induction deps as [|d deps IH]; intro w; simpl.
  - repeat split.
  - unfold bind. cbn [modWork].
    destruct (IH (updWork work (WorkM.declareDependency d) w)) as (H1 & H2 & H3 & H4 & H5).
    destruct (forEachM _ deps _) as [w' o]. simpl in *.
    repeat apply conj; try assumption.
    intros r Hr. rewrite H5 by assumption.
    unfold theWork, updWork; cbn [works]. now rewrite nth_list_set_other by auto.
Qed.

(** X14.  When the handler of a dispatched Work returns, the Work's
    dependencies are replaced by exactly the paths that the read buffer of
    the store holds at that moment and the write buffer does not, in the
    order of the read buffer.  (The buffers are those of the store, not of
    the run: a dispatch nested in the run of the handler empties them, so
    they hold what was read and written since the last dispatch began.)  The
    two buffers are then empty again, the Work is pushed on the successive
    stack, and no other Work and no value changes.  When the handler throws,
    none of this is done: the exception leaves [_dispatchWork] with the world
    as the handler left it. *)
Theorem X14_dispatchWork_dependencies (fuel : nat) (s : StoreRef) (work : WorkRef)
  (w w1 : World) :
  s < List.length (stores w1) -> work < List.length (works w1) ->
  (dispatch fuel work s (beforeHandler s work w) = (w1, Ok tt) ->
   let w' := run (_dispatchWork (S fuel) s work) w in
   let reads := _accessedPropsDuringWork (theStore s w1) in
   let edits := _editedPropsDuringWork (theStore s w1) in
   outcome (_dispatchWork (S fuel) s work) w = Ok tt
   /\ WorkM.getDependencies (theWork work w')
      = filter (fun p => negb (_propPathExistsIn p edits)) reads
   /\ (forall d, In d (WorkM.getDependencies (theWork work w'))
                 <-> In d reads /\ ~ In d edits)
   /\ _handler (theWork work w') = _handler (theWork work w1)
   /\ (forall r, r <> work -> theWork r w' = theWork r w1)
   /\ theStore s w'
      = set_successiveStack
          (set_editedPropsDuringWork (set_accessedPropsDuringWork (theStore s w1) []) [])
          (_successiveStack (theStore s w1) ++ [work])
   /\ (forall t, t <> s -> theStore t w' = theStore t w1)
   /\ trace w' = trace w1 /\ proxies w' = proxies w1)
  /\ (forall e,
        dispatch fuel work s (beforeHandler s work w) = (w1, Throw e) ->
        _dispatchWork (S fuel) s work w = (w1, Throw e)).
Proof.
  intros Hs Hw. split.
  - intros Hd w' reads edits. unfold w', run, outcome.
    cbn [_dispatchWork]. unfold _dispatchWorkWith, bind. cbn [emit modStore].
    unfold beforeHandler in Hd. rewrite Hd. cbn [ofStore modStore modWork].
    rewrite (field_updStore _editedPropsDuringWork
               (fun r => set_accessedPropsDuringWork r [])) by reflexivity.
    fold reads. fold edits.
    set (deps := filter (fun p => negb (_propPathExistsIn p edits)) reads).
    set (wa := updStore s (fun r => set_accessedPropsDuringWork r []) w1).
    set (wb := updStore s (fun r => set_editedPropsDuringWork r []) wa).
    set (wc := updWork work WorkM.resetDependencies wb).
    assert (work < List.length (works wc)) as Hwc
      by (unfold wc, updWork; cbn [works]; now rewrite length_list_set).
    destruct (declare_all work deps wc Hwc) as (Hok & Hdeps).
    destruct (declare_frame work deps wc) as (F1 & F2 & F3 & F4 & F5).
    assert (_handler (theWork work
              (fst (forEachM (fun d => modWork work (WorkM.declareDependency d)) deps wc)))
            = _handler (theWork work wc)) as Hh.
    { clear. generalize wc. induction deps as [|d deps IH]; intro w0; [reflexivity|].
      simpl. unfold bind. cbn [modWork].
      specialize (IH (updWork work (WorkM.declareDependency d) w0)).
      destruct (forEachM _ deps _) as [w' o]. simpl in *. rewrite IH.
      destruct (Nat.lt_ge_cases work (List.length (works w0))) as [Hlt|Hge].
      - now rewrite theWork_updWork_same.
      - unfold theWork, updWork; cbn [works]. now rewrite list_set_beyond. }
    destruct (forEachM _ deps wc) as [wd o]. cbn [fst snd] in *. subst o.
    cbn [modStore fst snd].
    assert (theWork work wc = WorkM.resetDependencies (theWork work w1)) as Ewc
      by (unfold wc; now rewrite theWork_updWork_same).
    assert (WorkM.getDependencies
              (theWork work (updStore s (fun r =>
                 set_successiveStack r (_successiveStack r ++ [work])) wd)) = deps) as Ed.
    { change (theWork work (updStore s _ wd)) with (theWork work wd).
      rewrite Hdeps, Ewc. reflexivity. }
    assert (s < List.length (stores wa)) as Hsa
      by (unfold wa, updStore; cbn [stores]; now rewrite length_list_set).
    assert (theStore s wd
            = set_editedPropsDuringWork (set_accessedPropsDuringWork (theStore s w1) []) [])
      as Es.
    { unfold theStore at 1. rewrite F1. change (stores wc) with (stores wb).
      fold (theStore s wb). unfold wb. rewrite theStore_updStore_same by exact Hsa.
      unfold wa. now rewrite theStore_updStore_same by exact Hs. }
    repeat apply conj.
    + reflexivity.
    + exact Ed.
    + intro d. rewrite Ed. unfold deps. rewrite filter_In, negb_true_iff.
      now rewrite propPathExistsIn_false.
    + change (theWork work (updStore s _ wd)) with (theWork work wd).
      rewrite Hh, Ewc. reflexivity.
    + intros r Hr. change (theWork r (updStore s _ wd)) with (theWork r wd).
      rewrite F5 by assumption. unfold wc, theWork, updWork; cbn [works].
      now rewrite nth_list_set_other by auto.
    + rewrite theStore_updStore_same.
      * now rewrite Es.
      * rewrite F1. change (stores wc) with (stores wb). unfold wb, updStore; cbn [stores].
        now rewrite length_list_set.
    + intros t Ht. rewrite theStore_updStore_other by auto.
      unfold theStore at 1. rewrite F1. change (stores wc) with (stores wb).
      fold (theStore t wb). unfold wb, wa. now rewrite !theStore_updStore_other by auto.
    + cbn [updStore trace]. now rewrite F2.
    + cbn [updStore proxies]. now rewrite F3.
  - intros e Hd. cbn [_dispatchWork]. unfold _dispatchWorkWith, bind. cbn [emit modStore].
    unfold beforeHandler in Hd. now rewrite Hd.
Qed.

(** The first Work of the rainbow scenario, dispatched again. *)
Lemma X14_dispatchWork_dependencies_witness :
  let w := run Scenario.rainbow emptyWorld in
  let w1 := run (dispatch 50 0 0) (beforeHandler 0 0 w) in
  outcome (_dispatchWork 51 0 0) w = Ok tt
  /\ WorkM.getDependencies (theWork 0 (run (_dispatchWork 51 0 0) w))
     = filter (fun p => negb (_propPathExistsIn p (_editedPropsDuringWork (theStore 0 w1))))
         (_accessedPropsDuringWork (theStore 0 w1)).
Proof.
  intros w w1.
  destruct (X14_dispatchWork_dependencies 50 0 0 w w1) as [Hok _].
  - vm_compute. lia.
  - vm_compute. lia.
  - destruct Hok as (H1 & H2 & _).
    + vm_compute. reflexivity.
    + split; [exact H1|exact H2].
Defined.

(** ** Defining a Prop and reading it back *)

Lemma valueAt_pset_same (k : PropertyKey) (v : Value) (l : list (PropertyKey * Value)) :
  valueAt pkey_eqb k (assoc_set pkey_eqb k v l) = v.
Proof.
  unfold valueAt. induction l as [|[k' v'] l IH]; simpl.
  - now rewrite pkey_eqb_refl.
  - destruct (pkey_eqb k k') eqn:E; simpl; rewrite E; [reflexivity|exact IH].
Qed.

Lemma pkey_eqb_neq (a b : PropertyKey) : a <> b -> pkey_eqb a b = false.
Proof.
  intro H. destruct (pkey_eqb a b) eqn:E; [|reflexivity].
  apply pkey_eqb_eq in E. contradiction.
Qed.

Lemma valueAt_pset_other (k k0 : PropertyKey) (v : Value) (l : list (PropertyKey * Value)) :
  k0 <> k -> valueAt pkey_eqb k0 (assoc_set pkey_eqb k v l) = valueAt pkey_eqb k0 l.
Proof.
  intro Hne. unfold valueAt. induction l as [|[k' v'] l IH]; simpl.
  - now rewrite (pkey_eqb_neq _ _ Hne).
  - destruct (pkey_eqb k k') eqn:E; simpl.
    + apply pkey_eqb_eq in E. subst k'. now rewrite (pkey_eqb_neq _ _ Hne).
    + destruct (pkey_eqb k0 k'); [reflexivity|exact IH].
Qed.

Lemma assoc_get_app_other {V : Type} (k k0 : PropertyKey) (a : V)
  (l : list (PropertyKey * V)) :
  k0 <> k -> assoc_get pkey_eqb k0 (l ++ [(k, a)]) = assoc_get pkey_eqb k0 l.
Proof.
  intro Hne. induction l as [|[k' v'] l IH]; simpl.
  - now rewrite (pkey_eqb_neq _ _ Hne).
  - destruct (pkey_eqb k0 k'); [reflexivity|exact IH].
Qed.

Lemma set_proxies_same (w : World) : set_proxies (proxies w) w = w.
Proof. now destruct w. Qed.

(** The world a successful [defineProp] leaves, given the heap and the
    value that its [set] closure produced. *)
Lemma defineProp_world (s : StoreRef) (name : PropName) (value : Source) (w : World) :
  s < List.length (stores w) ->
  inheritedName (toPropertyKey name) = false ->
  hasOwn pkey_eqb (toPropertyKey name) (prop (theStore s w)) = false ->
  isDefined (valueAt pkey_eqb (toPropertyKey name) (_props (theStore s w))) = false ->
  match name with KSym _ => False | _ => True end ->
  let hv := if src_isObject value then _createObjectProxy value s [name] (proxies w)
            else (proxies w, primValue value) in
  defineProp s name value w
  = (updStore s (fun r =>
       set_prop r (prop (theStore s w) ++ [(toPropertyKey name, AccProp name)]))
       (updStore s (fun r =>
          set_props r (assoc_set pkey_eqb (toPropertyKey name) (snd hv) (_props r)))
          (set_proxies (fst hv) w)),
     Ok tt).
Proof.
  intros Hs Hplain Hown Hundef Hname hv.
  assert (defineProp s name value w
          = (setProp s name value ;;
             definePropAccessor s (toPropertyKey name) (AccProp name)) w) as ->.
  { unfold defineProp. unfold bind at 1. cbn [ofStore].
    rewrite (isDefinedAt_plain _ _ Hplain), Hundef.
    destruct name; [reflexivity|reflexivity|contradiction]. }
  unfold bind.
  assert (setProp s name value w
          = (updStore s (fun r =>
               set_props r (assoc_set pkey_eqb (toPropertyKey name) (snd hv) (_props r)))
               (set_proxies (fst hv) w), Ok tt)) as ->.
  { unfold setProp, hv. destruct (src_isObject value).
    - now destruct (_createObjectProxy value s [name] (proxies w)).
    - cbn [fst snd]. now rewrite set_proxies_same. }
  unfold definePropAccessor, defineProperty.
  rewrite (field_updStore prop) by reflexivity.
  change (theStore s (set_proxies (fst hv) w)) with (theStore s w).
  now rewrite Hown.
Qed.

(** X15.  Defining a Prop that the store does not have yet, under a name
    of [plainKey] (no member of [Object.prototype], for which the test of
    [defineProp] answers [Prop already defined] on any store), returns, stores
    the value (a primitive or an instance as it is, a literal as a fresh
    proxy) and installs the accessor, without reporting an edit and without
    touching another Prop, a Work or another store; reading the Prop then
    returns that value, and defining it once more throws [Prop already
    defined] unless the value is [undefined]. *)
Theorem X15_defineProp_then_read (rank : StoreRef -> nat) (fuel : nat) (s : StoreRef)
  (name : PropName) (value : Source) (w : World) :
  s < List.length (stores w) ->
  plainKey name = true ->
  hasOwn pkey_eqb (toPropertyKey name) (prop (theStore s w)) = false ->
  isDefined (valueAt pkey_eqb (toPropertyKey name) (_props (theStore s w))) = false ->
  match name with KSym _ => False | _ => True end ->
  linksBelow rank w -> rank s < fuel ->
  let w' := run (defineProp s name value) w in
  let v := valueAt pkey_eqb (toPropertyKey name) (_props (theStore s w')) in
  outcome (defineProp s name value) w = Ok tt
  /\ (src_isObject value = false -> v = primValue value)
  /\ (forall isArray fields,
        value = SrcObject isArray fields -> v = VProxy (List.length (proxies w)))
  /\ assoc_get pkey_eqb (toPropertyKey name) (prop (theStore s w')) = Some (AccProp name)
  /\ trace w' = trace w /\ works w' = works w
  /\ (forall t, t <> s -> theStore t w' = theStore t w)
  /\ (forall k, k <> toPropertyKey name ->
        valueAt pkey_eqb k (_props (theStore s w'))
        = valueAt pkey_eqb k (_props (theStore s w))
        /\ assoc_get pkey_eqb k (prop (theStore s w'))
           = assoc_get pkey_eqb k (prop (theStore s w)))
  /\ outcome (propGet fuel s name) w' = Ok v
  /\ (isDefined v = true ->
      forall value', defineProp s name value' w' = (w', Throw PropAlreadyDefined)).
Proof.
  intros Hs Hplain Hown Hundef Hname Hl Hr w' v.
  pose proof (defineProp_world s name value w Hs (plainKey_inherited _ Hplain)
                Hown Hundef Hname) as E.
  cbv zeta in E.
  set (hv := if src_isObject value then _createObjectProxy value s [name] (proxies w)
             else (proxies w, primValue value)) in E.
  set (w0 := set_proxies (fst hv) w) in E.
  set (wa := updStore s (fun r =>
               set_props r (assoc_set pkey_eqb (toPropertyKey name) (snd hv) (_props r)))
               w0) in E.
  assert (s < List.length (stores wa)) as Hsa
    by (unfold wa, updStore; cbn [stores]; now rewrite length_list_set).
  assert (theStore s w'
          = set_prop (set_props (theStore s w)
                        (assoc_set pkey_eqb (toPropertyKey name) (snd hv)
                           (_props (theStore s w))))
              (prop (theStore s w) ++ [(toPropertyKey name, AccProp name)])) as Es.
  { unfold w', run. rewrite E. cbn [fst].
    rewrite theStore_updStore_same by exact Hsa. unfold wa.
    now rewrite theStore_updStore_same by exact Hs. }
  assert (v = snd hv) as Ev.
  { unfold v. rewrite Es. cbn [_props set_prop set_props]. apply valueAt_pset_same. }
  assert (forall t, _linkedPropInvalidations (theStore t w')
                    = _linkedPropInvalidations (theStore t w)) as Hlinks.
  { intro t. unfold w', run. rewrite E. cbn [fst].
    rewrite (field_updStore _linkedPropInvalidations) by reflexivity. unfold wa.
    now rewrite (field_updStore _linkedPropInvalidations) by reflexivity. }
  assert (assoc_get pkey_eqb (toPropertyKey name) (prop (theStore s w'))
          = Some (AccProp name)) as Hacc.
  { rewrite Es. cbn [prop set_prop]. now apply assoc_get_defined. }
  repeat apply conj.
  - unfold outcome. now rewrite E.
  - intro Hp. rewrite Ev. unfold hv. now rewrite Hp.
  - intros isArray fields ->. rewrite Ev. unfold hv. cbn [src_isObject].
    now rewrite createObjectProxy_object.
  - exact Hacc.
  - unfold w', run. now rewrite E.
  - unfold w', run. now rewrite E.
  - intros t Ht. unfold w', run. rewrite E. cbn [fst]. unfold wa.
    now rewrite !theStore_updStore_other by auto.
  - intros k Hk. rewrite Es. cbn [prop _props set_prop set_props]. split.
    + now apply valueAt_pset_other.
    + now apply assoc_get_app_other.
  - unfold outcome, propGet, propGetWith. unfold bind at 1. cbn [ofStore].
    rewrite Hacc.
    assert (linksBelow rank w') as Hl'.
    { intros t key links l Hget Hin. rewrite Hlinks in Hget. now apply (Hl t key links l). }
    pose proof (propAccessed_returns rank fuel s [name] w' Hl' Hr) as Hok.
    pose proof (propAccessed_reads fuel s [name] w') as (_ & _ & _ & _ & _ & Hsame).
    unfold bind. destruct (_propAccessed fuel s [name] w') as [w'' o].
    cbn [fst snd] in Hok, Hsame. subst o. cbn [ofStore snd]. f_equal. unfold v.
    specialize (Hsame s). apply (f_equal _props) in Hsame. cbn [_props
      set_accessedPropsDuringWork] in Hsame. now rewrite Hsame.
  - intros Hdef value'. apply defineProp_defined_throws. exact Hdef.
Qed.

(** The Prop [green], with an object for value, defined on the store of the
    rainbow scenario. *)
Lemma X15_defineProp_then_read_witness :
  let w := run Scenario.rainbow emptyWorld in
  let w' := run (defineProp 0 (KStr "green") (SrcObject false [("shade", SrcNum 3)])) w in
  outcome (propGet 5 0 (KStr "green")) w' = Ok (VProxy (List.length (proxies w))).
Proof.
  intros w w'.
  destruct (X15_defineProp_then_read (fun _ => 0) 5 0 (KStr "green")
              (SrcObject false [("shade", SrcNum 3)]) w)
    as (_ & _ & Hv & _ & _ & _ & _ & _ & Hget & _).
  - vm_compute. lia.
  - reflexivity.
  - reflexivity.
  - reflexivity.
  - exact I.
  - apply linksBelowb_sound. reflexivity.
  - lia.
  - unfold w'. rewrite Hget. now rewrite (Hv false [("shade", SrcNum 3)]).
Defined.

(** ** The get and deleteProperty traps of a proxy *)

Lemma assoc_delete_gone (k : string) (l : list (string * Value)) :
  NoDup (map fst l) -> assoc_get String.eqb k (assoc_delete String.eqb k l) = None.
Proof.
  induction l as [|[k' v'] l IH]; simpl; intro Hnd; [reflexivity|].
  inversion Hnd as [|? ? Hnotin Hnd']; subst.
  destruct (String.eqb k k') eqn:E.
  - apply String.eqb_eq in E. subst k'.
    clear IH Hnd Hnd'. induction l as [|[k2 v2] l IH]; simpl; [reflexivity|].
    destruct (String.eqb k k2) eqn:E2.
    + apply String.eqb_eq in E2. subst. exfalso. apply Hnotin. now left.
    + apply IH. intro H. apply Hnotin. now right.
  - simpl. rewrite E. now apply IH.
Qed.

Lemma assoc_delete_other (k k0 : string) (l : list (string * Value)) :
  k0 <> k -> assoc_get String.eqb k0 (assoc_delete String.eqb k l)
             = assoc_get String.eqb k0 l.
Proof.
  intro Hne. induction l as [|[k' v'] l IH]; simpl; [reflexivity|].
  destruct (String.eqb k k') eqn:E.
  - apply String.eqb_eq in E. subst k'.
    apply String.eqb_neq in Hne. now rewrite Hne.
  - simpl. destruct (String.eqb k0 k'); [reflexivity|exact IH].
Qed.

(** X16.  For a key on which the model holds the target exactly (any key
    of an object that names no inherited member, any index of an array), the
    [get] trap reports an access only for a key the object has:
    reading a missing key returns [undefined] and records nothing, reading an
    own key returns its value and records the path of the proxy followed by
    the key.  The [deleteProperty] trap removes the key and reports an edit
    at the path followed by the key, whether or not the key was there; the
    object keeps its other keys and its binding, and a later read of the key
    returns [undefined] without a record. *)
Theorem X16_proxy_get_delete (rank : StoreRef -> nat) (fuel : nat) (ref : nat)
  (key : string) (w : World) :
  ref < List.length (proxies w) ->
  modelledKey (theProxy ref w) key = true ->
  NoDup (map fst (local (theProxy ref w))) ->
  p_store (theProxy ref w) < List.length (stores w) ->
  linksBelow rank w -> rank (p_store (theProxy ref w)) < fuel ->
  let p := theProxy ref w in
  (hasOwn String.eqb key (local p) = false ->
   forall propAccessed, proxyGetWith propAccessed ref key w = (w, Ok VUndefined))
  /\ (hasOwn String.eqb key (local p) = true ->
      let w' := run (proxyGetWith (_propAccessed fuel) ref key) w in
      outcome (proxyGetWith (_propAccessed fuel) ref key) w
      = Ok (valueAt String.eqb key (local p))
      /\ In (p_path p ++ [KStr key]) (_accessedPropsDuringWork (theStore (p_store p) w'))
      /\ sameButReads w w')
  /\ (forall propEdited,
        proxyDeleteWith propEdited ref key w
        = propEdited (p_store p) (p_path p ++ [KStr key]) (deleteLocal ref key w))
  /\ (let p' := theProxy ref (deleteLocal ref key w) in
      hasOwn String.eqb key (local p') = false
      /\ binding p' = binding p
      /\ (forall k, k <> key ->
            assoc_get String.eqb k (local p') = assoc_get String.eqb k (local p))
      /\ (forall r, r <> ref -> theProxy r (deleteLocal ref key w) = theProxy r w)
      /\ forall propAccessed,
           proxyGetWith propAccessed ref key (deleteLocal ref key w)
           = (deleteLocal ref key w, Ok VUndefined)).
Proof.
  intros Href _ Hnd Hs Hl Hr p.
  assert (forall w0 propAccessed,
            hasOwn String.eqb key (local (theProxy ref w0)) = false ->
            proxyGetWith propAccessed ref key w0 = (w0, Ok VUndefined)) as Hmiss.
  { intros w0 pa Hown. unfold proxyGetWith. rewrite Hown. unfold bind. cbn [when ret].
    unfold valueAt. unfold hasOwn in Hown.
    now destruct (assoc_get String.eqb key (local (theProxy ref w0))). }
  assert (theProxy ref (deleteLocal ref key w)
          = mkProxy (p_store p) (p_path p) (p_isArray p)
              (assoc_delete String.eqb key (local p))) as Ep.
  { unfold deleteLocal, theProxy at 1. cbn [proxies set_proxies].
    now rewrite nth_list_set_same. }
  assert (hasOwn String.eqb key (local (theProxy ref (deleteLocal ref key w))) = false)
    as Hgone.
  { rewrite Ep. cbn [local]. unfold hasOwn. now rewrite assoc_delete_gone. }
  repeat apply conj.
  - intros Hown pa. now apply Hmiss.
  - intros Hown w'. unfold w', run, outcome, proxyGetWith. fold p. rewrite Hown.
    cbn [when]. unfold bind.
    pose proof (propAccessed_returns rank fuel (p_store p) (p_path p ++ [KStr key]) w Hl Hr)
      as Hok.
    pose proof (propAccessed_reads fuel (p_store p) (p_path p ++ [KStr key]) w) as Hsame.
    pose proof (propAccessed_records fuel (p_store p) (p_path p ++ [KStr key]) w Hs) as Hrec.
    destruct (_propAccessed fuel (p_store p) (p_path p ++ [KStr key]) w) as [w1 o].
    cbn [fst snd] in *. subst o. split; [|split].
    + destruct Hsame as (_ & Hp & _). unfold theProxy. rewrite Hp. reflexivity.
    + now apply Hrec.
    + exact Hsame.
  - intro pe. reflexivity.
  - exact Hgone.
  - rewrite Ep. reflexivity.
  - intros k Hk. rewrite Ep. cbn [local]. now apply assoc_delete_other.
  - intros r Hne. unfold deleteLocal, theProxy. cbn [proxies set_proxies].
    now rewrite nth_list_set_other by auto.
  - intro pa. now apply Hmiss.
Qed.

(** The object [o = {k: 1}] of the object store: its key [k], before and
    after it is deleted. *)
Lemma X16_proxy_get_delete_witness :
  let w := run Scenario.objectStore emptyWorld in
  outcome (proxyGetWith (_propAccessed 5) 0 "k") w = Ok (VNum 1)
  /\ hasOwn String.eqb "k" (local (theProxy 0 (deleteLocal 0 "k" w))) = false.
Proof.
  intro w.
  destruct (X16_proxy_get_delete (fun _ => 0) 5 0 "k" w) as (_ & Hget & _ & Hdel & _).
  - vm_compute. lia.
  - vm_compute. reflexivity.
  - vm_compute. repeat constructor. intros [].
  - vm_compute. lia.
  - apply linksBelowb_sound. reflexivity.
  - simpl. lia.
  - split; [|exact Hdel].
    destruct Hget as (Hv & _); [reflexivity|]. rewrite Hv. reflexivity.
Defined.

(** ** The constructor *)

Lemma assoc_get_pset_other {V : Type} (k k0 : PropertyKey) (v : V)
  (l : list (PropertyKey * V)) :
  k0 <> k -> assoc_get pkey_eqb k0 (assoc_set pkey_eqb k v l) = assoc_get pkey_eqb k0 l.
Proof.
  intro Hne. induction l as [|[k' v'] l IH]; simpl.
  - now rewrite (pkey_eqb_neq _ _ Hne).
  - destruct (pkey_eqb k k') eqn:E; simpl.
    + apply pkey_eqb_eq in E. subst k'. now rewrite (pkey_eqb_neq _ _ Hne).
    + destruct (pkey_eqb k0 k'); [reflexivity|exact IH].
Qed.

Lemma defineProps_spec (s : StoreRef) (props : list (string * Source)) :
  forall w,
    s < List.length (stores w) ->
    NoDup (map fst props) ->
    (forall k, In k (map fst props) -> inheritedName (PStr k) = false) ->
    (forall k, In k (map fst props) ->
       hasOwn pkey_eqb (PStr k) (prop (theStore s w)) = false
       /\ assoc_get pkey_eqb (PStr k) (_props (theStore s w)) = None) ->
    let w' := run (defineProps s props) w in
    outcome (defineProps s props) w = Ok tt
    /\ trace w' = trace w /\ works w' = works w
    /\ List.length (stores w') = List.length (stores w)
    /\ (forall t, t <> s -> theStore t w' = theStore t w)
    /\ prop (theStore s w')
       = prop (theStore s w)
         ++ map (fun kv => (PStr (fst kv), AccProp (KStr (fst kv)))) props
    /\ (forall key, (forall k, In k (map fst props) -> key <> PStr k) ->
          assoc_get pkey_eqb key (_props (theStore s w'))
          = assoc_get pkey_eqb key (_props (theStore s w)))
    /\ (forall k v, In (k, v) props ->
          (src_isObject v = false ->
           valueAt pkey_eqb (PStr k) (_props (theStore s w')) = primValue v)
          /\ (forall isArray fields, v = SrcObject isArray fields ->
              exists ref, valueAt pkey_eqb (PStr k) (_props (theStore s w')) = VProxy ref))
    /\ set_prop (set_props (theStore s w') []) []
       = set_prop (set_props (theStore s w) []) [].
Proof.
  induction props as [|[k v] rest IH]; intros w Hs Hnd Hplain Hfresh w'.
  - unfold w', run, outcome, defineProps. cbn [forEachM ret fst snd map].
    rewrite app_nil_r. repeat apply conj; try reflexivity; intros k v [].
  - cbn [map fst] in Hnd, Hfresh, Hplain. inversion Hnd as [|? ? Hnotin Hnd']; subst.
    destruct (Hfresh k (or_introl eq_refl)) as (Hown & Hnone).
    assert (isDefined (valueAt pkey_eqb (toPropertyKey (KStr k)) (_props (theStore s w)))
            = false) as Hundef.
    { unfold valueAt. cbn [toPropertyKey]. now rewrite Hnone. }
    pose proof (defineProp_world s (KStr k) v w Hs (Hplain k (or_introl eq_refl))
                  Hown Hundef I) as E.
    cbv zeta in E.
    set (hv := if src_isObject v then _createObjectProxy v s [KStr k] (proxies w)
               else (proxies w, primValue v)) in E.
    set (wa := updStore s (fun r =>
                 set_props r (assoc_set pkey_eqb (toPropertyKey (KStr k)) (snd hv)
                                (_props r))) (set_proxies (fst hv) w)) in E.
    set (w1 := updStore s (fun r =>
                 set_prop r (prop (theStore s w)
                             ++ [(toPropertyKey (KStr k), AccProp (KStr k))])) wa) in E.
    assert (s < List.length (stores wa)) as Hsa
      by (unfold wa, updStore; cbn [stores]; now rewrite length_list_set).
    assert (s < List.length (stores w1)) as Hs1
      by (unfold w1, updStore; cbn [stores]; now rewrite length_list_set).
    assert (theStore s w1
            = set_prop (set_props (theStore s w)
                          (assoc_set pkey_eqb (PStr k) (snd hv) (_props (theStore s w))))
                (prop (theStore s w) ++ [(PStr k, AccProp (KStr k))])) as Es.
    { unfold w1. rewrite theStore_updStore_same by exact Hsa. unfold wa.
      now rewrite theStore_updStore_same by exact Hs. }
    assert (forall k', In k' (map fst rest) -> PStr k' <> PStr k) as Hdiff.
    { intros k' Hin [= ->]. contradiction. }
    assert (forall k', In k' (map fst rest) ->
              hasOwn pkey_eqb (PStr k') (prop (theStore s w1)) = false
              /\ assoc_get pkey_eqb (PStr k') (_props (theStore s w1)) = None) as Hfresh1.
    { intros k' Hin. destruct (Hfresh k' (or_intror Hin)) as (Ho & Hn).
      rewrite Es. cbn [prop _props set_prop set_props]. split.
      - unfold hasOwn in *. now rewrite assoc_get_app_other by auto.
      - now rewrite assoc_get_pset_other by auto. }
    specialize (IH w1 Hs1 Hnd' (fun k' Hin => Hplain k' (or_intror Hin)) Hfresh1).
    cbv zeta in IH.
    destruct IH as (I1 & I2 & I3 & I4 & I5 & I6 & I7 & I8 & I9).
    assert (defineProps s ((k, v) :: rest) w = defineProps s rest w1) as Estep.
    { unfold defineProps. cbn [forEachM]. unfold bind. now rewrite E. }
    unfold w', run, outcome. rewrite Estep. fold (run (defineProps s rest) w1).
    fold (outcome (defineProps s rest) w1).
    assert (valueAt pkey_eqb (PStr k) (_props (theStore s (run (defineProps s rest) w1)))
            = snd hv) as Ev.
    { unfold valueAt. rewrite I7.
      - rewrite Es. cbn [_props set_prop set_props]. apply valueAt_pset_same.
      - intros k' Hin [= ->]. contradiction. }
    repeat apply conj.
    + exact I1.
    + rewrite I2. reflexivity.
    + rewrite I3. reflexivity.
    + rewrite I4. unfold w1, wa, updStore; cbn [stores]. now rewrite !length_list_set.
    + intros t Ht. rewrite I5 by assumption. unfold w1, wa.
      now rewrite !theStore_updStore_other by auto.
    + rewrite I6, Es. cbn [prop set_prop map fst]. now rewrite <- app_assoc.
    + intros key Hkey. rewrite I7.
      * rewrite Es. cbn [_props set_prop set_props].
        apply assoc_get_pset_other. apply Hkey. now left.
      * intros k' Hin. apply Hkey. now right.
    + intros k' v' [[= <- <-]|Hin].
      * rewrite Ev. unfold hv. split.
        -- intros ->. reflexivity.
        -- intros isArray fields ->. cbn [src_isObject].
           rewrite createObjectProxy_object. now eexists.
      * now apply I8.
    + rewrite I9, Es. reflexivity.
Qed.

(** X17.  [new Reactive (props)], when no key of [props] names a member of
    [Object.prototype] (at such a key [defineProp] throws [Prop already
    defined]), returns a new store, after the others and
    without touching them, in which every key of [props] has its accessor, in
    the order of the keys, a primitive value reads back as given and a
    literal as a proxy; no Work exists or runs and no edit is reported. *)
Theorem X17_constructor_defines_props (fuel : nat) (props : list (string * Source))
  (w : World) :
  NoDup (map fst props) ->
  (forall k, In k (map fst props) -> inheritedName (PStr k) = false) ->
  let s := List.length (stores w) in
  let w' := run (Reactive_new fuel props []) w in
  outcome (Reactive_new fuel props []) w = Ok s
  /\ List.length (stores w') = S s
  /\ (forall t, t < s -> theStore t w' = theStore t w)
  /\ prop (theStore s w') = map (fun kv => (PStr (fst kv), AccProp (KStr (fst kv)))) props
  /\ (forall k v, In (k, v) props ->
        (src_isObject v = false ->
         valueAt pkey_eqb (PStr k) (_props (theStore s w')) = primValue v)
        /\ (forall isArray fields, v = SrcObject isArray fields ->
            exists ref, valueAt pkey_eqb (PStr k) (_props (theStore s w')) = VProxy ref))
  /\ _works (theStore s w') = [] /\ computed (theStore s w') = []
  /\ trace w' = trace w /\ works w' = works w.
Proof.
  intros Hnd Hplain s w'.
  set (w0 := mkWorld (stores w ++ [newReactive]) (works w) (proxies w) (attached w)
               (trace w)).
  assert (theStore s w0 = newReactive) as E0.
  { unfold theStore, w0, s; cbn [stores]. apply nth_middle. }
  assert (s < List.length (stores w0)) as Hs0.
  { unfold w0, s; cbn [stores]. rewrite length_app. simpl. lia. }
  assert (forall k, In k (map fst props) ->
            hasOwn pkey_eqb (PStr k) (prop (theStore s w0)) = false
            /\ assoc_get pkey_eqb (PStr k) (_props (theStore s w0)) = None) as Hfresh.
  { intros k _. rewrite E0. split; reflexivity. }
  destruct (defineProps_spec s props w0 Hs0 Hnd Hplain Hfresh)
    as (D1 & D2 & D3 & D4 & D5 & D6 & D7 & D8 & D9).
  assert (Reactive_new fuel props [] w
          = (run (defineProps s props) w0, Ok s)) as E.
  { unfold Reactive_new. unfold bind at 1. cbn [allocStore]. fold s. fold w0.
    unfold bind at 1. unfold outcome in D1. unfold run.
    destruct (defineProps s props w0) as [w1 o]. cbn [fst snd] in *. subst o.
    reflexivity. }
  unfold w', run, outcome. rewrite E. cbn [fst snd].
  repeat apply conj.
  - reflexivity.
  - rewrite D4. unfold w0; cbn [stores]. rewrite length_app. simpl. fold s. lia.
  - intros t Ht. rewrite D5 by lia. unfold theStore, w0; cbn [stores].
    now rewrite app_nth1 by exact Ht.
  - rewrite D6, E0. reflexivity.
  - exact D8.
  - apply (f_equal _works) in D9. rewrite E0 in D9. exact D9.
  - apply (f_equal computed) in D9. rewrite E0 in D9. exact D9.
  - rewrite D2. reflexivity.
  - rewrite D3. reflexivity.
Qed.

(** A store with a primitive and an object. *)
Lemma X17_constructor_defines_props_witness :
  let props := [("n", SrcNum 7); ("o", SrcObject false [("k", SrcNum 1)])] in
  let w' := run (Reactive_new 5 props []) emptyWorld in
  outcome (Reactive_new 5 props []) emptyWorld = Ok 0
  /\ valueAt pkey_eqb (PStr "n") (_props (theStore 0 w')) = VNum 7.
Proof.
  intros props w'.
  destruct (X17_constructor_defines_props 5 props emptyWorld)
    as (H1 & _ & _ & _ & H5 & _).
  - repeat constructor; simpl; intuition discriminate.
  - intros k [<-|[<-|[]]]; reflexivity.
  - split; [exact H1|].
    destruct (H5 "n" (SrcNum 7)) as (Hv & _); [now left|]. now apply Hv.
Defined.

(** ** Definitions of Computeds *)

(** X18.  [defineComputed] of a name the store does not have, a name of
    [plainKey] (on a name of a member of [Object.prototype] the test answers
    [Computed already defined]), registers before it computes: whatever the first run of the handler does, and also
    when it throws, the store ends with a new Work, the last of its registry,
    whose handler is the closure over this handler, and with the accessor of
    the name bound to that Work; from then on, in every world with the same
    accessors, assigning the Computed throws [Setting a computed property
    directly is forbidden] and changes nothing.  No accessor of [prop] and no
    other store's registry changes. *)
Theorem X18_defineComputed_registers (fuel : nat) (s : StoreRef) (name : PropName)
  (handler : Expr) (w : World) :
  s < List.length (stores w) ->
  plainKey name = true ->
  hasOwn pkey_eqb (toPropertyKey name) (computed (theStore s w)) = false ->
  isDefined (valueAt pkey_eqb (toPropertyKey name) (_computeds (theStore s w))) = false ->
  let work := List.length (works w) in
  let w' := run (defineComputed fuel s name handler) w in
  List.length (works w') = S work
  /\ _handler (theWork work w') = HComputed s name handler
  /\ _works (theStore s w') = _works (theStore s w) ++ [work]
  /\ computed (theStore s w')
     = computed (theStore s w) ++ [(toPropertyKey name, (name, work))]
  /\ (forall r, r < work -> _handler (theWork r w') = _handler (theWork r w))
  /\ (forall t, prop (theStore t w') = prop (theStore t w)
                /\ (t <> s -> _works (theStore t w') = _works (theStore t w)
                              /\ computed (theStore t w') = computed (theStore t w)))
  /\ (forall w'' value,
        sameNamespaces w' w'' ->
        computedSet s (toPropertyKey name) value w'' = (w'', Throw SetComputedDirectly)).
Proof.
  intros Hs Hplain Hown Hundef work w'.
  set (w1 := mkWorld (stores w) (works w ++ [mkWork (HComputed s name handler) []])
               (proxies w) (attached w) (trace w)).
  set (w2 := updStore s (fun r => set_works r (_works r ++ [work])) w1).
  set (w3 := updStore s (fun r =>
               set_computed r (computed (theStore s w2)
                               ++ [(toPropertyKey name, (name, work))])) w2).
  assert (theStore s w2 = set_works (theStore s w) (_works (theStore s w) ++ [work])) as E2.
  { unfold w2. now rewrite theStore_updStore_same by exact Hs. }
  assert (s < List.length (stores w2)) as Hs2
    by (unfold w2, updStore; cbn [stores]; now rewrite length_list_set).
  assert (w' = run (_dispatchWork fuel s work) w3) as E.
  { assert (hasOwn pkey_eqb (toPropertyKey name) (computed (theStore s w2)) = false)
      as Hown2 by (now rewrite E2).
    unfold w', run, defineComputed, bind. cbn [ofStore].
    rewrite (isDefinedAt_plain _ _ (plainKey_inherited _ Hplain)), Hundef.
    cbn [newWork modStore]. unfold defineComputedAccessor, defineProperty.
    match goal with
    | |- context [hasOwn pkey_eqb ?k (computed (theStore s ?x))] =>
        replace (hasOwn pkey_eqb k (computed (theStore s x))) with false
          by (symmetry; exact Hown2)
    end.
    reflexivity. }
  assert (theStore s w3
          = set_computed (theStore s w2)
              (computed (theStore s w) ++ [(toPropertyKey name, (name, work))])) as E3.
  { unfold w3. rewrite theStore_updStore_same by exact Hs2. now rewrite E2. }
  assert (theWork work w3 = mkWork (HComputed s name handler) []) as Hnew.
  { unfold theWork, w3, w2, updStore, w1; cbn [works]. unfold work. apply nth_middle. }
  destruct (proj1 (proj2 (proj2 (engine_handlers fuel))) s work w3) as (Hl & Hh).
  destruct (proj1 (proj2 (proj2 (engine_namespaces fuel))) s work w3) as (_ & _ & Hn).
  fold (run (_dispatchWork fuel s work) w3) in Hl, Hh, Hn. rewrite <- E in Hl, Hh, Hn.
  assert (computed (theStore s w')
          = computed (theStore s w) ++ [(toPropertyKey name, (name, work))]) as Hc.
  { destruct (Hn s) as (_ & -> & _). now rewrite E3. }
  repeat apply conj.
  - rewrite Hl. unfold w3, w2, updStore, w1; cbn [works]. rewrite length_app. simpl.
    unfold work. lia.
  - now rewrite Hh, Hnew.
  - destruct (Hn s) as (_ & _ & -> & _). now rewrite E3, E2.
  - exact Hc.
  - intros r Hr. rewrite Hh. unfold theWork, w3, w2, updStore, w1; cbn [works].
    now rewrite app_nth1 by exact Hr.
  - intro t. destruct (Hn t) as (Hp & Hcm & Hwk & _). split; [|intro Hne; split].
    + rewrite Hp. unfold w3, w2. now rewrite !(field_updStore prop) by reflexivity.
    + rewrite Hwk. unfold w3, w2. now rewrite !theStore_updStore_other by auto.
    + rewrite Hcm. unfold w3, w2. now rewrite !theStore_updStore_other by auto.
  - intros w'' value (_ & _ & Hsame). apply computedSet_throws.
    destruct (Hsame s) as (_ & -> & _). rewrite Hc. unfold hasOwn.
    now rewrite (assoc_get_defined _ _ _ Hown).
Qed.

(** The Computed [both = red && blue], defined on the store of the rainbow
    scenario. *)
Lemma X18_defineComputed_registers_witness :
  let w := run Scenario.rainbow emptyWorld in
  let w' := run (defineComputed 10 0 (KStr "both") (EAnd (Scenario.P "red")
                   (Scenario.P "blue"))) w in
  computedSet 0 (PStr "both") (SrcBool true) w' = (w', Throw SetComputedDirectly).
Proof.
  intros w w'.
  destruct (X18_defineComputed_registers 10 0 (KStr "both")
              (EAnd (Scenario.P "red") (Scenario.P "blue")) w)
    as (_ & _ & _ & _ & _ & _ & Hset).
  - vm_compute. lia.
  - reflexivity.
  - reflexivity.
  - reflexivity.
  - apply (Hset w' (SrcBool true)). apply sameNamespaces_refl.
Defined.

(** ** Links between stores *)

Lemma assoc_get_pset_same {V : Type} (k : PropertyKey) (v : V) (l : list (PropertyKey * V)) :
  assoc_get pkey_eqb k (assoc_set pkey_eqb k v l) = Some v.
Proof.
  induction l as [|[k' v'] l IH]; simpl.
  - now rewrite pkey_eqb_refl.
  - destruct (pkey_eqb k k') eqn:E; simpl; rewrite E; [reflexivity|exact IH].
Qed.

Lemma linkPropInvalidation_plain (src s : StoreRef) (x y : PropName) (w : World) :
  inheritedName (toPropertyKey x) = false ->
  _linkPropInvalidation src s x y w
  = (updStore src (fun r =>
       set_linkedPropInvalidations r
         (assoc_set pkey_eqb (toPropertyKey x)
            (match assoc_get pkey_eqb (toPropertyKey x) (_linkedPropInvalidations r) with
             | Some l => l
             | None => []
             end ++ [mkLinked s y])
            (_linkedPropInvalidations r))) w, Ok tt).
Proof.
  intro H. unfold _linkPropInvalidation, bind. cbn [ofStore]. unfold modStore, updStore.
  destruct (assoc_get pkey_eqb (toPropertyKey x)
              (_linkedPropInvalidations (theStore src w))); [reflexivity|].
  rewrite H. reflexivity.
Qed.

(** X19.  [defineSharedProp] of a target name that has no defined value,
    the two names being names of [plainKey] (a target name that names a
    member of [Object.prototype] is answered [Prop already defined]; under
    such a source name [_linkPropInvalidation] finds the inherited member
    and throws on [push]),
    first creates the copying Work, puts it last in the registry of the
    source store (not of the target) and appends the link to the target
    under the source name; this is done whether or not the definition then
    succeeds.  The links under the other names, and the handlers of the older
    Works, stay as they were. *)
Theorem X19_defineSharedProp_links (fuel : nat) (s src : StoreRef) (y x : PropName)
  (w : World) :
  src < List.length (stores w) ->
  plainKey y = true -> plainKey x = true ->
  isDefined (valueAt pkey_eqb (toPropertyKey y) (_props (theStore s w))) = false ->
  match y with KSym _ => False | _ => True end ->
  let work := List.length (works w) in
  let w' := run (defineSharedProp fuel s src y x) w in
  let before := match assoc_get pkey_eqb (toPropertyKey x)
                        (_linkedPropInvalidations (theStore src w)) with
                | Some links => links
                | None => []
                end in
  List.length (works w') = S work
  /\ _handler (theWork work w') = HShared s y src x
  /\ _works (theStore src w') = _works (theStore src w) ++ [work]
  /\ assoc_get pkey_eqb (toPropertyKey x) (_linkedPropInvalidations (theStore src w'))
     = Some (before ++ [mkLinked s y])
  /\ (forall k, k <> toPropertyKey x ->
        assoc_get pkey_eqb k (_linkedPropInvalidations (theStore src w'))
        = assoc_get pkey_eqb k (_linkedPropInvalidations (theStore src w)))
  /\ (forall t, t <> src ->
        _works (theStore t w') = _works (theStore t w)
        /\ _linkedPropInvalidations (theStore t w')
           = _linkedPropInvalidations (theStore t w))
  /\ (forall r, r < work -> _handler (theWork r w') = _handler (theWork r w)).
Proof.
  intros Hsrc Hyp Hxp Hundef Hy work w' before.
  apply plainKey_inherited in Hyp, Hxp.
  set (w1 := mkWorld (stores w) (works w ++ [mkWork (HShared s y src x) []])
               (proxies w) (attached w) (trace w)).
  set (w2 := updStore src (fun r => set_works r (_works r ++ [work])) w1).
  set (link := fun r : Reactive =>
         set_linkedPropInvalidations r
           (assoc_set pkey_eqb (toPropertyKey x)
              (match assoc_get pkey_eqb (toPropertyKey x) (_linkedPropInvalidations r) with
               | Some l => l
               | None => []
               end ++ [mkLinked s y])
              (_linkedPropInvalidations r))).
  set (w3 := updStore src link w2).
  assert (s2 : src < List.length (stores w2))
    by (unfold w2, updStore; cbn [stores]; now rewrite length_list_set).
  assert (theStore src w3
          = link (set_works (theStore src w) (_works (theStore src w) ++ [work]))) as E3.
  { unfold w3. rewrite theStore_updStore_same by exact s2. unfold w2.
    now rewrite theStore_updStore_same by exact Hsrc. }
  assert (forall t, t <> src -> theStore t w3 = theStore t w) as O3.
  { intros t Ht. unfold w3, w2. now rewrite !theStore_updStore_other by auto. }
  assert (theWork work w3 = mkWork (HShared s y src x) []) as Hnew.
  { unfold theWork, w3, w2, updStore, w1; cbn [works]. unfold work. apply nth_middle. }
  assert (sameNamespaces w3 w' /\ sameHandlers w3 w'
          \/ exists ns, sameNamespaces (updStore s (fun r => set_prop r ns) w3) w'
                        /\ sameHandlers (updStore s (fun r => set_prop r ns) w3) w')
    as Hrel.
  { assert (defineSharedProp fuel s src y x w
            = (definePropAccessor s (toPropertyKey y) (AccShared y) ;;
               _dispatchWork fuel src work) w3) as Estep.
    { unfold defineSharedProp. unfold bind at 1. cbn [ofStore].
      rewrite (isDefinedAt_plain _ _ Hyp), Hundef.
      clear - Hy Hxp. destruct y; [| |contradiction];
        unfold bind at 1; cbn [newWork]; unfold bind at 1; cbn [modStore];
        unfold bind at 1; rewrite linkPropInvalidation_plain by exact Hxp;
        reflexivity. }
    unfold w', run. rewrite Estep. unfold bind, definePropAccessor.
    destruct (defineProperty _ _ _) as [ns|e].
    - right. exists ns. split.
      + apply (proj1 (proj2 (proj2 (engine_namespaces fuel)))).
      + apply (proj1 (proj2 (proj2 (engine_handlers fuel)))).
    - left. split; [apply sameNamespaces_refl|apply sameHandlers_refl]. }
  assert (forall t, _works (theStore t w') = _works (theStore t w3)
                    /\ _linkedPropInvalidations (theStore t w')
                       = _linkedPropInvalidations (theStore t w3)) as Hn.
  { intro t. destruct Hrel as [((_ & _ & Hn) & _)|(ns & (_ & _ & Hn) & _)];
      destruct (Hn t) as (_ & _ & -> & _ & ->).
    - split; reflexivity.
    - split; now rewrite field_updStore by reflexivity. }
  assert (List.length (works w') = List.length (works w3)
          /\ forall r, _handler (theWork r w') = _handler (theWork r w3)) as (Hl & Hh).
  { destruct Hrel as [(_ & Hh)|(ns & _ & Hh)]; exact Hh. }
  repeat apply conj.
  - rewrite Hl. unfold w3, w2, updStore, w1; cbn [works]. rewrite length_app. simpl.
    unfold work. lia.
  - now rewrite Hh, Hnew.
  - destruct (Hn src) as (-> & _). rewrite E3. reflexivity.
  - destruct (Hn src) as (_ & ->). rewrite E3. unfold link.
    cbn [_linkedPropInvalidations set_linkedPropInvalidations set_works].
    apply assoc_get_pset_same.
  - intros k Hk. destruct (Hn src) as (_ & ->). rewrite E3. unfold link.
    cbn [_linkedPropInvalidations set_linkedPropInvalidations set_works].
    now apply assoc_get_pset_other.
  - intros t Ht. destruct (Hn t) as (-> & ->). now rewrite O3.
  - intros r Hr. rewrite Hh. unfold theWork, w3, w2, updStore, w1; cbn [works].
    now rewrite app_nth1 by exact Hr.
Qed.

(** A second store sharing [red] of the store of the rainbow scenario. *)
Lemma X19_defineSharedProp_links_witness :
  let w := run (_ <- Scenario.rainbow ;; Reactive_new 5 [] []) emptyWorld in
  let w' := run (defineSharedProp 10 1 0 (KStr "r") (KStr "red")) w in
  assoc_get pkey_eqb (PStr "red") (_linkedPropInvalidations (theStore 0 w'))
  = Some [mkLinked 1 (KStr "r")].
Proof.
  intros w w'.
  destruct (X19_defineSharedProp_links 10 1 0 (KStr "r") (KStr "red") w)
    as (_ & _ & _ & Hlink & _).
  - vm_compute. lia.
  - reflexivity.
  - reflexivity.
  - reflexivity.
  - exact I.
  - exact Hlink.
Defined.

(** ** A tick that returns *)

Lemma nonempty_false {A : Type} (l : list A) : nonempty l = false -> l = [].
Proof. destruct l; [reflexivity|discriminate]. Qed.

Lemma dispatchWorks_returns_idle (s : StoreRef) (fuel : nat) :
  forall w w',
    s < List.length (stores w) ->
    _dispatchWorks fuel s w = (w', Ok tt) ->
    _tickRunning (theStore s w') = false
    /\ _editedPropsDuringTick (theStore s w') = []
    /\ _successiveStack (theStore s w') = [].
Proof.
  induction fuel as [|f IH]; intros w w' Hs H; [discriminate|].
  cbn [_dispatchWorks] in H. unfold _dispatchWorksWith in H.
  unfold bind at 1 2 3 4 5 in H. cbn [modStore ofStore] in H.
  set (w1 := updStore s (fun r => set_tickRunning r true) w) in H.
  set (w2 := updStore s (fun r => set_editedPropsDuringTick r []) w1) in H.
  assert (List.length (stores w2) = List.length (stores w)) as Hl2
    by (unfold w2, w1, updStore; cbn [stores]; now rewrite !length_list_set).
  destruct (_checkLoopInStack _); [discriminate|].
  unfold bind at 1 in H.
  match type of H with
  | context [forEachM ?g ?l w2] =>
      assert (sameNamespaces w2 (fst (forEachM g l w2))) as Hn;
      [|destruct (forEachM g l w2) as [w3 [[]|e']]; [|discriminate]]
  end.
  { apply (keeps_forEachM sameNamespaces sameNamespaces_refl sameNamespaces_trans).
    intro. apply (keeps_forEachM sameNamespaces sameNamespaces_refl sameNamespaces_trans).
    intro. apply (proj1 (proj2 (proj2 (engine_namespaces f)))). }
  cbn [fst] in Hn. unfold bind at 1 2 in H. cbn [modStore ofStore] in H.
  set (w4 := updStore s (fun r => set_tickRunning r false) w3) in H.
  assert (s < List.length (stores w3)) as Hs3
    by (destruct Hn as (_ & -> & _); now rewrite Hl2).
  assert (s < List.length (stores w4)) as Hs4
    by (unfold w4, updStore; cbn [stores]; now rewrite length_list_set).
  destruct (nonempty (_editedPropsDuringTick (theStore s w4))) eqn:Ene.
  - apply (IH w4 w' Hs4). exact H.
  - apply nonempty_false in Ene. injection H as <-.
    rewrite theStore_updStore_same by exact Hs4.
    cbn [_tickRunning _editedPropsDuringTick _successiveStack set_successiveStack].
    repeat apply conj; [|exact Ene|reflexivity].
    unfold w4. now rewrite theStore_updStore_same by exact Hs3.
Qed.

(** X20.  A tick that returns leaves the store idle: [_tickRunning] is
    false again, no edit is left in the tick buffer (the tick went on, pass
    after pass, until a pass edited nothing) and the successive stack is
    empty. *)
Theorem X20_returned_tick_is_idle (fuel : nat) (s : StoreRef) (w : World) :
  s < List.length (stores w) ->
  outcome (_dispatchWorks fuel s) w = Ok tt ->
  let w' := run (_dispatchWorks fuel s) w in
  _tickRunning (theStore s w') = false
  /\ _editedPropsDuringTick (theStore s w') = []
  /\ _successiveStack (theStore s w') = [].
Proof.
  intros Hs H w'. apply (dispatchWorks_returns_idle s fuel w w' Hs).
  unfold w', run. unfold outcome in H.
  destruct (_dispatchWorks fuel s w) as [w0 o]. cbn [fst snd] in *. now subst.
Qed.

(** The tick of the rainbow scenario after [red] was recorded as edited. *)
Lemma X20_returned_tick_is_idle_witness :
  let w := recordEdit 0 [KStr "red"] (run Scenario.rainbow emptyWorld) in
  _tickRunning (theStore 0 (run (_dispatchWorks 50 0) w)) = false.
Proof.
  intro w.
  destruct (X20_returned_tick_is_idle 50 0 w) as (H & _).
  - vm_compute. lia.
  - vm_compute. reflexivity.
  - exact H.
Defined.

(** ** The setter of a Prop *)

Lemma pushNew_In (p : PropPath) (buffer : list PropPath) : In p (pushNew p buffer).
Proof.
  unfold pushNew. destruct (_propPathExistsIn p buffer) eqn:E.
  - now apply propPathExistsIn_In.
  - apply in_app_iff. right. now left.
Qed.

Lemma setProp_primitive (s : StoreRef) (name : PropName) (value : Source) (w : World) :
  src_isObject value = false ->
  setProp s name value w
  = (updStore s (fun r =>
       set_props r (assoc_set pkey_eqb (toPropertyKey name) (primValue value) (_props r))) w,
     Ok tt).
Proof. intro H. unfold setProp. now rewrite H. Qed.

Lemma setProp_frame (s : StoreRef) (name : PropName) (value : Source) (w : World) :
  let w' := fst (setProp s name value w) in
  snd (setProp s name value w) = Ok tt
  /\ trace w' = trace w /\ works w' = works w
  /\ List.length (stores w') = List.length (stores w)
  /\ forall t, set_props (theStore t w') [] = set_props (theStore t w) [].
Proof.
  unfold setProp. destruct (src_isObject value).
  - destruct (_createObjectProxy value s [name] (proxies w)) as [h v]. cbn [fst snd].
    repeat apply conj; try reflexivity.
    + unfold updStore; cbn [stores]. apply length_list_set.
    + intro t. now rewrite (field_updStore (fun r => set_props r [])) by reflexivity.
  - cbn [fst snd]. repeat apply conj; try reflexivity.
    + unfold updStore; cbn [stores]. apply length_list_set.
    + intro t. now rewrite (field_updStore (fun r => set_props r [])) by reflexivity.
Qed.

(** X21.  Assigning a Prop the value it holds does nothing at all: no
    Work runs and no buffer changes.  Assigning any other value stores it and
    then reports the edit of the Prop, before anything else happens; a
    literal is never the held value, so assigning one always does.  Inside a
    running tick (and without links) the assignment returns with the new
    value stored and the Prop recorded in the tick buffer and in the write
    buffer, and no Work is dispatched. *)
Theorem X21_prop_setter (fuel : nat) (s : StoreRef) (name : PropName) (value : Source)
  (w : World) :
  s < List.length (stores w) ->
  assoc_get pkey_eqb (toPropertyKey name) (prop (theStore s w)) = Some (AccProp name) ->
  let current := valueAt pkey_eqb (toPropertyKey name) (_props (theStore s w)) in
  let w' := run (assign (S fuel) s name [] value) w in
  (source_is value current = true -> assign (S fuel) s name [] value w = (w, Ok tt))
  /\ (source_is value current = false ->
      (exists rest, trace w' = trace w ++ EvEdited s [name] :: rest)
      /\ (_tickRunning (theStore s w) = true ->
          assoc_get pkey_eqb (toPropertyKey name) (_linkedPropInvalidations (theStore s w))
          = None ->
          outcome (assign (S fuel) s name [] value) w = Ok tt
          /\ (src_isObject value = false ->
              valueAt pkey_eqb (toPropertyKey name) (_props (theStore s w'))
              = primValue value)
          /\ In [name] (_editedPropsDuringTick (theStore s w'))
          /\ In [name] (_editedPropsDuringWork (theStore s w'))
          /\ works w' = works w))
  /\ (forall isArray fields v, source_is (SrcObject isArray fields) v = false).
Proof.
  intros Hs Hacc current w'.
  assert (forall b, source_is value current = b ->
            assign (S fuel) s name [] value w
            = when (negb b) (setProp s name value ;; _propEdited (S fuel) s [name]) w)
    as Estep.
  { intros b Hb. unfold assign, assignWith, propSetWith. unfold bind at 1.
    cbn [ofStore]. rewrite Hacc. unfold bind at 1. cbn [ofStore]. fold current.
    now rewrite Hb. }
  split; [|split].
  - intro Hsame. now rewrite (Estep true Hsame).
  - intro Hdiff. specialize (Estep false Hdiff). cbn [negb when] in Estep.
    destruct (setProp_frame s name value w) as (Sok & St & Sw & Sl & Sf).
    cbv zeta in St, Sw, Sl, Sf.
    assert (assign (S fuel) s name [] value w
            = _propEdited (S fuel) s [name] (fst (setProp s name value w))) as E.
    { rewrite Estep. unfold bind. destruct (setProp s name value w) as [wa o].
      cbn [fst snd] in *. now subst o. }
    set (wa := fst (setProp s name value w)) in *.
    assert (s < List.length (stores wa)) as Hsa by now rewrite Sl.
    destruct (recordEdit_facts s [name] wa Hsa) as (F1 & F2 & _ & _ & F5 & F6 & F7 & _).
    split.
    + unfold w', run. rewrite E. cbn [_propEdited]. rewrite propEdited_recordEdit.
      assert (traceGrows (recordEdit s [name] wa)
                (fst (bind (when (negb (_tickRunning (theStore s (recordEdit s [name] wa))))
                              (_dispatchWorks fuel s))
                        (fun _ => bind (linksOf s [name]) (fun links =>
                           forEachM (fun linked =>
                             _propEdited fuel (targetReactive linked)
                               (targetPropName linked :: tl [name])) links))
                        (recordEdit s [name] wa)))) as [rest Hrest].
      { apply (keeps_bind traceGrows traceGrows_trans).
        - apply (keeps_when traceGrows traceGrows_refl).
          apply (proj1 (proj2 (engine_trace fuel))).
        - intro. apply (keeps_bind traceGrows traceGrows_trans).
          + apply (keeps_linksOf traceGrows traceGrows_refl).
          + intro. apply (keeps_forEachM traceGrows traceGrows_refl traceGrows_trans).
            intro. apply (proj1 (engine_trace fuel)). }
      exists rest. rewrite Hrest, F1, St. now rewrite <- app_assoc.
    + intros Hrun Hlinks.
      assert (_tickRunning (theStore s wa) = true) as Hrun'.
      { specialize (Sf s). apply (f_equal _tickRunning) in Sf. cbn in Sf. now rewrite Sf. }
      assert (assoc_get pkey_eqb (firstKey [name])
                (_linkedPropInvalidations (theStore s wa)) = None) as Hlinks'.
      { specialize (Sf s). apply (f_equal _linkedPropInvalidations) in Sf. cbn in Sf.
        cbn [firstKey]. now rewrite Sf. }
      pose proof (propEdited_inside_tick fuel s [name] wa Hsa Hrun' Hlinks') as Ein.
      unfold w', run, outcome. rewrite E, Ein. cbn [fst snd].
      repeat apply conj.
      * reflexivity.
      * intro Hprim. apply (f_equal _props) in F7. cbn in F7. rewrite F7.
        unfold wa. rewrite (setProp_primitive s name value w Hprim). cbn [fst].
        rewrite theStore_updStore_same by exact Hs. cbn [_props set_props].
        apply valueAt_pset_same.
      * rewrite F5. apply pushNew_In.
      * rewrite F6. apply pushNew_In.
      * now rewrite F2.
  - intros isArray fields v. reflexivity.
Qed.

(** On the store of the rainbow scenario: [red = false] again, and
    [red = true]. *)
Lemma X21_prop_setter_witness :
  let w := run Scenario.rainbow emptyWorld in
  assign 10 0 (KStr "red") [] (SrcBool false) w = (w, Ok tt)
  /\ exists rest,
       trace (run (assign 10 0 (KStr "red") [] (SrcBool true)) w)
       = trace w ++ EvEdited 0 [KStr "red"] :: rest.
Proof.
  intro w.
  assert (0 < List.length (stores w)) as Hs by (vm_compute; lia).
  assert (assoc_get pkey_eqb (toPropertyKey (KStr "red")) (prop (theStore 0 w))
          = Some (AccProp (KStr "red"))) as Hacc by (vm_compute; reflexivity).
  split.
  - destruct (X21_prop_setter 9 0 (KStr "red") (SrcBool false) w Hs Hacc) as (H1 & _).
    apply H1. vm_compute. reflexivity.
  - destruct (X21_prop_setter 9 0 (KStr "red") (SrcBool true) w Hs Hacc) as (_ & H2 & _).
    destruct H2 as (Ht & _); [vm_compute; reflexivity|]. exact Ht.
Defined.

(** ** Where a throw comes from *)

Section Throws.
Variable P : World -> Error -> Prop.

Lemma throws_ret {A : Type} (a : A) : throwsAt P (ret a).
Proof. intro w. exact I. Qed.

Lemma throws_throw {A : Type} (e : Error) : (forall w, P w e) -> throwsAt P (@throw A e).
Proof. intros H w. apply H. Qed.

Lemma throws_bind {A B : Type} (c : M A) (k : A -> M B) :
  throwsAt P c -> (forall a, throwsAt P (k a)) -> throwsAt P (bind c k).
Proof.
  intros Hc Hk w. unfold bind. specialize (Hc w).
  destruct (c w) as [w' [a|e]]; simpl in *; [apply Hk|assumption].
Qed.

Lemma throws_forEachM {A : Type} (f : A -> M unit) (l : list A) :
  (forall a, throwsAt P (f a)) -> throwsAt P (forEachM f l).
Proof.
  intro H. induction l as [|x l IH]; simpl; [apply throws_ret|].
  apply throws_bind; auto.
Qed.

Lemma throws_when (b : bool) (c : M unit) : throwsAt P c -> throwsAt P (when b c).
Proof. intro H. destruct b; simpl; [assumption|apply throws_ret]. Qed.

Lemma throws_ofStore {A : Type} (s : StoreRef) (f : Reactive -> A) : throwsAt P (ofStore s f).
Proof. intro w. exact I. Qed.

Lemma throws_ofWork {A : Type} (r : WorkRef) (f : Work -> A) : throwsAt P (ofWork r f).
Proof. intro w. exact I. Qed.

Lemma throws_modStore (s : StoreRef) (f : Reactive -> Reactive) : throwsAt P (modStore s f).
Proof. intro w. exact I. Qed.

Lemma throws_modWork (r : WorkRef) (f : Work -> Work) : throwsAt P (modWork r f).
Proof. intro w. exact I. Qed.

Lemma throws_emit (e : Event) : throwsAt P (emit e).
Proof. intro w. exact I. Qed.

Lemma throws_linksOf (s : StoreRef) (p : PropPath) : throwsAt P (linksOf s p).
Proof. apply throws_ofStore. Qed.

Hypothesis P_other : forall w e, e <> InfiniteLoopDetected -> P w e.
Hypothesis P_loop : forall s w,
  _checkLoopInStack (_successiveStack (theStore s w)) = true -> P w InfiniteLoopDetected.

Lemma throws_other {A : Type} (e : Error) :
  e <> InfiniteLoopDetected -> throwsAt P (@throw A e).
Proof. intros H w. now apply P_other. Qed.

Lemma throws_propAccessedWith (self : StoreRef -> PropPath -> M unit) s p :
  (forall s' p', throwsAt P (self s' p')) -> throwsAt P (_propAccessedWith self s p).
Proof.
  intro H. unfold _propAccessedWith.
  apply throws_bind; [apply throws_ofStore|intro].
  apply throws_bind; [apply throws_when, throws_modStore|intro].
  apply throws_bind; [apply throws_linksOf|intro].
  apply throws_forEachM. intro. apply H.
Qed.

Lemma throws_propAccessed (fuel : nat) : forall s p, throwsAt P (_propAccessed fuel s p).
Proof.
  induction fuel as [|f IH]; intros s p; simpl.
  - now apply throws_other.
  - now apply throws_propAccessedWith.
Qed.

Section ThrowsReads.
Variable propAccessed : StoreRef -> PropPath -> M unit.
Hypothesis H_accessed : forall s p, throwsAt P (propAccessed s p).

Lemma throws_propGetWith s key : throwsAt P (propGetWith propAccessed s key).
Proof.
  unfold propGetWith.
  apply throws_bind; [apply throws_ofStore|intros [[n|n]|]].
  - apply throws_bind; [apply H_accessed|intro; apply throws_ofStore].
  - apply throws_bind; [apply H_accessed|intro; apply throws_ofStore].
  - apply throws_ret.
Qed.

Lemma throws_proxyGetWith ref key : throwsAt P (proxyGetWith propAccessed ref key).
Proof.
  intro w. unfold proxyGetWith.
  apply (throws_bind (when _ _)).
  - apply throws_when, H_accessed.
  - intros _ w'. exact I.
Qed.

Lemma throws_memberGetWith v key : throwsAt P (memberGetWith propAccessed v key).
Proof.
  destruct v; simpl; try (apply throws_other; discriminate); try apply throws_ret.
  apply throws_proxyGetWith.
Qed.

Lemma throws_readKeysWith keys : forall v, throwsAt P (readKeysWith propAccessed v keys).
Proof.
  induction keys as [|k keys IH]; intro v; simpl.
  - apply throws_ret.
  - apply throws_bind; [apply throws_memberGetWith|assumption].
Qed.

Lemma throws_holderGetWith obj key : throwsAt P (holderGetWith propAccessed obj key).
Proof.
  destruct obj as [s|v]; simpl.
  - apply throws_propGetWith.
  - destruct key; [apply throws_memberGetWith|].
    destruct v; try apply throws_ret; apply throws_other; discriminate.
Qed.

Lemma throws_getDeepWith (self : Holder -> PropPath -> M Value) obj keys :
  (forall o k, throwsAt P (self o k)) -> throwsAt P (_getDeepWith propAccessed self obj keys).
Proof.
  intro H. unfold _getDeepWith.
  assert (throwsAt P (next <- holderGetWith propAccessed obj (firstKey keys) ;;
                 if _isObject next then self (InValue next) (tl keys)
                 else ret VUndefined)) as Hgen.
  { apply throws_bind; [apply throws_holderGetWith|intro next].
    destruct (_isObject next); [apply H|apply throws_ret]. }
  destruct keys as [|k [|k' keys]]; try exact Hgen.
  apply throws_holderGetWith.
Qed.
End ThrowsReads.

Lemma throws_getDeep (fuel : nat) : forall obj keys, throwsAt P (_getDeep fuel obj keys).
Proof.
  induction fuel as [|f IH]; intros obj keys; simpl.
  - now apply throws_other.
  - apply throws_getDeepWith; [apply throws_propAccessed|assumption].
Qed.

Lemma throws_setProp s propName value : throwsAt P (setProp s propName value).
Proof.
  intro w. unfold setProp. destruct (src_isObject value).
  - destruct (_createObjectProxy value s [propName] (proxies w)) as [h v]. exact I.
  - exact I.
Qed.

Lemma throws_setProperty ref key value : throwsAt P (setProperty ref key value).
Proof.
  intro w. unfold setProperty. destruct (src_isObject value).
  - destruct (_createObjectProxy _ _ _ _) as [h v]. exact I.
  - exact I.
Qed.

Lemma throws_propEditedWith dispatchWorks self s p :
  (forall s', throwsAt P (dispatchWorks s')) ->
  (forall s' p', throwsAt P (self s' p')) ->
  throwsAt P (_propEditedWith dispatchWorks self s p).
Proof.
  intros Hd Hs. unfold _propEditedWith.
  apply throws_bind; [apply throws_emit|intro].
  apply throws_bind; [apply throws_ofStore|intro].
  apply throws_bind; [apply throws_when, throws_modStore|intro].
  apply throws_bind; [apply throws_ofStore|intro].
  apply throws_bind; [apply throws_when, throws_modStore|intro].
  apply throws_bind; [apply throws_ofStore|intro].
  apply throws_bind; [apply throws_when, Hd|intro].
  apply throws_bind; [apply throws_linksOf|intro].
  apply throws_forEachM. intro. apply Hs.
Qed.

Lemma throws_dispatchWorksWith dispatchWork self s :
  (forall s' work, throwsAt P (dispatchWork s' work)) ->
  (forall s', throwsAt P (self s')) ->
  throwsAt P (_dispatchWorksWith dispatchWork self s).
Proof.
  intros Hd Hs. unfold _dispatchWorksWith.
  apply throws_bind; [apply throws_modStore|intro].
  apply throws_bind; [apply throws_ofStore|intro].
  apply throws_bind; [apply throws_modStore|intro].
  apply throws_bind; [intro w; exact I|intro].
  match goal with
  | |- throwsAt P (bind _ (fun stack => if _ then _ else ?c)) =>
      assert (throwsAt P c) as Hc
  end.
  { apply throws_bind; [apply throws_forEachM; intro; apply throws_forEachM; intro; apply Hd
                       |intro].
    apply throws_bind; [apply throws_modStore|intro].
    apply throws_bind; [apply throws_ofStore|intro].
    destruct (nonempty _); [apply Hs|apply throws_modStore]. }
  intro w. unfold bind. cbn [ofStore].
  destruct (_checkLoopInStack (_successiveStack (theStore s w))) eqn:E.
  - simpl. now apply (P_loop s).
  - apply Hc.
Qed.

Lemma throws_dispatchWorkWith dispatch s work :
  (forall work' s', throwsAt P (dispatch work' s')) ->
  throwsAt P (_dispatchWorkWith dispatch s work).
Proof.
  intro Hd. unfold _dispatchWorkWith.
  apply throws_bind; [apply throws_emit|intro].
  apply throws_bind; [apply throws_modStore|intro].
  apply throws_bind; [apply throws_modStore|intro].
  apply throws_bind; [apply Hd|intro].
  apply throws_bind; [apply throws_ofStore|intro].
  apply throws_bind; [apply throws_modStore|intro].
  apply throws_bind; [apply throws_ofStore|intro].
  apply throws_bind; [apply throws_modStore|intro].
  apply throws_bind; [apply throws_modWork|intro].
  apply throws_bind; [|intro; apply throws_modStore].
  apply throws_forEachM. intro. apply throws_modWork.
Qed.

Lemma throws_dispatchWith exec eval propGet work s :
  (forall s' b, throwsAt P (exec s' b)) ->
  (forall s' e, throwsAt P (eval s' e)) ->
  (forall s' k, throwsAt P (propGet s' k)) ->
  throwsAt P (dispatchWith exec eval propGet work s).
Proof.
  intros Hx He Hp. unfold dispatchWith.
  apply throws_bind; [apply throws_emit|intro].
  apply throws_bind; [apply throws_ofWork|intros [body|self name e|self t src sn]].
  - apply Hx.
  - apply throws_bind; [apply He|intros v]. apply throws_modStore.
  - apply throws_bind; [apply Hp|intros v]. apply throws_modStore.
Qed.

Lemma throws_computedGetWith dispatch getDeep s key :
  (forall work' s', throwsAt P (dispatch work' s')) ->
  (forall o k, throwsAt P (getDeep o k)) ->
  throwsAt P (computedGetWith dispatch getDeep s key).
Proof.
  intros Hd Hg. unfold computedGetWith.
  apply throws_bind; [apply throws_ofStore|intros [[name work]|]]; [|apply throws_ret].
  apply throws_bind; [apply throws_ofWork|intro].
  apply throws_bind; [apply throws_ofStore|intro].
  apply throws_bind; [apply throws_when, Hd|intro].
  apply throws_bind; [|intro; apply throws_ofStore].
  apply throws_forEachM. intro. apply throws_bind; [apply Hg|intro; apply throws_ret].
Qed.

Section ThrowsWrites.
Variable propAccessed : StoreRef -> PropPath -> M unit.
Variable propEdited : StoreRef -> PropPath -> M unit.
Variable computedGet' : StoreRef -> PropertyKey -> M Value.
Variable eval' : StoreRef -> Expr -> M Value.
Variable exec' : StoreRef -> list Stmt -> M unit.
Hypothesis H_accessed : forall s p, throwsAt P (propAccessed s p).
Hypothesis H_edited : forall s p, throwsAt P (propEdited s p).
Hypothesis H_computed : forall s k, throwsAt P (computedGet' s k).
Hypothesis H_eval : forall s e, throwsAt P (eval' s e).
Hypothesis H_exec : forall s b, throwsAt P (exec' s b).

Lemma throws_propSetWith s key value : throwsAt P (propSetWith propEdited s key value).
Proof.
  unfold propSetWith.
  apply throws_bind; [apply throws_ofStore|intros [[n|n]|]];
    try (apply throws_other; discriminate).
  apply throws_bind; [apply throws_ofStore|intro].
  apply throws_when. apply throws_bind; [apply throws_setProp|intro; apply H_edited].
Qed.

Lemma throws_proxySetWith ref key value :
  throwsAt P (proxySetWith propEdited ref key value).
Proof.
  intro w. unfold proxySetWith. destruct (negb _); [|exact I].
  apply (throws_bind (setProperty ref key value)); [apply throws_setProperty|].
  intro. destruct (negb _); apply H_edited.
Qed.

Lemma throws_proxyDeleteWith ref key : throwsAt P (proxyDeleteWith propEdited ref key).
Proof. intro w. unfold proxyDeleteWith. apply H_edited. Qed.

Lemma throws_memberSetWith v key value :
  throwsAt P (memberSetWith propEdited v key value).
Proof.
  destruct v; simpl; try (apply throws_other; discriminate). apply throws_proxySetWith.
Qed.

Lemma throws_memberDeleteWith v key : throwsAt P (memberDeleteWith propEdited v key).
Proof.
  destruct v; simpl; try (apply throws_other; discriminate); try apply throws_ret.
  apply throws_proxyDeleteWith.
Qed.

Lemma throws_arith f a b : throwsAt P (arith f a b).
Proof.
  destruct a, b; simpl; try (apply throws_other; discriminate); apply throws_ret.
Qed.

Lemma throws_evalWith s e :
  throwsAt P (evalWith propAccessed computedGet' eval' s e).
Proof.
  destruct e; simpl.
  - destruct v; try apply throws_ret; apply throws_other; discriminate.
  - apply throws_bind; [now apply throws_propGetWith|intro].
    now apply throws_readKeysWith.
  - apply H_computed.
  - apply throws_bind; [apply H_eval|intro v]. destruct (truthy v);
      [apply H_eval|apply throws_ret].
  - apply throws_bind; [apply H_eval|intro; apply throws_ret].
  - apply throws_bind; [apply H_eval|intro].
    apply throws_bind; [apply H_eval|intro; apply throws_arith].
  - apply throws_bind; [apply H_eval|intro].
    apply throws_bind; [apply H_eval|intro; apply throws_arith].
  - apply throws_bind; [apply H_eval|intro].
    apply throws_bind; [apply H_eval|intro; apply throws_ret].
Qed.

Lemma throws_assignWith s name keys value :
  throwsAt P (assignWith propAccessed propEdited s name keys value).
Proof.
  unfold assignWith. destruct keys as [|k keys].
  - apply throws_propSetWith.
  - apply throws_bind; [now apply throws_propGetWith|intro].
    apply throws_bind; [now apply throws_readKeysWith|intro].
    apply throws_memberSetWith.
Qed.

Lemma throws_execStmtWith s st :
  throwsAt P (execStmtWith propAccessed propEdited eval' exec' s st).
Proof.
  destruct st; simpl.
  - apply throws_bind; [apply H_eval|intro; apply throws_ret].
  - apply throws_bind; [apply H_eval|intro v].
    destruct (source_of_value v); [apply throws_assignWith|apply throws_other; discriminate].
  - apply throws_assignWith.
  - apply throws_bind; [now apply throws_propGetWith|intro].
    apply throws_bind; [now apply throws_readKeysWith|intro].
    apply throws_memberDeleteWith.
  - apply throws_bind; [apply H_eval|intro v]. destruct (truthy v); apply H_exec.
  - apply throws_emit.
  - apply H_edited.
Qed.

Lemma throws_execWith s stmts :
  throwsAt P (execWith propAccessed propEdited eval' exec' s stmts).
Proof.
  destruct stmts as [|st rest]; simpl; [apply throws_ret|].
  apply throws_bind; [apply throws_execStmtWith|intro; apply H_exec].
Qed.
End ThrowsWrites.

Lemma throws_engine (fuel : nat) :
  (forall s p, throwsAt P (_propEdited fuel s p))
  /\ (forall s, throwsAt P (_dispatchWorks fuel s))
  /\ (forall s work, throwsAt P (_dispatchWork fuel s work))
  /\ (forall work s, throwsAt P (dispatch fuel work s))
  /\ (forall s e, throwsAt P (eval fuel s e))
  /\ (forall s b, throwsAt P (exec fuel s b))
  /\ (forall s k, throwsAt P (computedGet fuel s k)).
Proof.
  induction fuel as [|f (IH1 & IH2 & IH3 & IH4 & IH5 & IH6 & IH7)].
  - repeat split; intros; apply throws_other; discriminate.
  - repeat split; intros; simpl.
    + now apply throws_propEditedWith.
    + now apply throws_dispatchWorksWith.
    + now apply throws_dispatchWorkWith.
    + apply throws_dispatchWith; auto.
      intros. apply throws_propGetWith. apply throws_propAccessed.
    + apply throws_evalWith; auto. apply throws_propAccessed.
    + apply throws_execWith; auto. apply throws_propAccessed.
    + apply throws_computedGetWith; auto. apply throws_getDeep.
Qed.
End Throws.

Lemma explained_engine (fuel : nat) :
  (forall s p, throwsAt explained (_propEdited fuel s p))
  /\ (forall s, throwsAt explained (_dispatchWorks fuel s))
  /\ (forall s work, throwsAt explained (_dispatchWork fuel s work))
  /\ (forall work s, throwsAt explained (dispatch fuel work s))
  /\ (forall s e, throwsAt explained (eval fuel s e))
  /\ (forall s b, throwsAt explained (exec fuel s b))
  /\ (forall s k, throwsAt explained (computedGet fuel s k)).
Proof.
  apply throws_engine.
  - intros w e He Hl. contradiction.
  - intros s w Hc _. apply checkLoopInStack_spec in Hc as (work & Hw).
    exists s, work. exact Hw.
Qed.

(** ** The stack and the dispatches *)

Lemma dispatchWork_split (dispatch : WorkRef -> StoreRef -> M unit) (s : StoreRef)
  (work : WorkRef) (w : World) :
  _dispatchWorkWith dispatch s work w
  = bind (dispatch work s) (fun _ => afterHandler s work) (beforeHandler s work w).
Proof. reflexivity. Qed.

Lemma forEachM_total {A : Type} (f : A -> M unit) (l : list A) :
  (forall a w, snd (f a w) = Ok tt) -> forall w, snd (forEachM f l w) = Ok tt.
Proof.
  intro H. induction l as [|x l IH]; intro w; simpl; [reflexivity|].
  unfold bind. specialize (H x w). destruct (f x w) as [w' [[]|e]]; simpl in H;
    [apply IH|discriminate].
Qed.

Lemma afterHandler_facts (s : StoreRef) (work : WorkRef) (w1 : World) :
  let w' := fst (afterHandler s work w1) in
  snd (afterHandler s work w1) = Ok tt
  /\ trace w' = trace w1
  /\ List.length (stores w') = List.length (stores w1)
  /\ (forall t, _tickRunning (theStore t w') = _tickRunning (theStore t w1))
  /\ (forall t, t <> s ->
        _successiveStack (theStore t w') = _successiveStack (theStore t w1))
  /\ (s < List.length (stores w1) ->
      _successiveStack (theStore s w') = _successiveStack (theStore s w1) ++ [work])
  /\ (List.length (stores w1) <= s ->
      _successiveStack (theStore s w') = _successiveStack (theStore s w1)).
Proof.
  unfold afterHandler, bind. cbn [ofStore modStore modWork].
  set (wa := updStore s (fun r => set_accessedPropsDuringWork r []) w1).
  set (wb := updStore s (fun r => set_editedPropsDuringWork r []) wa).
  set (wc := updWork work WorkM.resetDependencies wb).
  match goal with
  | |- context [forEachM ?f ?l wc] =>
      pose proof (declare_frame work l wc) as (F1 & F2 & _);
      pose proof (forEachM_total f l (fun a w => eq_refl) wc) as Hok;
      destruct (forEachM f l wc) as [wd o]
  end.
  cbn [fst snd] in *. subst o. cbn [modStore fst snd].
  assert (forall t, theStore t wd = theStore t wb) as Ed.
  { intro t. unfold theStore. now rewrite F1. }
  assert (forall {A} (g : Reactive -> A),
            (forall r, g (set_accessedPropsDuringWork r []) = g r) ->
            (forall r, g (set_editedPropsDuringWork r []) = g r) ->
            forall t, g (theStore t wd) = g (theStore t w1)) as Hg.
  { intros A g H1 H2 t. rewrite Ed. unfold wb. rewrite (field_updStore g) by exact H2.
    unfold wa. now rewrite (field_updStore g) by exact H1. }
  assert (List.length (stores wd) = List.length (stores w1)) as Hl.
  { rewrite F1. unfold wc, wb, wa, updWork, updStore; cbn [stores].
    now rewrite !length_list_set. }
  repeat apply conj.
  - reflexivity.
  - cbn [updStore trace]. now rewrite F2.
  - unfold updStore; cbn [stores]. now rewrite length_list_set.
  - intro t. rewrite (field_updStore _tickRunning) by reflexivity.
    now apply (Hg _ _tickRunning).
  - intros t Ht. rewrite theStore_updStore_other by auto.
    now apply (Hg _ _successiveStack).
  - intro Hs. rewrite theStore_updStore_same by (now rewrite Hl).
    cbn [_successiveStack set_successiveStack].
    now rewrite (Hg _ _successiveStack).
  - intro Hs. unfold theStore at 1, updStore; cbn [stores].
    rewrite list_set_beyond by (now rewrite Hl). fold (theStore s wd).
    now apply (Hg _ _successiveStack).
Qed.

Lemma beforeHandler_facts (s : StoreRef) (work : WorkRef) (w : World) :
  let w0 := beforeHandler s work w in
  trace w0 = trace w ++ [EvDispatchWork s work]
  /\ List.length (stores w0) = List.length (stores w)
  /\ (forall t, _tickRunning (theStore t w0) = _tickRunning (theStore t w))
  /\ (forall t, _successiveStack (theStore t w0) = _successiveStack (theStore t w)).
Proof.
  unfold beforeHandler. repeat apply conj.
  - reflexivity.
  - unfold updStore; cbn [stores]. now rewrite !length_list_set.
  - intro t. now rewrite !(field_updStore _tickRunning) by reflexivity.
  - intro t. now rewrite !(field_updStore _successiveStack) by reflexivity.
Qed.

Lemma dispatches_app (t : StoreRef) (work : WorkRef) (w w' : World) (rest : list Event) :
  trace w' = trace w ++ rest ->
  dispatches t work w'
  = dispatches t work w
    + List.length (filter (fun e => match e with
                                   | EvDispatchWork s' w' => Nat.eqb s' t && Nat.eqb w' work
                                   | _ => false
                                   end) rest).
Proof. intro H. unfold dispatches. now rewrite H, filter_app, length_app. Qed.

Lemma dispatches_grows (t : StoreRef) (work : WorkRef) (w w' : World) :
  traceGrows w w' -> dispatches t work w <= dispatches t work w'.
Proof. intros [rest H]. rewrite (dispatches_app t work w w' rest H). lia. Qed.

Lemma occurrences_app (work : WorkRef) (a b : list WorkRef) :
  occurrences work (a ++ b) = occurrences work a + occurrences work b.
Proof. unfold occurrences. apply count_occ_app. Qed.

Lemma occurrences_one (work x : WorkRef) :
  occurrences work [x] = if Nat.eqb x work then 1 else 0.
Proof.
  unfold occurrences. simpl. destruct (Nat.eq_dec x work) as [->|Hne].
  - now rewrite Nat.eqb_refl.
  - apply Nat.eqb_neq in Hne. now rewrite Hne.
Qed.

Lemma stackBounded_refl (w : World) : stackBounded w w.
Proof. intros t work. lia. Qed.

Lemma stackBounded_trans (a b c : World) :
  stackBounded a b -> stackBounded b c -> stackBounded a c.
Proof. intros H1 H2 t work. specialize (H1 t work). specialize (H2 t work). lia. Qed.

Lemma stackBounded_step (w w' : World) :
  (forall t, _successiveStack (theStore t w') = _successiveStack (theStore t w)) ->
  traceGrows w w' -> stackBounded w w'.
Proof.
  intros Hs Ht t work. rewrite Hs. pose proof (dispatches_grows t work w w' Ht). lia.
Qed.

Lemma stackBounded_field (s : StoreRef) (g : Reactive -> Reactive) (w : World) :
  (forall r, _successiveStack (g r) = _successiveStack r) ->
  stackBounded w (updStore s g w).
Proof.
  intro Hg. apply stackBounded_step.
  - intro t. now apply field_updStore.
  - now apply traceGrows_trace.
Qed.

Lemma stackBounded_stores (w w' : World) :
  stores w' = stores w -> traceGrows w w' -> stackBounded w w'.
Proof.
  intros Hs Ht. apply stackBounded_step; [|exact Ht].
  intro t. unfold theStore. now rewrite Hs.
Qed.

Lemma stackBounded_clear (s : StoreRef) (w : World) :
  stackBounded w (updStore s (fun r => set_successiveStack r []) w).
Proof.
  intros t work. change (dispatches t work (updStore s _ w)) with (dispatches t work w).
  destruct (Nat.eq_dec s t) as [->|Hne].
  - destruct (Nat.lt_ge_cases t (List.length (stores w))) as [Hlt|Hge].
    + rewrite theStore_updStore_same by assumption.
      cbn [_successiveStack set_successiveStack]. unfold occurrences at 1. simpl. lia.
    + unfold theStore at 1, updStore; cbn [stores]. rewrite list_set_beyond by assumption.
      fold (theStore t w). lia.
  - rewrite theStore_updStore_other by assumption. lia.
Qed.

Lemma stackBounded_dispatchWorksWith (dispatchWork : StoreRef -> WorkRef -> M unit)
  (self : StoreRef -> M unit) (s : StoreRef) :
  (forall s' work, keepsRel stackBounded (dispatchWork s' work)) ->
  (forall s', keepsRel stackBounded (self s')) ->
  keepsRel stackBounded (_dispatchWorksWith dispatchWork self s).
Proof.
  intros Hd Hs. unfold _dispatchWorksWith.
  pose proof stackBounded_refl as Hr. pose proof stackBounded_trans as Ht.
  apply keeps_bind; [assumption|intro w; now apply stackBounded_field|intro].
  apply keeps_bind; [assumption|now apply keeps_ofStore|intro].
  apply keeps_bind; [assumption|intro w; now apply stackBounded_field|intro].
  apply keeps_bind; [assumption|intro w; apply Hr|intro].
  apply keeps_bind; [assumption|now apply keeps_ofStore|intro].
  destruct (_checkLoopInStack _); [now apply keeps_throw|].
  apply keeps_bind; [assumption| |intro].
  { apply keeps_forEachM; [assumption|assumption|]. intro.
    apply keeps_forEachM; [assumption|assumption|]. intro. apply Hd. }
  apply keeps_bind; [assumption|intro w; now apply stackBounded_field|intro].
  apply keeps_bind; [assumption|now apply keeps_ofStore|intro].
  destruct (nonempty _); [apply Hs|].
  intro w. apply stackBounded_clear.
Qed.

Lemma stackBounded_dispatchWorkWith (dispatch : WorkRef -> StoreRef -> M unit)
  (s : StoreRef) (work : WorkRef) :
  (forall work' s', keepsRel stackBounded (dispatch work' s')) ->
  keepsRel stackBounded (_dispatchWorkWith dispatch s work).
Proof.
  intros Hd w. rewrite dispatchWork_split. unfold bind.
  pose proof (beforeHandler_facts s work w) as (B1 & B2 & _ & B4). cbv zeta in B1, B2, B4.
  pose proof (Hd work s (beforeHandler s work w)) as Hh.
  destruct (dispatch work s (beforeHandler s work w)) as [w1 [[]|e]]; cbn [fst] in Hh |- *.
  - pose proof (afterHandler_facts s work w1) as (_ & A2 & _ & _ & A5 & A6 & A7).
    cbv zeta in A2, A5, A6, A7.
    intros t work'. specialize (Hh t work'). rewrite B4 in Hh.
    rewrite (dispatches_app t work' w _ _ B1) in Hh. cbn [filter List.length] in Hh.
    unfold dispatches at 2. rewrite A2. fold (dispatches t work' w1).
    destruct (Nat.eq_dec t s) as [->|Hne].
    + destruct (Nat.lt_ge_cases s (List.length (stores w1))) as [Hlt|Hge].
      * rewrite (A6 Hlt), occurrences_app, occurrences_one.
        rewrite Nat.eqb_refl in Hh. cbn [andb] in Hh.
        destruct (Nat.eqb work work'); cbn [List.length] in Hh; lia.
      * rewrite (A7 Hge). destruct (Nat.eqb s s && Nat.eqb work work');
          cbn [List.length] in Hh; lia.
    + rewrite (A5 t Hne). destruct (Nat.eqb s t && Nat.eqb work work');
        cbn [List.length] in Hh; lia.
  - intros t work'. specialize (Hh t work'). rewrite B4 in Hh.
    rewrite (dispatches_app t work' w _ _ B1) in Hh. lia.
Qed.

Lemma engine_stackBounded (fuel : nat) :
  (forall s p, keepsRel stackBounded (_propEdited fuel s p))
  /\ (forall s, keepsRel stackBounded (_dispatchWorks fuel s))
  /\ (forall s work, keepsRel stackBounded (_dispatchWork fuel s work))
  /\ (forall work s, keepsRel stackBounded (dispatch fuel work s))
  /\ (forall s e, keepsRel stackBounded (eval fuel s e))
  /\ (forall s b, keepsRel stackBounded (exec fuel s b))
  /\ (forall s k, keepsRel stackBounded (computedGet fuel s k)).
Proof.
  pose proof stackBounded_refl as Hr. pose proof stackBounded_trans as Ht.
  assert (forall s g w, stackBounded w
            (updStore s (fun r => set_accessedPropsDuringWork r (g r)) w)) as Ha
    by (intros; now apply stackBounded_field).
  assert (forall s g w, stackBounded w
            (updStore s (fun r => set_editedPropsDuringTick r (g r)) w)) as Het
    by (intros; now apply stackBounded_field).
  assert (forall s g w, stackBounded w
            (updStore s (fun r => set_editedPropsDuringWork r (g r)) w)) as He
    by (intros; now apply stackBounded_field).
  assert (forall s g w, stackBounded w
            (updStore s (fun r => set_props r (g r)) w)) as Hp
    by (intros; now apply stackBounded_field).
  assert (forall s g w, stackBounded w
            (updStore s (fun r => set_computeds r (g r)) w)) as Hc
    by (intros; now apply stackBounded_field).
  assert (forall h w, stackBounded w (set_proxies h w)) as Hx
    by (intros; apply stackBounded_stores; [reflexivity|now apply traceGrows_trace]).
  assert (forall e w, stackBounded w (addEvent e w)) as Hv
    by (intros e w; apply stackBounded_stores; [reflexivity|now exists [e]]).
  induction fuel as [|f (IH1 & IH2 & IH3 & IH4 & IH5 & IH6 & IH7)].
  - repeat split; intros; now apply keeps_throw.
  - repeat split; intros; simpl.
    + now apply keeps_propEditedWith.
    + now apply stackBounded_dispatchWorksWith.
    + now apply stackBounded_dispatchWorkWith.
    + apply keeps_dispatchWith; auto.
      intros. apply keeps_propGetWith; auto. intros. now apply keeps_propAccessed.
    + apply keeps_evalWith; auto. intros. now apply keeps_propAccessed.
    + apply keeps_execWith; auto. intros. now apply keeps_propAccessed.
    + apply keeps_computedGetWith; auto. intros. now apply keeps_getDeep.
Qed.

(** ** A store inside its tick *)

Lemma bind_ofStore {A B : Type} (s : StoreRef) (f : Reactive -> A) (k : A -> M B)
  (w : World) :
  bind (ofStore s f) k w = k (f (theStore s w)) w.
Proof. reflexivity. Qed.

Lemma bind_ret {A B : Type} (a : A) (k : A -> M B) (w : World) : bind (ret a) k w = k a w.
Proof. reflexivity. Qed.

Section Pinned.
Variable s0 : StoreRef.

Lemma pinned_refl (w : World) : pinned s0 w w.
Proof. intro H. now split. Qed.

Lemma pinned_trans (a b c : World) : pinned s0 a b -> pinned s0 b c -> pinned s0 a c.
Proof.
  intros H1 H2 H. destruct (H1 H) as (R1 & S1). destruct (H2 R1) as (R2 & S2).
  split; [exact R2|congruence].
Qed.

Lemma pinned_field (t : StoreRef) (g : Reactive -> Reactive) (w : World) :
  (forall r, _tickRunning (g r) = _tickRunning r) ->
  (forall r, _successiveStack (g r) = _successiveStack r) ->
  pinned s0 w (updStore t g w).
Proof.
  intros H1 H2 H. split.
  - now rewrite (field_updStore _tickRunning g t s0 w H1).
  - now rewrite (field_updStore _successiveStack g t s0 w H2).
Qed.

Lemma pinned_other (t : StoreRef) (g : Reactive -> Reactive) (w : World) :
  t <> s0 -> pinned s0 w (updStore t g w).
Proof. intros Hne H. now rewrite theStore_updStore_other. Qed.

Lemma pinned_stores (w w' : World) : stores w' = stores w -> pinned s0 w w'.
Proof. intros Hs H. unfold theStore. now rewrite Hs. Qed.

Lemma pinned_propEditedWith (dispatchWorks : StoreRef -> M unit)
  (self : StoreRef -> PropPath -> M unit) (s : StoreRef) (p : PropPath) :
  (forall s', s' <> s0 -> keepsRel (pinned s0) (dispatchWorks s')) ->
  (forall s' p', keepsRel (pinned s0) (self s' p')) ->
  keepsRel (pinned s0) (_propEditedWith dispatchWorks self s p).
Proof.
  intros Hd Hs. unfold _propEditedWith.
  pose proof pinned_refl as Hr. pose proof pinned_trans as Ht.
  assert (keepsRel (pinned s0)
            (links <- linksOf s p ;;
             forEachM (fun linked =>
               self (targetReactive linked) (targetPropName linked :: tl p)) links))
    as Hrest.
  { apply keeps_bind; [assumption|now apply keeps_linksOf|intro].
    apply keeps_forEachM; [assumption|assumption|]. intro. apply Hs. }
  apply keeps_bind; [assumption|intro w; now apply pinned_stores|intro].
  apply keeps_bind; [assumption|now apply keeps_ofStore|intro].
  apply keeps_bind; [assumption| |intro].
  { apply keeps_when; [assumption|]. intro w. now apply pinned_field. }
  apply keeps_bind; [assumption|now apply keeps_ofStore|intro].
  apply keeps_bind; [assumption| |intro].
  { apply keeps_when; [assumption|]. intro w. now apply pinned_field. }
  intros w Hrun. rewrite bind_ofStore.
  destruct (Nat.eq_dec s s0) as [->|Hne].
  - rewrite Hrun. cbn [negb when]. rewrite bind_ret. now apply Hrest.
  - refine (keeps_bind (pinned s0) Ht _ _ _ _ w Hrun).
    + apply keeps_when; [assumption|]. now apply Hd.
    + intro. exact Hrest.
Qed.

Lemma pinned_dispatchWorksWith (dispatchWork : StoreRef -> WorkRef -> M unit)
  (self : StoreRef -> M unit) (s : StoreRef) :
  s <> s0 ->
  (forall work, keepsRel (pinned s0) (dispatchWork s work)) ->
  keepsRel (pinned s0) (self s) ->
  keepsRel (pinned s0) (_dispatchWorksWith dispatchWork self s).
Proof.
  intros Hne Hd Hs. unfold _dispatchWorksWith.
  pose proof pinned_refl as Hr. pose proof pinned_trans as Ht.
  apply keeps_bind; [assumption|intro w; now apply pinned_other|intro].
  apply keeps_bind; [assumption|now apply keeps_ofStore|intro].
  apply keeps_bind; [assumption|intro w; now apply pinned_other|intro].
  apply keeps_bind; [assumption|intro w; apply Hr|intro].
  apply keeps_bind; [assumption|now apply keeps_ofStore|intro].
  destruct (_checkLoopInStack _); [now apply keeps_throw|].
  apply keeps_bind; [assumption| |intro].
  { apply keeps_forEachM; [assumption|assumption|]. intro.
    apply keeps_forEachM; [assumption|assumption|]. intro. apply Hd. }
  apply keeps_bind; [assumption|intro w; now apply pinned_other|intro].
  apply keeps_bind; [assumption|now apply keeps_ofStore|intro].
  destruct (nonempty _); [exact Hs|].
  intro w. now apply pinned_other.
Qed.

Lemma pinned_dispatchWorkWith (dispatch : WorkRef -> StoreRef -> M unit)
  (s : StoreRef) (work : WorkRef) :
  s <> s0 ->
  (forall work' s', keepsRel (pinned s0) (dispatch work' s')) ->
  keepsRel (pinned s0) (_dispatchWorkWith dispatch s work).
Proof.
  intros Hne Hd. unfold _dispatchWorkWith.
  pose proof pinned_refl as Hr. pose proof pinned_trans as Ht.
  apply keeps_bind; [assumption|intro w; now apply pinned_stores|intro].
  apply keeps_bind; [assumption|intro w; now apply pinned_other|intro].
  apply keeps_bind; [assumption|intro w; now apply pinned_other|intro].
  apply keeps_bind; [assumption|apply Hd|intro].
  apply keeps_bind; [assumption|now apply keeps_ofStore|intro].
  apply keeps_bind; [assumption|intro w; now apply pinned_other|intro].
  apply keeps_bind; [assumption|now apply keeps_ofStore|intro].
  apply keeps_bind; [assumption|intro w; now apply pinned_other|intro].
  apply keeps_bind; [assumption|intro w; now apply pinned_stores|intro].
  apply keeps_bind; [assumption| |intro; intro w; now apply pinned_other].
  apply keeps_forEachM; [assumption|assumption|]. intros d w. now apply pinned_stores.
Qed.

Lemma engine_pinned (fuel : nat) :
  (forall s p, keepsRel (pinned s0) (_propEdited fuel s p))
  /\ (forall s, s <> s0 -> keepsRel (pinned s0) (_dispatchWorks fuel s))
  /\ (forall s work, s <> s0 -> keepsRel (pinned s0) (_dispatchWork fuel s work))
  /\ (forall work s, keepsRel (pinned s0) (dispatch fuel work s))
  /\ (forall s e, keepsRel (pinned s0) (eval fuel s e))
  /\ (forall s b, keepsRel (pinned s0) (exec fuel s b))
  /\ (forall s k, keepsRel (pinned s0) (computedGet fuel s k)).
Proof.
  pose proof pinned_refl as Hr. pose proof pinned_trans as Ht.
  assert (forall s g w, pinned s0 w
            (updStore s (fun r => set_accessedPropsDuringWork r (g r)) w)) as Ha
    by (intros; now apply pinned_field).
  assert (forall s g w, pinned s0 w
            (updStore s (fun r => set_props r (g r)) w)) as Hp
    by (intros; now apply pinned_field).
  assert (forall s g w, pinned s0 w
            (updStore s (fun r => set_computeds r (g r)) w)) as Hc
    by (intros; now apply pinned_field).
  assert (forall h w, pinned s0 w (set_proxies h w)) as Hx
    by (intros; now apply pinned_stores).
  assert (forall e w, pinned s0 w (addEvent e w)) as Hv
    by (intros; now apply pinned_stores).
  induction fuel as [|f (IH1 & IH2 & IH3 & IH4 & IH5 & IH6 & IH7)].
  - split; [|split; [|split; [|split; [|split; [|split]]]]]; intros;
      now apply keeps_throw.
  - split; [|split; [|split; [|split; [|split; [|split]]]]]; intros; simpl.
    + now apply pinned_propEditedWith.
    + apply pinned_dispatchWorksWith; auto.
    + now apply pinned_dispatchWorkWith.
    + apply keeps_dispatchWith; auto.
      intros. apply keeps_propGetWith; auto. intros. now apply keeps_propAccessed.
    + apply keeps_evalWith; auto. intros. now apply keeps_propAccessed.
    + apply keeps_execWith; auto. intros. now apply keeps_propAccessed.
    + apply keeps_computedGetWith; auto. intros. now apply keeps_getDeep.
Qed.
End Pinned.

(** A dispatch made while the tick of the store is running, once it has
    returned, has pushed the Work on the stack and nothing else. *)
Lemma dispatchWork_pushes (fuel : nat) (s : StoreRef) (work : WorkRef) (w w' : World) :
  s < List.length (stores w) ->
  _tickRunning (theStore s w) = true ->
  _dispatchWork fuel s work w = (w', Ok tt) ->
  _tickRunning (theStore s w') = true
  /\ _successiveStack (theStore s w') = _successiveStack (theStore s w) ++ [work]
  /\ List.length (stores w') = List.length (stores w).
Proof.
  intros Hs Hrun H. destruct fuel as [|f]; [discriminate|].
  cbn [_dispatchWork] in H. rewrite dispatchWork_split in H. unfold bind in H.
  pose proof (beforeHandler_facts s work w) as (_ & B2 & B3 & B4). cbv zeta in B2, B3, B4.
  pose proof (proj1 (proj2 (proj2 (proj2 (engine_pinned s f)))) work s
                (beforeHandler s work w)) as Hp.
  pose proof (proj1 (proj2 (proj2 (proj2 (engine_namespaces f)))) work s
                (beforeHandler s work w)) as (_ & Hl & _).
  destruct (dispatch f work s (beforeHandler s work w)) as [w1 [[]|e]];
    [|discriminate].
  cbn [fst] in Hp, Hl.
  destruct Hp as (R1 & S1); [now rewrite B3|].
  pose proof (afterHandler_facts s work w1) as (_ & _ & A3 & A4 & _ & A6 & _).
  cbv zeta in A3, A4, A6.
  assert (w' = fst (afterHandler s work w1)) as -> by (now rewrite H).
  assert (s < List.length (stores w1)) as Hs1 by (rewrite Hl, B2; exact Hs).
  repeat apply conj.
  - now rewrite A4.
  - now rewrite (A6 Hs1), S1, B4.
  - now rewrite A3, Hl, B2.
Qed.

Lemma forEachM_pushes (fuel : nat) (s : StoreRef) (l : list WorkRef) :
  forall w w',
    s < List.length (stores w) ->
    _tickRunning (theStore s w) = true ->
    forEachM (_dispatchWork fuel s) l w = (w', Ok tt) ->
    _tickRunning (theStore s w') = true
    /\ _successiveStack (theStore s w') = _successiveStack (theStore s w) ++ l
    /\ List.length (stores w') = List.length (stores w).
Proof.
  induction l as [|work l IH]; intros w w' Hs Hrun H.
  - injection H as <-. rewrite app_nil_r. now repeat split.
  - cbn [forEachM] in H. unfold bind in H.
    destruct (_dispatchWork fuel s work w) as [w1 [[]|e]] eqn:E; [|discriminate].
    destruct (dispatchWork_pushes fuel s work w w1 Hs Hrun E) as (R1 & S1 & L1).
    destruct (IH w1 w' (eq_ind_r (fun n => s < n) Hs L1) R1 H) as (R2 & S2 & L2).
    repeat apply conj.
    + exact R2.
    + rewrite S2, S1, <- app_assoc. reflexivity.
    + congruence.
Qed.

(** A pass that has dispatched its Works and leaves edits behind hands the
    stack, grown by those Works, to the next pass; when that stack holds a
    Work more than 20 times, the next pass throws. *)
Lemma cascade_overflows (fuel : nat) (s : StoreRef) (w w3 : World) :
  s < List.length (stores w) ->
  _checkLoopInStack (_successiveStack (theStore s w)) = false ->
  forEachM (_dispatchWork (S fuel) s) (passDispatches w s)
    (updStore s (fun r => set_editedPropsDuringTick r [])
       (updStore s (fun r => set_tickRunning r true) w)) = (w3, Ok tt) ->
  nonempty (_editedPropsDuringTick (theStore s w3)) = true ->
  (exists work,
      20 < occurrences work (_successiveStack (theStore s w) ++ passDispatches w s)) ->
  _successiveStack (theStore s w3) = _successiveStack (theStore s w) ++ passDispatches w s
  /\ exists w4, _dispatchWorks (S (S fuel)) s w = (w4, Throw InfiniteLoopDetected).
Proof.
  intros Hs Hcheck Hfor Hne Hover.
  set (w1 := updStore s (fun r => set_tickRunning r true) w) in Hfor.
  set (w2 := updStore s (fun r => set_editedPropsDuringTick r []) w1) in Hfor.
  assert (s < List.length (stores w1)) as Hs1
    by (unfold w1, updStore; cbn [stores]; now rewrite length_list_set).
  assert (s < List.length (stores w2)) as Hs2
    by (unfold w2, updStore; cbn [stores]; now rewrite length_list_set).
  assert (_tickRunning (theStore s w2) = true) as Hrun.
  { unfold w2. rewrite (field_updStore _tickRunning) by reflexivity.
    unfold w1. now rewrite theStore_updStore_same. }
  assert (_successiveStack (theStore s w2) = _successiveStack (theStore s w)) as Hst.
  { unfold w2, w1. now rewrite !(field_updStore _successiveStack) by reflexivity. }
  destruct (forEachM_pushes (S fuel) s _ w2 w3 Hs2 Hrun Hfor) as (R3 & S3 & L3).
  rewrite Hst in S3. split; [exact S3|].
  cbn [_dispatchWorks]. rewrite dispatchWorks_pass by exact Hcheck.
  unfold tickPassWith. unfold bind at 1 2. cbn [modStore]. fold w1. fold w2.
  unfold bind at 1. rewrite Hfor. unfold bind at 1. cbn [modStore].
  unfold bind at 1. cbn [ofStore].
  rewrite (field_updStore _editedPropsDuringTick) by reflexivity. rewrite Hne.
  eexists. apply dispatchWorks_overflow.
  rewrite (field_updStore _successiveStack) by reflexivity. rewrite S3.
  apply checkLoopInStack_spec. exact Hover.
Qed.

(** [Infinite loop detected] is thrown only when some Work of some store
    occurs more than 20 times in the stack, counting what the stack held at
    the start and at most one occurrence for each dispatch logged since. *)
Lemma loop_error_counted (fuel : nat) (s : StoreRef) (p : PropPath) (w : World) :
  outcome (_propEdited fuel s p) w = Throw InfiniteLoopDetected ->
  exists t work,
    20 < occurrences work (_successiveStack (theStore t w))
         + (dispatches t work (run (_propEdited fuel s p) w) - dispatches t work w).
Proof.
  intro H. unfold outcome, run in *.
  pose proof (proj1 (explained_engine fuel) s p w) as He.
  pose proof (proj1 (engine_stackBounded fuel) s p w) as Hb.
  destruct (_propEdited fuel s p w) as [w' o]. cbn [fst snd] in *. subst o.
  destruct (He eq_refl) as (t & work & Hw). exists t, work.
  specialize (Hb t work). lia.
Qed.

(** The error of a tick reaches the caller of the write that started it. *)
Lemma tick_error_reaches_caller (fuel : nat) (s : StoreRef) (p : PropPath)
  (w w' : World) (e : Error) :
  _tickRunning (theStore s (recordEdit s p w)) = false ->
  _dispatchWorks fuel s (recordEdit s p w) = (w', Throw e) ->
  _propEdited (S fuel) s p w = (w', Throw e).
Proof.
  intros Hrun H. cbn [_propEdited]. rewrite propEdited_recordEdit, Hrun.
  unfold bind at 1. cbn [negb when]. now rewrite H.
Qed.

Lemma assign_error_reaches_caller (fuel : nat) (s : StoreRef) (name : PropName)
  (value : Source) (w w' : World) (e : Error) :
  assoc_get pkey_eqb (toPropertyKey name) (prop (theStore s w)) = Some (AccProp name) ->
  source_is value (valueAt pkey_eqb (toPropertyKey name) (_props (theStore s w))) = false ->
  _propEdited fuel s [name] (run (setProp s name value) w) = (w', Throw e) ->
  assign fuel s name [] value w = (w', Throw e).
Proof.
  intros Hacc Hd H. unfold assign, assignWith, propSetWith.
  unfold bind at 1. cbn [ofStore]. rewrite Hacc. unfold bind at 1. cbn [ofStore].
  rewrite Hd. cbn [negb when]. unfold bind. unfold run in H.
  assert (snd (setProp s name value w) = Ok tt) as Ho.
  { unfold setProp. destruct (src_isObject value);
      [destruct (_createObjectProxy _ _ _ _)|]; reflexivity. }
  destruct (setProp s name value w) as [w1 o]. cbn [fst snd] in *. subst o. exact H.
Qed.

(** ** An edit runs its dependents and goes on to the linked stores *)









(** ** What [defineSharedProp] shares *)







(** ** The loop check in the running engine *)

Lemma loop_error_needs_dispatches (fuel : nat) (s : StoreRef) (p : PropPath) (w : World) :
  (forall t, _successiveStack (theStore t w) = []) ->
  (forall t work,
      dispatches t work (run (_propEdited fuel s p) w) <= dispatches t work w + 20) ->
  outcome (_propEdited fuel s p) w <> Throw InfiniteLoopDetected.
Proof.
  intros Hclear Hfew Ho.
  destruct (loop_error_counted fuel s p w Ho) as (t & work & H).
  rewrite Hclear in H. specialize (Hfew t work). unfold occurrences in H. simpl in H. lia.
Qed.

(** C4 (as the code has it).  At the start of each tick pass, once the
    index of the dependencies is built (the dependency paths meant are those
    of [plainPath]), the check counts the occurrences of each Work in the
    successive-execution stack, and the pass throws [Infinite loop detected],
    before dispatching anything, exactly when some Work occurs more than 20
    times; otherwise it goes on to dispatch.  The stack holds every dispatch
    since it was last cleared: inside a tick each dispatch that returns
    pushes its Work and nothing else touches the stack, and a tick that
    returns has cleared it; a dispatch made outside a tick, as by the
    definition of a Work, pushes too.  So a pass that has dispatched its
    Works and leaves edits behind makes the next pass throw as soon as the
    stack, grown by those Works, holds one of them more than 20 times; the
    error leaves [_propEdited] and the assignment that started the tick.
    Conversely the error is thrown only when some Work occurs more than 20
    times counting what the stack held when the write was made and one
    occurrence for each dispatch since: on stores whose stacks are clear, a
    cascade that dispatches no Work more than 20 times does not throw it.
    On a store whose stack is clear, the feedback pair that settles after 20
    runs of each Work completes normally; the pair that never settles makes
    the assignment that started the tick throw. *)
Theorem C4_cycle_detection :
  (forall stack,
      _checkLoopInStack stack = true
      <-> exists work, 20 < count_occ Nat.eq_dec stack work)
  /\ (forall dispatchWork self s w,
        plainIndex w s = true ->
        _checkLoopInStack (_successiveStack (theStore s w)) = true ->
        _dispatchWorksWith dispatchWork self s w
        = (updStore s (fun r => set_editedPropsDuringTick r [])
             (updStore s (fun r => set_tickRunning r true) w),
           Throw InfiniteLoopDetected))
  /\ (forall dispatchWork self s w,
        plainIndex w s = true -> plainSnapshot w s = true ->
        _checkLoopInStack (_successiveStack (theStore s w)) = false ->
        _dispatchWorksWith dispatchWork self s w = tickPassWith dispatchWork self s w)
  /\ (forall fuel s l w w',
        s < List.length (stores w) ->
        _tickRunning (theStore s w) = true ->
        forEachM (_dispatchWork fuel s) l w = (w', Ok tt) ->
        _tickRunning (theStore s w') = true
        /\ _successiveStack (theStore s w') = _successiveStack (theStore s w) ++ l)
  /\ (forall fuel s work w w1,
        s < List.length (stores w1) ->
        dispatch fuel work s (beforeHandler s work w) = (w1, Ok tt) ->
        _successiveStack (theStore s (run (_dispatchWork (S fuel) s work) w))
        = _successiveStack (theStore s w1) ++ [work])
  /\ (forall fuel s w w',
        s < List.length (stores w) ->
        _dispatchWorks fuel s w = (w', Ok tt) ->
        _tickRunning (theStore s w') = false
        /\ _successiveStack (theStore s w') = [])
  /\ (forall fuel s w w3,
        s < List.length (stores w) ->
        plainIndex w s = true -> plainSnapshot w s = true -> plainIndex w3 s = true ->
        _checkLoopInStack (_successiveStack (theStore s w)) = false ->
        forEachM (_dispatchWork (S fuel) s) (passDispatches w s)
          (updStore s (fun r => set_editedPropsDuringTick r [])
             (updStore s (fun r => set_tickRunning r true) w)) = (w3, Ok tt) ->
        nonempty (_editedPropsDuringTick (theStore s w3)) = true ->
        (exists work,
            20 < occurrences work (_successiveStack (theStore s w) ++ passDispatches w s)) ->
        exists w4, _dispatchWorks (S (S fuel)) s w = (w4, Throw InfiniteLoopDetected))
  /\ (forall fuel s p w w' e,
        _tickRunning (theStore s (recordEdit s p w)) = false ->
        _dispatchWorks fuel s (recordEdit s p w) = (w', Throw e) ->
        _propEdited (S fuel) s p w = (w', Throw e))
  /\ (forall fuel s name value w w' e,
        assoc_get pkey_eqb (toPropertyKey name) (prop (theStore s w))
        = Some (AccProp name) ->
        source_is value (valueAt pkey_eqb (toPropertyKey name) (_props (theStore s w)))
        = false ->
        _propEdited fuel s [name] (run (setProp s name value) w) = (w', Throw e) ->
        assign fuel s name [] value w = (w', Throw e))
  /\ (forall fuel s p w,
        outcome (_propEdited fuel s p) w = Throw InfiniteLoopDetected ->
        exists t work,
          20 < occurrences work (_successiveStack (theStore t w))
               + (dispatches t work (run (_propEdited fuel s p) w) - dispatches t work w))
  /\ (forall fuel s p w,
        (forall t, _successiveStack (theStore t w) = []) ->
        (forall t work,
            dispatches t work (run (_propEdited fuel s p) w) <= dispatches t work w + 20) ->
        outcome (_propEdited fuel s p) w <> Throw InfiniteLoopDetected)
  /\ (let w := run Scenario.settle (run (Scenario.pair 20) emptyWorld) in
      _successiveStack (theStore 0 w) = []
      /\ outcome Scenario.kick w = Ok tt
      /\ dispatches 0 0 (run Scenario.kick w) = dispatches 0 0 w + 20
      /\ dispatches 0 1 (run Scenario.kick w) = dispatches 0 1 w + 20
      /\ _successiveStack (theStore 0 (run Scenario.kick w)) = [])
  /\ (let w := run Scenario.settle (run Scenario.pairForever emptyWorld) in
      _successiveStack (theStore 0 w) = []
      /\ outcome Scenario.kick w = Throw InfiniteLoopDetected).
Proof.
  split; [exact checkLoopInStack_spec|].
  split; [intros dispatchWork self s w _; apply dispatchWorks_overflow|].
  split; [intros dispatchWork self s w _ _; apply dispatchWorks_pass|].
  split.
  { intros fuel s l w w' Hs Hrun H.
    destruct (forEachM_pushes fuel s l w w' Hs Hrun H) as (H1 & H2 & _). now split. }
  split.
  { intros fuel s work w w1 Hs H. unfold run. cbn [_dispatchWork].
    rewrite dispatchWork_split. unfold bind. rewrite H.
    now destruct (afterHandler_facts s work w1) as (_ & _ & _ & _ & _ & H6 & _);
      apply H6. }
  split.
  { intros fuel s w w' Hs H.
    destruct (dispatchWorks_returns_idle s fuel w w' Hs H) as (H1 & _ & H3). now split. }
  split.
  { intros fuel s w w3 Hs _ _ _ Hc Hf Hne Hover.
    now destruct (cascade_overflows fuel s w w3 Hs Hc Hf Hne Hover) as (_ & H). }
  split; [exact tick_error_reaches_caller|].
  split; [exact assign_error_reaches_caller|].
  split; [exact loop_error_counted|].
  split; [exact loop_error_needs_dispatches|].
  vm_compute. repeat split.
Qed.

(** The check on a stack of 21 dispatches of one Work; the two kinds of
    pass on the stores of the feedback pairs; and, on the store of the pair
    that never settles with 20 dispatches of its first Work on the stack and
    an edit of [a] pending: the pass dispatches that Work once more, the
    stack holds it 21 times, and the next pass throws. *)
Lemma C4_cycle_detection_witness :
  (exists work, 20 < count_occ Nat.eq_dec (repeat 3 21) work)
  /\ (let w := run Scenario.kick
                 (run Scenario.settle (run Scenario.pairForever emptyWorld)) in
      _dispatchWorksWith (_dispatchWork 50) (_dispatchWorks 50) 0 w
      = (updStore 0 (fun r => set_editedPropsDuringTick r [])
           (updStore 0 (fun r => set_tickRunning r true) w),
         Throw InfiniteLoopDetected))
  /\ (let w := run (Scenario.pair 20) emptyWorld in
      _dispatchWorksWith (_dispatchWork 50) (_dispatchWorks 50) 0 w
      = tickPassWith (_dispatchWork 50) (_dispatchWorks 50) 0 w)
  /\ (let w := recordEdit 0 [KStr "a"]
                 (run (setProp 0 (KStr "a") (SrcNum 1))
                    (updStore 0 (fun r => set_successiveStack r (repeat 0 20))
                       (run Scenario.settle (run Scenario.pairForever emptyWorld)))) in
      exists w4, _dispatchWorks 51 0 w = (w4, Throw InfiniteLoopDetected))
  /\ (let w := run (setProp 0 (KStr "a") (SrcNum 1))
                 (run Scenario.settle (run Scenario.pairForever emptyWorld)) in
      exists t work,
        20 < occurrences work (_successiveStack (theStore t w))
             + (dispatches t work (run (_propEdited 1000 0 [KStr "a"]) w)
                - dispatches t work w)).
Proof.
  destruct C4_cycle_detection
    as (C1 & C2 & C3 & _ & _ & _ & C7 & _ & _ & C10 & _).
  split; [|split; [|split; [|split]]].
  - apply (proj1 (C1 (repeat 3 21))). reflexivity.
  - apply C2; vm_compute; reflexivity.
  - apply C3; vm_compute; reflexivity.
  - intro w.
    set (w0 := updStore 0 (fun r => set_editedPropsDuringTick r [])
                 (updStore 0 (fun r => set_tickRunning r true) w)).
    set (w3 := fst (forEachM (_dispatchWork 50 0) (passDispatches w 0) w0)).
    assert (0 < List.length (stores w)) as Hs by (vm_compute; lia).
    assert (plainIndex w 0 = true) as P1 by (vm_compute; reflexivity).
    assert (plainSnapshot w 0 = true) as P2 by (vm_compute; reflexivity).
    assert (plainIndex w3 0 = true) as P3 by (vm_compute; reflexivity).
    assert (_checkLoopInStack (_successiveStack (theStore 0 w)) = false) as Hc
      by (vm_compute; reflexivity).
    assert (forEachM (_dispatchWork 50 0) (passDispatches w 0) w0 = (w3, Ok tt)) as Hf
      by (vm_compute; reflexivity).
    assert (nonempty (_editedPropsDuringTick (theStore 0 w3)) = true) as Hne
      by (vm_compute; reflexivity).
    assert (exists work,
              20 < occurrences work
                     (_successiveStack (theStore 0 w) ++ passDispatches w 0)) as Hover
      by (exists 0; vm_compute; lia).
    exact (C7 49 0 w w3 Hs P1 P2 P3 Hc Hf Hne Hover).
  - intro w. apply C10. vm_compute. reflexivity.
Defined.

(** C4 (as stated) fails: started right after its two Works were defined,
    the pair that settles after 20 runs of each makes the tick throw, the
    first Work having been dispatched again 20 times and the second 19
    times; the stack still held the two dispatches of the definitions.  The
    same pair on a settled store completes with 20 runs of each. *)
Lemma C4_counterexample :
  let w := run (Scenario.pair 20) emptyWorld in
  _successiveStack (theStore 0 w) = [0; 1]
  /\ outcome Scenario.kick w = Throw InfiniteLoopDetected
  /\ dispatches 0 0 (run Scenario.kick w) = dispatches 0 0 w + 20
  /\ dispatches 0 1 (run Scenario.kick w) = dispatches 0 1 w + 19
  /\ outcome Scenario.kick (run Scenario.settle w) = Ok tt
  /\ dispatches 0 0 (run Scenario.kick (run Scenario.settle w))
     = dispatches 0 0 (run Scenario.settle w) + 20
  /\ dispatches 0 1 (run Scenario.kick (run Scenario.settle w))
     = dispatches 0 1 (run Scenario.settle w) + 20.
Proof. vm_compute. repeat split. Qed.

(** ** Cross-store propagation *)



